(** * Triangle peg solitaire: a shallow embedding of [tri_solitaire.c]

    The C program explores every sequence of jumps of the 15-hole triangle
    puzzle.  Boards are [struct board] records: the root lives in [main],
    every other one is allocated by the search [generate_boards], which
    makes one record per legal jump, links it to its parent and recurses.
    [main] then reverses the parent chain of the first one-peg board found
    and prints it from the root.

    The model is a state-and-error monad over a heap of records (a list, the
    address of a record being its index, [calloc] appending a zeroed
    record) and the four globals.  Integers are [Z]; cell values are small
    flag words and the counters count records, so nothing here reaches the
    limits of [int].  Every array access is checked against the declared
    dimensions, an index outside being the error [OutOfBounds].  Recursion
    and the two [while] loops of [main] are bounded by a fuel argument,
    running out of which is the error [OutOfFuel]; the theorems give the
    fuel that suffices.  Output ([print_board], the debug trace) is left
    out, except that the replay returns the sequence of boards it prints. *)

From Stdlib Require Import Ascii String Sorted.
From stdpp Require Import base list numbers.

Set Warnings "-clear-no-such-hyp".

Local Open Scope Z_scope.

(** ** Constants of the source *)

Definition NUM_ROWS : Z := 9.
Definition NUM_COLS : Z := 13.
Definition MAX_BOARDS : Z := 14.

Definition POS_EMPTY : Z := 0.
Definition POS_FULL : Z := 1.
Definition POS_INVALID : Z := 2.
Definition POS_LAST : Z := 16.

Definition NUM_OFFSETS : Z := 6.

Definition rowoffsets : list Z := [-1; -1; 1; 1; 0; 0].
Definition coloffsets : list Z := [-1; 1; -1; 1; -2; 2].

(** ** Errors and results *)

Inductive error := OutOfBounds | NullDeref | OutOfFuel.

Inductive result (A : Type) :=
| Ok (a : A)
| Err (e : error).
Arguments Ok {A} a.
Arguments Err {A} e.

Definition rbind {A B} (m : result A) (k : A -> result B) : result B :=
  match m with
  | Ok a => k a
  | Err e => Err e
  end.

(** ** Grids: [int squares[NUM_ROWS][NUM_COLS]] *)

Abbreviation grid := (list (list Z)).

Definition in_grid (r c : Z) : bool :=
  (0 <=? r) && (r <? NUM_ROWS) && (0 <=? c) && (c <? NUM_COLS).

(** [s[r][c]] as an r-value. *)
Definition sq_get (s : grid) (r c : Z) : result Z :=
  if in_grid r c then
    match s !! Z.to_nat r with
    | Some line =>
        match line !! Z.to_nat c with
        | Some v => Ok v
        | None => Err OutOfBounds
        end
    | None => Err OutOfBounds
    end
  else Err OutOfBounds.

(** [s[r][c] = v]. *)
Definition sq_set (s : grid) (r c v : Z) : result grid :=
  if in_grid r c then
    match s !! Z.to_nat r with
    | Some line =>
        if decide (Z.to_nat c < length line)%nat
        then Ok (<[Z.to_nat r := <[Z.to_nat c := v]> line]> s)
        else Err OutOfBounds
    | None => Err OutOfBounds
    end
  else Err OutOfBounds.

(** The C truth value of [v & flag]. *)
Definition has_flag (v flag : Z) : bool := negb (Z.land v flag =? 0).

(** [count_pegs]: both loops run over the whole array. *)
Definition count_row (line : list Z) : Z :=
  foldl (fun count v => if has_flag v POS_FULL then count + 1 else count) 0 line.

Definition count_pegs (s : grid) : Z :=
  foldl (fun count line => count + count_row line) 0 s.

(** [clear_last]: [s[row][col] &= ~POS_LAST] on every cell. *)
Definition clear_last (s : grid) : grid :=
  map (map (fun v => Z.land v (Z.lnot POS_LAST))) s.

(** ** Boards and the program state *)

Abbreviation addr := nat.

Record board := mkBoard {
  squares : grid;
  next : list (option addr);
  prev : option addr;
  nextwin : option addr;
  boardnum : Z
}.

Record state := mkState {
  heap : list board;
  total_boards : Z;
  total_winning_boards : Z;
  depth : Z;
  winning_board : option addr
}.

(** ** The state-and-error monad of the program *)

Definition M (A : Type) := state -> result (A * state).

Definition ret {A} (a : A) : M A := fun st => Ok (a, st).
Definition fail {A} (e : error) : M A := fun _ => Err e.
Definition bind {A B} (m : M A) (k : A -> M B) : M B :=
  fun st => match m st with
            | Ok (a, st') => k a st'
            | Err e => Err e
            end.
Definition lift {A} (r : result A) : M A :=
  fun st => match r with Ok a => Ok (a, st) | Err e => Err e end.

Declare Scope prog_scope.
Delimit Scope prog_scope with prog.
Notation "x <- m ;; k" := (bind m (fun x => k))
  (at level 100, m at next level, right associativity) : prog_scope.
Notation "m ;; k" := (bind m (fun _ => k))
  (at level 100, right associativity) : prog_scope.
Local Open Scope prog_scope.

(** [for (i = lo; i < lo + n; i++) acc = body(i, acc)] *)
Fixpoint for_loop {A} (n : nat) (lo : Z) (body : Z -> A -> M A) (acc : A) : M A :=
  match n with
  | O => ret acc
  | S n' => acc' <- body lo acc ;; for_loop n' (lo + 1) body acc'
  end.

(** *** Heap primitives *)

Definition load (a : addr) : M board :=
  fun st => match heap st !! a with
            | Some bd => Ok (bd, st)
            | None => Err NullDeref
            end.

Definition set_heap (h : list board) (st : state) : state :=
  mkState h (total_boards st) (total_winning_boards st) (depth st) (winning_board st).

Definition store (a : addr) (bd : board) : M unit :=
  fun st => if decide (a < length (heap st))%nat
            then Ok (tt, set_heap (<[a := bd]> (heap st)) st)
            else Err NullDeref.

Definition with_squares (s : grid) (bd : board) : board :=
  mkBoard s (next bd) (prev bd) (nextwin bd) (boardnum bd).
Definition with_next (n : list (option addr)) (bd : board) : board :=
  mkBoard (squares bd) n (prev bd) (nextwin bd) (boardnum bd).
Definition with_prev (p : option addr) (bd : board) : board :=
  mkBoard (squares bd) (next bd) p (nextwin bd) (boardnum bd).
Definition with_nextwin (p : option addr) (bd : board) : board :=
  mkBoard (squares bd) (next bd) (prev bd) p (boardnum bd).
Definition with_boardnum (n : Z) (bd : board) : board :=
  mkBoard (squares bd) (next bd) (prev bd) (nextwin bd) n.

(** [a->squares[r][c]] *)
Definition load_square (a : addr) (r c : Z) : M Z :=
  bd <- load a ;; lift (sq_get (squares bd) r c).

(** [a->squares[r][c] = v] *)
Definition store_square (a : addr) (r c v : Z) : M unit :=
  bd <- load a ;;
  s <- lift (sq_set (squares bd) r c v) ;;
  store a (with_squares s bd).

(** [calloc(1, sizeof(struct board))]: a fresh zeroed record; allocation is
    taken to succeed. *)
Definition zero_board : board :=
  mkBoard (replicate (Z.to_nat NUM_ROWS) (replicate (Z.to_nat NUM_COLS) 0))
          (replicate (Z.to_nat MAX_BOARDS) None) None None 0.

Definition calloc_board : M addr :=
  fun st => Ok (length (heap st), set_heap (heap st ++ [zero_board]) st).

(** [memcpy(&dst->squares, &src->squares, sizeof(dst->squares))] *)
Definition memcpy_squares (dst src : addr) : M unit :=
  sb <- load src ;;
  db <- load dst ;;
  store dst (with_squares (squares sb) db).

Definition clear_last_at (a : addr) : M unit :=
  bd <- load a ;; store a (with_squares (clear_last (squares bd)) bd).

(** [a->next[i] = p] *)
Definition store_next (a : addr) (i : Z) (p : addr) : M unit :=
  bd <- load a ;;
  if (0 <=? i) && (i <? MAX_BOARDS) && bool_decide (Z.to_nat i < length (next bd))%nat
  then store a (with_next (<[Z.to_nat i := Some p]> (next bd)) bd)
  else fail OutOfBounds.

Definition store_prev (a : addr) (p : addr) : M unit :=
  bd <- load a ;; store a (with_prev (Some p) bd).

Definition store_nextwin (a : addr) (p : addr) : M unit :=
  bd <- load a ;; store a (with_nextwin (Some p) bd).

Definition store_boardnum (a : addr) (n : Z) : M unit :=
  bd <- load a ;; store a (with_boardnum n bd).

(** *** Globals *)

Definition get_total_boards : M Z := fun st => Ok (total_boards st, st).
Definition incr_total_boards : M unit :=
  fun st => Ok (tt, mkState (heap st) (total_boards st + 1) (total_winning_boards st)
                            (depth st) (winning_board st)).
Definition incr_total_winning_boards : M unit :=
  fun st => Ok (tt, mkState (heap st) (total_boards st) (total_winning_boards st + 1)
                            (depth st) (winning_board st)).
Definition add_depth (d : Z) : M unit :=
  fun st => Ok (tt, mkState (heap st) (total_boards st) (total_winning_boards st)
                            (depth st + d) (winning_board st)).
Definition get_winning_board : M (option addr) := fun st => Ok (winning_board st, st).
Definition set_winning_board (w : option addr) : M unit :=
  fun st => Ok (tt, mkState (heap st) (total_boards st) (total_winning_boards st)
                            (depth st) w).

(** [table[i]] for the two offset tables. *)
Definition table_at (t : list Z) (i : Z) : result Z :=
  if (0 <=? i) && (i <? NUM_OFFSETS) then
    match t !! Z.to_nat i with
    | Some v => Ok v
    | None => Err OutOfBounds
    end
  else Err OutOfBounds.

Definition table_get (t : list Z) (i : Z) : M Z := lift (table_at t i).

(** ** [generate_boards] *)

(** Lines 223-233: allocate the child, copy and modify the grid, link it. *)
Definition spawn_child (b : addr) (row col roff coff new_board_num : Z) : M addr :=
  newb <- calloc_board ;;
  incr_total_boards ;;
  memcpy_squares newb b ;;
  clear_last_at newb ;;
  store_square newb row col POS_EMPTY ;;
  store_square newb (row + roff) (col + coff) POS_EMPTY ;;
  store_square newb (row + 2 * roff) (col + 2 * coff) (Z.lor POS_FULL POS_LAST) ;;
  store_next b new_board_num newb ;;
  store_prev newb b ;;
  ret newb.

(** Lines 219-235: the body of the loop over [offnum]; [new_board_num] is the
    loop-carried local. *)
Definition try_offset (rec : addr -> M bool) (b : addr) (row col : Z)
    (offnum new_board_num : Z) : M Z :=
  roff <- table_get rowoffsets offnum ;;
  coff <- table_get coloffsets offnum ;;
  adj <- load_square b (row + roff) (col + coff) ;;
  if has_flag adj POS_FULL then
    land <- load_square b (row + 2 * roff) (col + 2 * coff) ;;
    if land =? POS_EMPTY then
      newb <- spawn_child b row col roff coff new_board_num ;;
      rec newb ;;
      ret (new_board_num + 1)
    else ret new_board_num
  else ret new_board_num.

(** Lines 214-236: the body of the loop over [col]. *)
Definition try_cell (rec : addr -> M bool) (b : addr) (row col new_board_num : Z) : M Z :=
  v <- load_square b row col ;;
  if negb (has_flag v POS_FULL) then ret new_board_num
  else for_loop (Z.to_nat NUM_OFFSETS) 0 (try_offset rec b row col) new_board_num.

(** Lines 212-238. *)
Definition scan_board (rec : addr -> M bool) (b : addr) : M Z :=
  for_loop (Z.to_nat NUM_ROWS) 0
    (fun row => for_loop (Z.to_nat NUM_COLS) 0 (fun col => try_cell rec b row col)) 0.

(** Lines 188-210 (the debug output left out): number the board, read the
    parent's number, enter one level, record a one-peg board. *)
Definition visit_board (b : addr) : M unit :=
  bd <- load b ;;
  let count := count_pegs (squares bd) in
  tb <- get_total_boards ;;
  store_boardnum b tb ;;
  _prevnum <- match prev bd with
              | Some p => pb <- load p ;; ret (boardnum pb)
              | None => ret 0
              end ;;
  add_depth 1 ;;
  if count =? 1 then
    wb <- get_winning_board ;;
    match wb with
    | None => set_winning_board (Some b)
    | Some _ => ret tt
    end ;;
    incr_total_winning_boards
  else ret tt.

(** The recursion is bounded by [fuel], the number of nested activations
    allowed. *)
Fixpoint generate_boards (fuel : nat) (b : addr) : M bool :=
  match fuel with
  | O => fail OutOfFuel
  | S fuel' =>
      visit_board b ;;
      new_board_num <- scan_board (generate_boards fuel') b ;;
      add_depth (-1) ;;
      ret (negb (new_board_num =? 0))
  end.

(** ** [main]: the initial layouts and the path reconstruction *)

Definition layout (row4 row3 row2 : list Z) : grid :=
  let x := POS_FULL in
  let i := POS_INVALID in
  [ [i; i; i; i; i; i; i; i; i; i; i; i; i];
    [i; i; i; i; i; i; i; i; i; i; i; i; i];
    row2; row3; row4;
    [i; i; i; x; i; x; i; x; i; x; i; i; i];
    [i; i; x; i; x; i; x; i; x; i; x; i; i];
    [i; i; i; i; i; i; i; i; i; i; i; i; i];
    [i; i; i; i; i; i; i; i; i; i; i; i; i] ].

Definition full_row2 : list Z := [2; 2; 2; 2; 2; 2; 1; 2; 2; 2; 2; 2; 2].
Definition full_row3 : list Z := [2; 2; 2; 2; 2; 1; 2; 1; 2; 2; 2; 2; 2].
Definition full_row4 : list Z := [2; 2; 2; 2; 1; 2; 1; 2; 1; 2; 2; 2; 2].

Definition initial_squares_1 : grid :=
  layout [2; 2; 2; 2; 1; 2; 0; 2; 1; 2; 2; 2; 2] full_row3 full_row2.
Definition initial_squares_2 : grid :=
  layout full_row4 full_row3 [2; 2; 2; 2; 2; 2; 0; 2; 2; 2; 2; 2; 2].
Definition initial_squares_3 : grid :=
  layout full_row4 [2; 2; 2; 2; 2; 0; 2; 1; 2; 2; 2; 2; 2] full_row2.
Definition initial_squares_4 : grid :=
  layout [2; 2; 2; 2; 0; 2; 1; 2; 1; 2; 2; 2; 2] full_row3 full_row2.

Definition initial_board (s : grid) : board :=
  mkBoard s (replicate (Z.to_nat MAX_BOARDS) None) None None 0.

Definition initial_board_1 : board := initial_board initial_squares_1.

(** The state in which [main] calls [generate_boards(&initial_board_1)]:
    the root is the only board and sits at address 0. *)
Definition initial_state (root : board) : state := mkState [root] 1 0 0 None.

(** Lines 332-335: [while (b->prev != NULL) { b->prev->nextwin = b; b = b->prev; }] *)
Fixpoint link_path (fuel : nat) (b : addr) : M addr :=
  match fuel with
  | O => fail OutOfFuel
  | S fuel' =>
      bd <- load b ;;
      match prev bd with
      | Some p => store_nextwin p b ;; link_path fuel' p
      | None => ret b
      end
  end.

(** Lines 336-339: [while (b != NULL) { print_board(b); b = b->nextwin; }];
    the result is the sequence of boards printed. *)
Fixpoint walk_path (fuel : nat) (b : option addr) : M (list addr) :=
  match b with
  | None => ret []
  | Some a =>
      match fuel with
      | O => fail OutOfFuel
      | S fuel' =>
          bd <- load a ;;
          rest <- walk_path fuel' (nextwin bd) ;;
          ret (a :: rest)
      end
  end.

(** Lines 330-340. *)
Definition replay_win (fuel : nat) : M (list addr) :=
  fun st =>
    if 0 <? total_winning_boards st then
      match winning_board st with
      | Some w => (root <- link_path fuel w ;; walk_path fuel (Some root)) st
      | None => Err NullDeref
      end
    else Ok ([], st).

(** ** The scan read off the grid alone

    The tests and writes of [generate_boards] on one board depend only on
    that board's grid.  The functions below are the same tests and writes on
    a grid value; [scan_board] is shown further down to perform exactly
    [legal_jumps] on the grid of its board. *)

Notation "x <~ m ; k" := (rbind m (fun x => k))
  (at level 100, m at next level, right associativity, only parsing).

(** A jump is the source cell and the offset pair taken from the tables. *)
Record jump_id := mkJump { j_row : Z; j_col : Z; j_roff : Z; j_coff : Z }.

(** The condition of line 221, with the short-circuit of [&&]. *)
Definition jump_ok (s : grid) (row col roff coff : Z) : result bool :=
  adj <~ sq_get s (row + roff) (col + coff) ;
  if has_flag adj POS_FULL then
    land <~ sq_get s (row + 2 * roff) (col + 2 * coff) ;
    Ok (land =? POS_EMPTY)
  else Ok false.

(** Lines 225-229 on the copied grid. *)
Definition apply_jump (s : grid) (j : jump_id) : result grid :=
  s1 <~ sq_set (clear_last s) (j_row j) (j_col j) POS_EMPTY ;
  s2 <~ sq_set s1 (j_row j + j_roff j) (j_col j + j_coff j) POS_EMPTY ;
  sq_set s2 (j_row j + 2 * j_roff j) (j_col j + 2 * j_coff j) (Z.lor POS_FULL POS_LAST).

(** Results of [f lo], [f (lo+1)], ... appended in order. *)
Fixpoint collect {A} (n : nat) (lo : Z) (f : Z -> result (list A)) : result (list A) :=
  match n with
  | O => Ok []
  | S n' => l <~ f lo ; r <~ collect n' (lo + 1) f ; Ok (l ++ r)
  end.

Definition offset_jumps (s : grid) (row col offnum : Z) : result (list jump_id) :=
  roff <~ table_at rowoffsets offnum ;
  coff <~ table_at coloffsets offnum ;
  ok <~ jump_ok s row col roff coff ;
  Ok (if ok then [mkJump row col roff coff] else []).

Definition cell_jumps (s : grid) (row col : Z) : result (list jump_id) :=
  v <~ sq_get s row col ;
  if negb (has_flag v POS_FULL) then Ok []
  else collect (Z.to_nat NUM_OFFSETS) 0 (offset_jumps s row col).

Definition legal_jumps (s : grid) : result (list jump_id) :=
  collect (Z.to_nat NUM_ROWS) 0
    (fun row => collect (Z.to_nat NUM_COLS) 0 (fun col => cell_jumps s row col)).

(** [c] is produced from [s] by one jump that the scan of [s] finds. *)
Definition child_of (s c : grid) : Prop :=
  exists js j, legal_jumps s = Ok js /\ In j js /\ apply_jump s j = Ok c.

Inductive reachable (root : grid) : grid -> Prop :=
| reach_root : reachable root root
| reach_step s c : reachable root s -> child_of s c -> reachable root c.

(** Cell states as the program tests them. *)
Definition Occupied (v : Z) : Prop := has_flag v POS_FULL = true.
Definition Empty (v : Z) : Prop := v = POS_EMPTY.
Definition Invalid (v : Z) : Prop := has_flag v POS_INVALID = true.
Definition Marked (v : Z) : Prop := has_flag v POS_LAST = true.

(** The grid has the declared dimensions. *)
Definition grid_wf (s : grid) : Prop :=
  length s = Z.to_nat NUM_ROWS /\ Forall (fun line => length line = Z.to_nat NUM_COLS) s.

(** What every board of the triangle looks like: outside the triangle the
    cell is [POS_INVALID], inside it is empty, full, or full and marked. *)
Definition cell_inv (v0 v : Z) : Prop :=
  if decide (v0 = POS_INVALID) then v = POS_INVALID
  else v = POS_EMPTY \/ v = POS_FULL \/ v = Z.lor POS_FULL POS_LAST.

Definition tri_inv (s : grid) : Prop :=
  Forall2 (Forall2 cell_inv) initial_squares_1 s.

(** The scan of [s] reaches the test of line 221 for [j] and the test
    succeeds: the source cell is in the grid and full, the offsets are an
    entry of the tables. *)
Definition finds (s : grid) (j : jump_id) : Prop :=
  exists offnum v,
    in_grid (j_row j) (j_col j) = true /\ 0 <= offnum < NUM_OFFSETS /\
    sq_get s (j_row j) (j_col j) = Ok v /\ has_flag v POS_FULL = true /\
    table_at rowoffsets offnum = Ok (j_roff j) /\
    table_at coloffsets offnum = Ok (j_coff j) /\
    jump_ok s (j_row j) (j_col j) (j_roff j) (j_coff j) = Ok true.

(** The three cells of a jump: source, jumped-over, landing. *)
Definition src (j : jump_id) : Z * Z := (j_row j, j_col j).
Definition mid (j : jump_id) : Z * Z := (j_row j + j_roff j, j_col j + j_coff j).
Definition dst (j : jump_id) : Z * Z := (j_row j + 2 * j_roff j, j_col j + 2 * j_coff j).

(** ** Enumerating the boards of the triangle

    The scan only tests [v & POS_FULL] and [v == POS_EMPTY], so it cannot
    tell a cell from its normal form [canon]; the normal forms of the boards
    of the triangle are the [2^15] fillings of the layout. *)

Definition canon (v : Z) : Z :=
  if has_flag v POS_FULL then POS_FULL
  else if v =? POS_EMPTY then POS_EMPTY else POS_INVALID.

Definition canon_grid (s : grid) : grid := map (map canon) s.

Fixpoint fill_row (tmpl : list Z) : list (list Z) :=
  match tmpl with
  | [] => [[]]
  | v0 :: tmpl' =>
      let rest := fill_row tmpl' in
      if v0 =? POS_INVALID then map (cons POS_INVALID) rest
      else map (cons POS_EMPTY) rest ++ map (cons POS_FULL) rest
  end.

Fixpoint fill_grid (tmpl : grid) : list grid :=
  match tmpl with
  | [] => [[]]
  | l0 :: tmpl' =>
      let rest := fill_grid tmpl' in
      flat_map (fun l => map (cons l) rest) (fill_row l0)
  end.

(** The scan stays in bounds and finds at most [bound] jumps. *)
Definition scan_within (bound : nat) (s : grid) : bool :=
  match legal_jumps s with
  | Ok js => (length js <=? bound)%nat
  | Err _ => false
  end.

(** ** What one pass of lines 223-233 leaves in the heap *)

Definition child_board (b : addr) (t : grid) : board :=
  mkBoard t (replicate (Z.to_nat MAX_BOARDS) None) (Some b) None 0.

Definition link_child (n : Z) (newb : addr) (bd : board) : board :=
  with_next (<[Z.to_nat n := Some newb]> (next bd)) bd.

Definition spawned (b : addr) (n : Z) (bd : board) (t : grid) (st : state) : state :=
  mkState (<[b := link_child n (length (heap st)) bd]> (heap st) ++ [child_board b t])
          (total_boards st + 1) (total_winning_boards st) (depth st) (winning_board st).

(** ** What a call of [generate_boards] leaves behind *)

(** Lines 188-210 as a function of the state; [bd] is the record at [b]. *)
Definition one_peg (s : grid) : bool := count_pegs s =? 1.

Definition record_win (a : addr) (s : grid) (w : option addr) : option addr :=
  if one_peg s then match w with None => Some a | Some _ => w end else w.

Definition visited (b : addr) (bd : board) (st : state) : state :=
  mkState (<[b := with_boardnum (total_boards st) bd]> (heap st))
          (total_boards st)
          (if one_peg (squares bd) then total_winning_boards st + 1
           else total_winning_boards st)
          (depth st + 1)
          (record_win b (squares bd) (winning_board st)).

(** Lines 205-210 over boards visited one after the other, the first of
    them at address [a]. *)
Fixpoint record_wins (w : option addr) (a : addr) (gs : list grid) : option addr :=
  match gs with
  | [] => w
  | g :: gs' => record_wins (record_win a g w) (S a) gs'
  end.

Fixpoint count_wins (gs : list grid) : Z :=
  match gs with
  | [] => 0
  | g :: gs' => (if one_peg g then 1 else 0) + count_wins gs'
  end.

(** The records [N] allocated below the board at address [b] with grid [s]
    and number [num]: each is numbered in allocation order, has no forward
    link, a full child array, and a parent at [b] or later whose grid it is
    a child of. *)
Definition new_boards_ok (b : addr) (s : grid) (num : Z) (N : list board) : Prop :=
  forall i bda, N !! i = Some bda ->
    nextwin bda = None /\ length (next bda) = Z.to_nat MAX_BOARDS /\
    boardnum bda = num + 1 + Z.of_nat i /\
    exists p sp, prev bda = Some p /\ (b <= p < S b + i)%nat /\
                 (s :: (squares <$> N)) !! (p - b)%nat = Some sp /\
                 child_of sp (squares bda).

(** The first [length js] entries of the child array of [bd] point to the
    records of the jumps [js] applied to [s], in order. *)
Definition children_ok (b : addr) (s : grid) (bd : board) (N : list board)
    (js : list jump_id) : Prop :=
  forall i j, js !! i = Some j ->
    exists a bda, next bd !! i = Some (Some a) /\ (b < a)%nat /\
                  N !! (a - S b)%nat = Some bda /\ prev bda = Some b /\
                  apply_jump s j = Ok (squares bda).

(** Below [b] nothing is left out: every jump that the scan of a record of
    [N] finds has its child among the records of [N]. *)
Definition subtree_complete (b : addr) (N : list board) : Prop :=
  forall i bda j, N !! i = Some bda -> finds (squares bda) j ->
    exists k bdk, N !! k = Some bdk /\ prev bdk = Some (S b + i)%nat /\
                  apply_jump (squares bda) j = Ok (squares bdk).

(** The scan of the board at [length H] has handled the jumps [js], from
    the state [st1] in which the scan began with record [bd1]. *)
Definition scanned (H : list board) (bd1 : board) (st1 : state)
    (js : list jump_id) (n : Z) (st : state) : Prop :=
  exists bdc N,
    heap st = H ++ bdc :: N /\
    n = Z.of_nat (length js) /\
    squares bdc = squares bd1 /\ prev bdc = prev bd1 /\ nextwin bdc = nextwin bd1 /\
    boardnum bdc = boardnum bd1 /\ length (next bdc) = length (next bd1) /\
    depth st = depth st1 /\
    total_boards st = total_boards st1 + Z.of_nat (length N) /\
    winning_board st = record_wins (winning_board st1) (S (length H)) (squares <$> N) /\
    total_winning_boards st = total_winning_boards st1 + count_wins (squares <$> N) /\
    new_boards_ok (length H) (squares bd1) (boardnum bd1) N /\
    children_ok (length H) (squares bd1) bdc N js /\
    subtree_complete (length H) N.

(** The call on the board at [length H], the last record of the heap of
    [st], returned [r] in state [st']. *)
Definition explored (H : list board) (bd : board) (st : state) (r : bool) (st' : state) : Prop :=
  exists bd' N js,
    heap st' = H ++ bd' :: N /\
    legal_jumps (squares bd) = Ok js /\
    r = negb (Z.of_nat (length js) =? 0) /\
    squares bd' = squares bd /\ prev bd' = prev bd /\ nextwin bd' = nextwin bd /\
    boardnum bd' = total_boards st /\ length (next bd') = length (next bd) /\
    depth st' = depth st /\
    total_boards st' = total_boards st + Z.of_nat (length N) /\
    winning_board st' =
      record_wins (winning_board st) (length H) (squares bd :: (squares <$> N)) /\
    total_winning_boards st' =
      total_winning_boards st + count_wins (squares bd :: (squares <$> N)) /\
    new_boards_ok (length H) (squares bd) (total_boards st) N /\
    children_ok (length H) (squares bd) bd' N js /\
    subtree_complete (length H) N.

(** What a call needs of the record [bd] it is given, the last of the heap
    [H ++ [bd]]. *)
Definition callable (H : list board) (bd : board) : Prop :=
  tri_inv (squares bd) /\ length (next bd) = Z.to_nat MAX_BOARDS /\
  match prev bd with Some p => (p < length H)%nat | None => True end.

(** The four layouts declared in [main]. *)
Definition initial_layouts : list grid :=
  [initial_squares_1; initial_squares_2; initial_squares_3; initial_squares_4].

(** The jump back: from the landing cell over the same cell to the source. *)
Definition reverse_jump (j : jump_id) : jump_id :=
  mkJump (j_row j + 2 * j_roff j) (j_col j + 2 * j_coff j) (- j_roff j) (- j_coff j).

(** ** A small position for examples

    Two pegs in the bottom row, at columns 2 and 4: one jump is possible
    and leaves one peg. *)
Definition two_peg_squares : grid :=
  [ [2; 2; 2; 2; 2; 2; 2; 2; 2; 2; 2; 2; 2];
    [2; 2; 2; 2; 2; 2; 2; 2; 2; 2; 2; 2; 2];
    [2; 2; 2; 2; 2; 2; 0; 2; 2; 2; 2; 2; 2];
    [2; 2; 2; 2; 2; 0; 2; 0; 2; 2; 2; 2; 2];
    [2; 2; 2; 2; 0; 2; 0; 2; 0; 2; 2; 2; 2];
    [2; 2; 2; 0; 2; 0; 2; 0; 2; 0; 2; 2; 2];
    [2; 2; 1; 2; 1; 2; 0; 2; 0; 2; 0; 2; 2];
    [2; 2; 2; 2; 2; 2; 2; 2; 2; 2; 2; 2; 2];
    [2; 2; 2; 2; 2; 2; 2; 2; 2; 2; 2; 2; 2] ].

Definition two_peg_state : state := initial_state (initial_board two_peg_squares).

(** The state after [generate_boards] on it, and its records. *)
Definition two_peg_final : state :=
  match generate_boards 2 0 two_peg_state with
  | Ok (_, st) => st
  | Err _ => two_peg_state
  end.

Definition board_at (st : state) (a : addr) : board :=
  match heap st !! a with
  | Some bd => bd
  | None => zero_board
  end.

(** ** Parent chains *)

(** [parent_chain h a l]: following [prev] from [a] in the heap [h] visits
    the records [l], starting with [a] and ending at a record without
    parent. *)
Inductive parent_chain (h : list board) : addr -> list addr -> Prop :=
| chain_root a bd :
    h !! a = Some bd -> prev bd = None -> parent_chain h a [a]
| chain_step a bd p l :
    h !! a = Some bd -> prev bd = Some p -> parent_chain h p l ->
    parent_chain h a (a :: l).

(** The state after [b->prev->nextwin = b]. *)
Definition linked (p c : addr) (st : state) : state :=
  set_heap (<[p := with_nextwin (Some c) (board_at st p)]> (heap st)) st.

(** ** Lines of play *)

#[global] Instance jump_id_eq_dec : EqDecision jump_id.
Proof. solve_decision. Defined.

(** Plays the jumps [js] from [s], each of which the scan must find. *)
Fixpoint play (s : grid) (js : list jump_id) : option grid :=
  match js with
  | [] => Some s
  | j :: js' =>
      match legal_jumps s, apply_jump s j with
      | Ok all, Ok t => if bool_decide (j ∈ all) then play t js' else None
      | _, _ => None
      end
  end.

(** The line that leads the search from the first layout to its first
    one-peg board. *)
Definition winning_line_1 : list jump_id :=
  [ mkJump 6 4 (-1) 1; mkJump 5 9 0 (-2); mkJump 3 5 1 1; mkJump 3 7 1 1;
    mkJump 5 3 (-1) 1; mkJump 2 6 1 (-1); mkJump 6 8 0 (-2); mkJump 4 4 1 1;
    mkJump 6 4 0 2; mkJump 6 10 (-1) (-1); mkJump 4 8 1 (-1); mkJump 6 8 0 (-2);
    mkJump 6 2 0 2 ].

(** Lines that end on one peg from the other three layouts. *)
Definition winning_line_2 : list jump_id :=
  [ mkJump 4 4 (-1) 1; mkJump 4 8 0 (-2); mkJump 2 6 1 1; mkJump 5 3 (-1) 1;
    mkJump 5 9 (-1) (-1); mkJump 6 4 (-1) 1; mkJump 6 6 (-1) 1; mkJump 3 5 1 1;
    mkJump 3 7 1 1; mkJump 6 10 (-1) (-1); mkJump 4 8 1 (-1); mkJump 6 8 0 (-2);
    mkJump 6 2 0 2 ].

Definition winning_line_3 : list jump_id :=
  [ mkJump 5 3 (-1) 1; mkJump 2 6 1 (-1); mkJump 5 7 (-1) (-1); mkJump 3 5 1 (-1);
    mkJump 6 2 (-1) 1; mkJump 6 4 (-1) 1; mkJump 3 7 1 (-1); mkJump 5 9 (-1) (-1);
    mkJump 6 8 0 (-2); mkJump 6 4 (-1) 1; mkJump 4 4 0 2; mkJump 3 7 1 1;
    mkJump 6 10 (-1) (-1) ].

Definition winning_line_4 : list jump_id :=
  [ mkJump 2 6 1 (-1); mkJump 4 8 (-1) (-1); mkJump 4 4 0 2; mkJump 5 9 (-1) (-1);
    mkJump 2 6 1 1; mkJump 6 6 (-1) (-1); mkJump 5 3 (-1) 1; mkJump 6 10 0 (-2);
    mkJump 6 4 0 2; mkJump 6 8 (-1) (-1); mkJump 4 8 0 (-2); mkJump 3 5 1 (-1);
    mkJump 6 2 (-1) 1 ].

(** ** The order of the scan

    The position of an offset pair in the two tables, and the number of the
    iteration of the three nested loops that handles a jump. *)
Definition offnum_of (roff coff : Z) : Z :=
  match list_find (fun p => p = (roff, coff)) (zip rowoffsets coloffsets) with
  | Some (i, _) => Z.of_nat i
  | None => NUM_OFFSETS
  end.

Definition jump_key (j : jump_id) : Z :=
  (j_row j * NUM_COLS + j_col j) * NUM_OFFSETS + offnum_of (j_roff j) (j_coff j).

Definition scanned_before (j1 j2 : jump_id) : Prop := jump_key j1 < jump_key j2.

(** ** Output: [print_board]

    What the function writes to standard output, as the characters in the
    order written.  [sleep(1)] writes nothing. *)
Definition ESC : ascii := "027"%char.
Definition NL : ascii := "010"%char.

Definition text (s : string) : list ascii := list_ascii_of_string s.

Definition CLEAR_SCREEN : list ascii := ESC :: text "[2J".
Definition CURSOR_HOME : list ascii := ESC :: text "[H".
Definition INVERSE_VIDEO : list ascii := ESC :: text "[7m".
Definition NORMAL_VIDEO : list ascii := ESC :: text "[m".

(** [printf("%1d  ", row - 1)] under the test of line 125: the number is
    between 1 and 5 and takes one digit. *)
Definition row_label (row : Z) : list ascii :=
  if (2 <=? row) && (row <=? 6)
  then ascii_of_nat (48 + Z.to_nat (row - 1)) :: text "  "
  else [].

(** Lines 129-139 for one cell. *)
Definition print_cell (v : Z) : list ascii :=
  if has_flag v POS_FULL then
    (if has_flag v POS_LAST then INVERSE_VIDEO else []) ++
    text "X" ++
    (if has_flag v POS_LAST then NORMAL_VIDEO else [])
  else text " ".

Definition print_row (row : Z) (line : list Z) : list ascii :=
  row_label row ++ flat_map print_cell line ++ [NL].

(** The loop over the rows, from row number [row] on. *)
Fixpoint print_rows (row : Z) (s : grid) : list ascii :=
  match s with
  | [] => []
  | line :: s' => print_row row line ++ print_rows (row + 1) s'
  end.

Definition print_board (visual debug : bool) (s : grid) : list ascii :=
  (if visual && negb debug then CURSOR_HOME else []) ++
  text "++++++++++++++++++++++" ++ [NL] ++
  print_rows 0 s ++
  text "----------------------" ++ [NL; NL].

(** What a cell looks like on the screen: blank, a peg, or a peg in inverse
    video. *)
Inductive glyph := Blank | Peg | LastPeg.

Definition shown (v : Z) : glyph :=
  if has_flag v POS_FULL then (if has_flag v POS_LAST then LastPeg else Peg) else Blank.

(** The text written by the loop of lines 336-339 of [main] when the boards
    it walks are [path]. *)
Definition replay_output (visual debug : bool) (st : state) (path : list addr) : list ascii :=
  flat_map (fun a => print_board visual debug (squares (board_at st a))) path.

(** How many times the character [a] occurs in the text [out]. *)
Definition count_char (a : ascii) (out : list ascii) : nat := count_occ ascii_dec out a.

(** ** A position with two jumps

    Two pegs in the middle of the bottom row, at columns 4 and 6: each can
    jump over the other, to column 8 or to column 2. *)
Definition fork_squares : grid :=
  [ [2; 2; 2; 2; 2; 2; 2; 2; 2; 2; 2; 2; 2];
    [2; 2; 2; 2; 2; 2; 2; 2; 2; 2; 2; 2; 2];
    [2; 2; 2; 2; 2; 2; 0; 2; 2; 2; 2; 2; 2];
    [2; 2; 2; 2; 2; 0; 2; 0; 2; 2; 2; 2; 2];
    [2; 2; 2; 2; 0; 2; 0; 2; 0; 2; 2; 2; 2];
    [2; 2; 2; 0; 2; 0; 2; 0; 2; 0; 2; 2; 2];
    [2; 2; 0; 2; 1; 2; 1; 2; 0; 2; 0; 2; 2];
    [2; 2; 2; 2; 2; 2; 2; 2; 2; 2; 2; 2; 2];
    [2; 2; 2; 2; 2; 2; 2; 2; 2; 2; 2; 2; 2] ].

Definition fork_state : state := initial_state (initial_board fork_squares).

Definition fork_final : state :=
  match generate_boards 2 0 fork_state with
  | Ok (_, st) => st
  | Err _ => fork_state
  end.

(** * Proofs *)

(** ** Grid access *)

Section GridAccess.
Implicit Types (s : grid) (r c v : Z).

Lemma in_grid_spec r c :
  in_grid r c = true <-> 0 <= r < NUM_ROWS /\ 0 <= c < NUM_COLS.
Proof. unfold in_grid. rewrite !andb_true_iff. lia. Qed.

Lemma sq_get_Ok s r c v :
  sq_get s r c = Ok v <->
  in_grid r c = true /\
  exists line, s !! Z.to_nat r = Some line /\ line !! Z.to_nat c = Some v.
Proof.
  unfold sq_get. destruct (in_grid r c); [|naive_solver].
  destruct (s !! Z.to_nat r) as [line|] eqn:Hl; [|naive_solver].
  destruct (line !! Z.to_nat c) eqn:Hc; naive_solver.
Qed.

Lemma sq_get_in_grid s r c v : sq_get s r c = Ok v -> in_grid r c = true.
Proof. rewrite sq_get_Ok. tauto. Qed.

Lemma sq_set_Ok s r c v s' :
  sq_set s r c v = Ok s' <->
  in_grid r c = true /\
  exists line, s !! Z.to_nat r = Some line /\ (Z.to_nat c < length line)%nat /\
               s' = <[Z.to_nat r := <[Z.to_nat c := v]> line]> s.
Proof.
  unfold sq_set. destruct (in_grid r c); [|naive_solver].
  destruct (s !! Z.to_nat r) as [line|] eqn:Hl; [|naive_solver].
  destruct (decide _); naive_solver.
Qed.

Lemma sq_set_total s r c v old :
  sq_get s r c = Ok old -> exists s', sq_set s r c v = Ok s'.
Proof.
  rewrite sq_get_Ok. intros (Hin & line & Hl & Hc).
  eexists. apply sq_set_Ok. split; [done|]. exists line. split; [done|].
  split; [|done]. by eapply lookup_lt_Some.
Qed.

Lemma sq_get_set_eq s r c v s' :
  sq_set s r c v = Ok s' -> sq_get s' r c = Ok v.
Proof.
  rewrite sq_set_Ok. intros (Hin & line & Hl & Hc & ->).
  apply sq_get_Ok. split; [done|]. exists (<[Z.to_nat c := v]> line). split.
  - apply list_lookup_insert_eq. by eapply lookup_lt_Some.
  - by apply list_lookup_insert_eq.
Qed.

Lemma sq_get_set_ne s r c v s' r' c' :
  sq_set s r c v = Ok s' -> (r', c') <> (r, c) -> sq_get s' r' c' = sq_get s r' c'.
Proof.
  rewrite sq_set_Ok. intros (Hin & line & Hl & Hc & ->) Hne.
  unfold sq_get. destruct (in_grid r' c') eqn:Hin'; [|done].
  apply in_grid_spec in Hin, Hin'.
  destruct (decide (Z.to_nat r' = Z.to_nat r)) as [Hr|Hr].
  - rewrite Hr, list_lookup_insert_eq by (by eapply lookup_lt_Some).
    rewrite Hl. rewrite list_lookup_insert_ne; [done|].
    intros Hcc. apply Hne. f_equal; lia.
  - by rewrite list_lookup_insert_ne.
Qed.

Lemma sq_get_clear_last s r c :
  sq_get (clear_last s) r c =
  match sq_get s r c with
  | Ok v => Ok (Z.land v (Z.lnot POS_LAST))
  | Err e => Err e
  end.
Proof.
  unfold sq_get, clear_last. destruct (in_grid r c); [|done].
  rewrite list_lookup_fmap. destruct (s !! Z.to_nat r) as [line|]; [|done].
  simpl. rewrite list_lookup_fmap. by destruct (line !! Z.to_nat c).
Qed.

Lemma grid_wf_get s r c :
  grid_wf s -> in_grid r c = true -> exists v, sq_get s r c = Ok v.
Proof.
  intros [Hlen Hrows] Hin. pose proof Hin as Hin'. apply in_grid_spec in Hin'.
  unfold NUM_ROWS, NUM_COLS in *.
  destruct (lookup_lt_is_Some_2 s (Z.to_nat r)) as [line Hl]; [lia|].
  rewrite Forall_lookup in Hrows. pose proof (Hrows _ _ Hl) as Hll.
  destruct (lookup_lt_is_Some_2 line (Z.to_nat c)) as [v Hv]; [lia|].
  exists v. apply sq_get_Ok. eauto.
Qed.

Lemma grid_wf_set s r c v s' :
  grid_wf s -> sq_set s r c v = Ok s' -> grid_wf s'.
Proof.
  intros [Hlen Hrows]. rewrite sq_set_Ok. intros (Hin & line & Hl & Hc & ->).
  split; [by rewrite length_insert|].
  apply Forall_insert; [done|]. rewrite length_insert.
  rewrite Forall_lookup in Hrows. eauto.
Qed.

Lemma grid_wf_clear_last s : grid_wf s -> grid_wf (clear_last s).
Proof.
  intros [Hlen Hrows]. split; unfold clear_last.
  - by rewrite length_map.
  - apply Forall_fmap. eapply Forall_impl; [|exact Hrows]. intros l Hl. simpl.
    by rewrite length_map.
Qed.
End GridAccess.

(** ** Counting pegs *)

Section Counting.
Implicit Types (s : grid) (line : list Z) (r c v : Z).

Lemma count_row_foldl line a :
  foldl (fun count v => if has_flag v POS_FULL then count + 1 else count) a line
  = a + count_row line.
Proof.
  unfold count_row. revert a. induction line as [|v line IH]; intros a; simpl; [lia|].
  rewrite IH, (IH (if has_flag v POS_FULL then 0 + 1 else 0)).
  destruct (has_flag v POS_FULL); lia.
Qed.

Lemma count_row_cons v line :
  count_row (v :: line) = Z.b2z (has_flag v POS_FULL) + count_row line.
Proof.
  unfold count_row at 1. simpl. rewrite count_row_foldl.
  destruct (has_flag v POS_FULL); simpl; lia.
Qed.

Lemma count_pegs_foldl s a :
  foldl (fun count line => count + count_row line) a s = a + count_pegs s.
Proof.
  unfold count_pegs. revert a. induction s as [|line s IH]; intros a; simpl; [lia|].
  rewrite IH, (IH (0 + count_row line)). lia.
Qed.

Lemma count_pegs_cons line s :
  count_pegs (line :: s) = count_row line + count_pegs s.
Proof. unfold count_pegs at 1. simpl. rewrite count_pegs_foldl. lia. Qed.

Lemma count_row_nonneg line : 0 <= count_row line.
Proof.
  induction line as [|v line IH]; [done|]. rewrite count_row_cons.
  destruct (has_flag v POS_FULL); simpl; lia.
Qed.

Lemma count_pegs_nonneg s : 0 <= count_pegs s.
Proof.
  induction s as [|line s IH]; [done|]. rewrite count_pegs_cons.
  pose proof (count_row_nonneg line). lia.
Qed.

Lemma count_row_insert line i old v :
  line !! i = Some old ->
  count_row (<[i := v]> line)
  = count_row line - Z.b2z (has_flag old POS_FULL) + Z.b2z (has_flag v POS_FULL).
Proof.
  revert i. induction line as [|w line IH]; intros [|i] Hi; simplify_eq/=.
  - rewrite !count_row_cons. lia.
  - rewrite !count_row_cons, (IH _ Hi). lia.
Qed.

Lemma count_pegs_insert s i line line' :
  s !! i = Some line ->
  count_pegs (<[i := line']> s) = count_pegs s - count_row line + count_row line'.
Proof.
  revert i. induction s as [|l0 s IH]; intros [|i] Hi; simplify_eq/=.
  - rewrite !count_pegs_cons. lia.
  - rewrite !count_pegs_cons, (IH _ Hi). lia.
Qed.

Lemma count_pegs_set s r c v old s' :
  sq_get s r c = Ok old -> sq_set s r c v = Ok s' ->
  count_pegs s' = count_pegs s - Z.b2z (has_flag old POS_FULL) + Z.b2z (has_flag v POS_FULL).
Proof.
  rewrite sq_get_Ok, sq_set_Ok.
  intros (_ & line & Hl & Hold) (_ & line' & Hl' & _ & ->). simplify_eq.
  rewrite (count_pegs_insert _ _ _ _ Hl), (count_row_insert _ _ _ _ Hold). lia.
Qed.

Lemma has_flag_clear_last v flag :
  Z.land POS_LAST flag = 0 ->
  has_flag (Z.land v (Z.lnot POS_LAST)) flag = has_flag v flag.
Proof.
  intros Hdisj. unfold has_flag. f_equal. f_equal.
  rewrite <- Z.land_assoc. f_equal.
  rewrite Z.land_comm, <- Z.ldiff_land.
  apply Z.bits_inj'. intros n Hn. rewrite Z.ldiff_spec.
  assert (Hbit : Z.testbit (Z.land POS_LAST flag) n = false) by (rewrite Hdisj; apply Z.bits_0).
  rewrite Z.land_spec in Hbit.
  destruct (Z.testbit flag n), (Z.testbit POS_LAST n); simpl in *; congruence.
Qed.

Lemma count_row_clear_last line :
  count_row (map (fun v => Z.land v (Z.lnot POS_LAST)) line) = count_row line.
Proof.
  induction line as [|v line IH]; [done|]. simpl.
  rewrite !count_row_cons, IH, has_flag_clear_last; done.
Qed.

Lemma count_pegs_clear_last s : count_pegs (clear_last s) = count_pegs s.
Proof.
  unfold clear_last. induction s as [|line s IH]; [done|]. simpl.
  rewrite !count_pegs_cons, IH, count_row_clear_last. done.
Qed.
End Counting.

(** ** The list of jumps the scan finds *)

Section Scan.
Context {A : Type}.
Implicit Types (f : Z -> result (list A)).

Lemma collect_Ok_inv n lo f l i :
  collect n lo f = Ok l -> lo <= i < lo + Z.of_nat n ->
  exists li, f i = Ok li /\ forall x, In x li -> In x l.
Proof.
  revert lo l. induction n as [|n IH]; intros lo l Hc Hi; [lia|].
  simpl in Hc. destruct (f lo) as [l0|] eqn:Hf; [|done]. simpl in Hc.
  destruct (collect n (lo + 1) f) as [l1|] eqn:Hr; [|done]. simpl in Hc.
  simplify_eq. destruct (decide (i = lo)) as [->|Hne].
  - exists l0. split; [done|]. intros x Hx. apply in_or_app. by left.
  - destruct (IH (lo + 1) l1 Hr) as (li & Hli & Hin); [lia|].
    exists li. split; [done|]. intros x Hx. apply in_or_app. right. auto.
Qed.

Lemma collect_In n lo f l x :
  collect n lo f = Ok l -> In x l ->
  exists i li, lo <= i < lo + Z.of_nat n /\ f i = Ok li /\ In x li.
Proof.
  revert lo l. induction n as [|n IH]; intros lo l Hc Hx.
  { simpl in Hc. simplify_eq. destruct Hx. }
  simpl in Hc. destruct (f lo) as [l0|] eqn:Hf; [|done]. simpl in Hc.
  destruct (collect n (lo + 1) f) as [l1|] eqn:Hr; [|done]. simpl in Hc.
  simplify_eq. apply in_app_or in Hx as [Hx|Hx].
  - exists lo, l0. split; [lia|done].
  - destruct (IH _ _ Hr Hx) as (i & li & Hi & Hfi & Hxi).
    exists i, li. split; [lia|done].
Qed.

Lemma collect_total n lo f :
  (forall i, lo <= i < lo + Z.of_nat n -> exists li, f i = Ok li) ->
  exists l, collect n lo f = Ok l.
Proof.
  revert lo. induction n as [|n IH]; intros lo Hf; [by eexists|].
  destruct (Hf lo) as [l0 Hl0]; [lia|].
  destruct (IH (lo + 1)) as [l1 Hl1]; [intros i Hi; apply Hf; lia|].
  exists (l0 ++ l1). simpl. by rewrite Hl0, Hl1.
Qed.

Lemma collect_ext n lo f g :
  (forall i, lo <= i < lo + Z.of_nat n -> f i = g i) ->
  collect n lo f = collect n lo g.
Proof.
  revert lo. induction n as [|n IH]; intros lo Hfg; [done|].
  simpl. rewrite Hfg by lia. rewrite (IH (lo + 1)); [done|].
  intros i Hi. apply Hfg. lia.
Qed.
Lemma collect_O lo f : collect 0 lo f = Ok [].
Proof. done. Qed.

Lemma collect_S n lo f :
  collect (S n) lo f
  = rbind (f lo) (fun l => rbind (collect n (lo + 1) f) (fun r => Ok (l ++ r))).
Proof. done. Qed.

Lemma for_loop_O {X} lo (body : Z -> X -> M X) acc : for_loop 0 lo body acc = ret acc.
Proof. done. Qed.

Lemma for_loop_S {X} n lo (body : Z -> X -> M X) acc :
  for_loop (S n) lo body acc = bind (body lo acc) (for_loop n (lo + 1) body).
Proof. done. Qed.
End Scan.

Arguments collect : simpl never.
Arguments for_loop : simpl never.

Section LegalJumps.
Implicit Types (s : grid) (j : jump_id).

Lemma offset_jumps_In s row col offnum l j :
  offset_jumps s row col offnum = Ok l -> In j l ->
  j_row j = row /\ j_col j = col /\
  table_at rowoffsets offnum = Ok (j_roff j) /\
  table_at coloffsets offnum = Ok (j_coff j) /\
  jump_ok s row col (j_roff j) (j_coff j) = Ok true.
Proof.
  unfold offset_jumps. intros Ho Hj.
  destruct (table_at rowoffsets offnum) as [roff|]; [|done].
  destruct (table_at coloffsets offnum) as [coff|]; [|done]. simpl in Ho.
  destruct (jump_ok s row col roff coff) as [[]|] eqn:Hok; simplify_eq/=; [|done..].
  destruct Hj as [<-|[]]. done.
Qed.

Lemma legal_jumps_finds s js j :
  legal_jumps s = Ok js -> In j js -> finds s j.
Proof.
  unfold legal_jumps. intros Hs Hj.
  destruct (collect_In _ _ _ _ _ Hs Hj) as (row & lr & Hrow & Hlr & Hjr).
  destruct (collect_In _ _ _ _ _ Hlr Hjr) as (col & lc & Hcol & Hlc & Hjc).
  unfold cell_jumps in Hlc.
  destruct (sq_get s row col) as [v|] eqn:Hv; [|done]. simpl in Hlc.
  destruct (has_flag v POS_FULL) eqn:Hfull; simpl in Hlc;
    [|simplify_eq; destruct Hjc].
  destruct (collect_In _ _ _ _ _ Hlc Hjc) as (offnum & lo & Hoff & Hlo & Hjo).
  destruct (offset_jumps_In _ _ _ _ _ _ Hlo Hjo) as (<- & <- & Hr & Hc & Hok).
  exists offnum, v. split; [by eapply sq_get_in_grid|].
  split; [unfold NUM_OFFSETS in *; lia|done].
Qed.

Lemma finds_legal_jumps s js j :
  legal_jumps s = Ok js -> finds s j -> In j js.
Proof.
  unfold legal_jumps. intros Hs (offnum & v & Hin & Hoff & Hv & Hfull & Hr & Hc & Hok).
  apply in_grid_spec in Hin. destruct j as [row col roff coff]; simpl in *.
  destruct (collect_Ok_inv _ _ _ _ row Hs) as (lr & Hlr & Hsub1);
    [unfold NUM_ROWS in *; lia|].
  destruct (collect_Ok_inv _ _ _ _ col Hlr) as (lc & Hlc & Hsub2);
    [unfold NUM_COLS in *; lia|].
  apply Hsub1, Hsub2. unfold cell_jumps in Hlc. rewrite Hv in Hlc. simpl in Hlc.
  rewrite Hfull in Hlc. simpl in Hlc.
  destruct (collect_Ok_inv _ _ _ _ offnum Hlc) as (lo & Hlo & Hsub3);
    [unfold NUM_OFFSETS in *; lia|].
  apply Hsub3. unfold offset_jumps in Hlo. rewrite Hr, Hc in Hlo. simpl in Hlo.
  rewrite Hok in Hlo. simpl in Hlo. simplify_eq. by left.
Qed.

Lemma legal_jumps_In s js j :
  legal_jumps s = Ok js -> In j js <-> finds s j.
Proof. split; eauto using legal_jumps_finds, finds_legal_jumps. Qed.

(** The table entries, and what they have in common. *)
Lemma table_offsets offnum roff coff :
  table_at rowoffsets offnum = Ok roff -> table_at coloffsets offnum = Ok coff ->
  In (roff, coff) [(-1, -1); (-1, 1); (1, -1); (1, 1); (0, -2); (0, 2)].
Proof.
  unfold table_at. destruct ((0 <=? offnum) && (offnum <? NUM_OFFSETS)) eqn:Hb; [|done].
  apply andb_true_iff in Hb as [H0 H1]. apply Z.leb_le in H0. apply Z.ltb_lt in H1.
  unfold NUM_OFFSETS in H1.
  assert (Hcases : offnum = 0 \/ offnum = 1 \/ offnum = 2 \/ offnum = 3
                   \/ offnum = 4 \/ offnum = 5) by lia.
  destruct Hcases as [->|[->|[->|[->|[->| ->]]]]]; simpl; intros ??; simplify_eq;
    auto 10.
Qed.

Lemma jump_ok_true s row col roff coff :
  jump_ok s row col roff coff = Ok true <->
  exists adj, sq_get s (row + roff) (col + coff) = Ok adj /\ has_flag adj POS_FULL = true /\
              sq_get s (row + 2 * roff) (col + 2 * coff) = Ok POS_EMPTY.
Proof.
  unfold jump_ok. split.
  - destruct (sq_get s (row + roff) (col + coff)) as [adj|]; [|done]. cbn [rbind].
    destruct (has_flag adj POS_FULL) eqn:Hadj; [|done].
    destruct (sq_get s (row + 2 * roff) (col + 2 * coff)) as [land|]; [|done].
    cbn [rbind]. destruct (Z.eqb_spec land POS_EMPTY); [|done].
    subst. intros _. by exists adj.
  - intros (adj & -> & Hadj & Hland). cbn [rbind]. rewrite Hadj, Hland. done.
Qed.
End LegalJumps.

(** ** One jump applied to a grid *)

Section ApplyJump.
Implicit Types (s t : grid) (j : jump_id).

Lemma apply_jump_inv s j t :
  apply_jump s j = Ok t ->
  exists s1 s2,
    sq_set (clear_last s) (j_row j) (j_col j) POS_EMPTY = Ok s1 /\
    sq_set s1 (j_row j + j_roff j) (j_col j + j_coff j) POS_EMPTY = Ok s2 /\
    sq_set s2 (j_row j + 2 * j_roff j) (j_col j + 2 * j_coff j)
           (Z.lor POS_FULL POS_LAST) = Ok t.
Proof.
  unfold apply_jump. intros H.
  destruct (sq_set (clear_last s) _ _ _) as [s1|] eqn:H1; [|done]. cbn [rbind] in H.
  destruct (sq_set s1 _ _ _) as [s2|] eqn:H2; [|done]. cbn [rbind] in H.
  by exists s1, s2.
Qed.

(** The cells of the child, last write first. *)
Lemma apply_jump_get s j t r' c' :
  apply_jump s j = Ok t ->
  sq_get t r' c' =
    if decide ((r', c') = dst j) then Ok (Z.lor POS_FULL POS_LAST)
    else if decide ((r', c') = mid j) then Ok POS_EMPTY
    else if decide ((r', c') = src j) then Ok POS_EMPTY
    else sq_get (clear_last s) r' c'.
Proof.
  intros (s1 & s2 & H1 & H2 & H3)%apply_jump_inv. unfold dst, mid, src.
  destruct (decide _) as [[= -> ->]|Hd]; [by eapply sq_get_set_eq|].
  rewrite (sq_get_set_ne _ _ _ _ _ _ _ H3 Hd).
  destruct (decide _) as [[= -> ->]|Hm]; [by eapply sq_get_set_eq|].
  rewrite (sq_get_set_ne _ _ _ _ _ _ _ H2 Hm).
  destruct (decide _) as [[= -> ->]|Hs]; [by eapply sq_get_set_eq|].
  by rewrite (sq_get_set_ne _ _ _ _ _ _ _ H1 Hs).
Qed.

Lemma apply_jump_wf s j t : grid_wf s -> apply_jump s j = Ok t -> grid_wf t.
Proof.
  intros Hwf (s1 & s2 & H1 & H2 & H3)%apply_jump_inv.
  eauto using grid_wf_set, grid_wf_clear_last.
Qed.

(** What [finds] says about the three cells of the jump. *)
Lemma finds_cells s j :
  finds s j ->
  exists v adj,
    sq_get s (j_row j) (j_col j) = Ok v /\ has_flag v POS_FULL = true /\
    sq_get s (j_row j + j_roff j) (j_col j + j_coff j) = Ok adj /\
    has_flag adj POS_FULL = true /\
    sq_get s (j_row j + 2 * j_roff j) (j_col j + 2 * j_coff j) = Ok POS_EMPTY /\
    In (j_roff j, j_coff j) [(-1, -1); (-1, 1); (1, -1); (1, 1); (0, -2); (0, 2)].
Proof.
  intros (offnum & v & _ & _ & Hv & Hfull & Hr & Hc & Hok).
  apply jump_ok_true in Hok as (adj & Hadj & Hafull & Hland).
  exists v, adj. eauto 10 using table_offsets.
Qed.

Lemma offsets_distinct j :
  In (j_roff j, j_coff j) [(-1, -1); (-1, 1); (1, -1); (1, 1); (0, -2); (0, 2)] ->
  mid j <> src j /\ dst j <> src j /\ dst j <> mid j.
Proof.
  unfold mid, src, dst. simpl.
  intros [H|[H|[H|[H|[H|[H|[]]]]]]]; injection H as <- <-;
    repeat split; intros [=]; lia.
Qed.

(** The three writes of a found jump are in bounds. *)
Lemma apply_jump_total s j : finds s j -> exists t, apply_jump s j = Ok t.
Proof.
  intros (v & adj & Hv & _ & Hadj & _ & Hland & Hoff)%finds_cells.
  destruct (offsets_distinct j Hoff) as (Hms & Hds & Hdm). unfold mid, src, dst in *.
  unfold apply_jump.
  destruct (sq_set_total (clear_last s) (j_row j) (j_col j) POS_EMPTY
              (Z.land v (Z.lnot POS_LAST))) as [s1 H1].
  { by rewrite sq_get_clear_last, Hv. }
  rewrite H1. cbn [rbind].
  destruct (sq_set_total s1 (j_row j + j_roff j) (j_col j + j_coff j) POS_EMPTY
              (Z.land adj (Z.lnot POS_LAST))) as [s2 H2].
  { rewrite (sq_get_set_ne _ _ _ _ _ _ _ H1 Hms). by rewrite sq_get_clear_last, Hadj. }
  rewrite H2. cbn [rbind].
  eapply (sq_set_total s2 _ _ _ (Z.land POS_EMPTY (Z.lnot POS_LAST))).
  rewrite (sq_get_set_ne _ _ _ _ _ _ _ H2 Hdm), (sq_get_set_ne _ _ _ _ _ _ _ H1 Hds).
  by rewrite sq_get_clear_last, Hland.
Qed.

Lemma apply_jump_count s j t :
  finds s j -> apply_jump s j = Ok t -> count_pegs t = count_pegs s - 1.
Proof.
  intros (v & adj & Hv & Hvf & Hadj & Haf & Hland & Hoff)%finds_cells
         (s1 & s2 & H1 & H2 & H3)%apply_jump_inv.
  destruct (offsets_distinct j Hoff) as (Hms & Hds & Hdm). unfold mid, src, dst in *.
  assert (G1 : sq_get (clear_last s) (j_row j) (j_col j) = Ok (Z.land v (Z.lnot POS_LAST)))
    by (by rewrite sq_get_clear_last, Hv).
  assert (G2 : sq_get s1 (j_row j + j_roff j) (j_col j + j_coff j)
               = Ok (Z.land adj (Z.lnot POS_LAST))).
  { rewrite (sq_get_set_ne _ _ _ _ _ _ _ H1 Hms). by rewrite sq_get_clear_last, Hadj. }
  assert (G3 : sq_get s2 (j_row j + 2 * j_roff j) (j_col j + 2 * j_coff j)
               = Ok (Z.land POS_EMPTY (Z.lnot POS_LAST))).
  { rewrite (sq_get_set_ne _ _ _ _ _ _ _ H2 Hdm), (sq_get_set_ne _ _ _ _ _ _ _ H1 Hds).
    by rewrite sq_get_clear_last, Hland. }
  rewrite (count_pegs_set _ _ _ _ _ _ G3 H3), (count_pegs_set _ _ _ _ _ _ G2 H2),
    (count_pegs_set _ _ _ _ _ _ G1 H1), count_pegs_clear_last.
  rewrite !has_flag_clear_last by done. rewrite Hvf, Haf. simpl. lia.
Qed.
End ApplyJump.

(** ** The shape of the triangle is kept *)

Section Shape.
Implicit Types (s t : grid) (j : jump_id).

Lemma initial_squares_1_wf : grid_wf initial_squares_1.
Proof. split; [done|]. repeat constructor. Qed.

Lemma tri_inv_wf s : tri_inv s -> grid_wf s.
Proof.
  intros H. destruct initial_squares_1_wf as [Hlen Hrows]. split.
  - rewrite <- Hlen. symmetry. by eapply Forall2_length.
  - apply Forall_lookup. intros i line Hi.
    destruct (Forall2_lookup_r _ _ _ _ _ H Hi) as (line0 & Hi0 & Hline).
    rewrite Forall_lookup in Hrows. rewrite <- (Hrows _ _ Hi0).
    symmetry. by eapply Forall2_length.
Qed.

Lemma tri_inv_get s r c v0 v :
  tri_inv s -> sq_get initial_squares_1 r c = Ok v0 -> sq_get s r c = Ok v ->
  cell_inv v0 v.
Proof.
  intros H (_ & l0 & Hl0 & Hv0)%sq_get_Ok (_ & l & Hl & Hv)%sq_get_Ok.
  pose proof (Forall2_lookup_lr _ _ _ _ _ _ H Hl0 Hl) as Hline.
  exact (Forall2_lookup_lr _ _ _ _ _ _ Hline Hv0 Hv).
Qed.

Lemma tri_inv_pointwise s :
  grid_wf s ->
  (forall r c v0 v, sq_get initial_squares_1 r c = Ok v0 -> sq_get s r c = Ok v ->
                    cell_inv v0 v) ->
  tri_inv s.
Proof.
  intros [Hlen Hrows] Hp. destruct initial_squares_1_wf as [Hlen0 Hrows0].
  rewrite Forall_lookup in Hrows, Hrows0.
  apply Forall2_same_length_lookup. split; [congruence|].
  intros i l0 l Hl0 Hl. apply Forall2_same_length_lookup.
  split; [rewrite (Hrows0 _ _ Hl0), (Hrows _ _ Hl); done|].
  intros k v0 v Hv0 Hv.
  pose proof (lookup_lt_Some _ _ _ Hl) as Hi. pose proof (lookup_lt_Some _ _ _ Hv) as Hk.
  rewrite Hlen in Hi. rewrite (Hrows _ _ Hl) in Hk. unfold NUM_ROWS, NUM_COLS in *.
  assert (Hin : in_grid (Z.of_nat i) (Z.of_nat k) = true)
    by (apply in_grid_spec; unfold NUM_ROWS, NUM_COLS; lia).
  apply (Hp (Z.of_nat i) (Z.of_nat k)); apply sq_get_Ok; rewrite !Nat2Z.id; eauto.
Qed.

Lemma cell_inv_full v0 v :
  cell_inv v0 v -> has_flag v POS_FULL = true -> v0 <> POS_INVALID.
Proof. unfold cell_inv. destruct (decide _); [intros -> [=]|done]. Qed.

Lemma cell_inv_empty v0 : cell_inv v0 POS_EMPTY -> v0 <> POS_INVALID.
Proof. unfold cell_inv. destruct (decide _); [intros [=]|done]. Qed.

Lemma cell_inv_playable v0 v :
  v0 <> POS_INVALID ->
  v = POS_EMPTY \/ v = POS_FULL \/ v = Z.lor POS_FULL POS_LAST -> cell_inv v0 v.
Proof. unfold cell_inv. by destruct (decide _). Qed.

Lemma cell_inv_clear_last v0 v :
  cell_inv v0 v -> cell_inv v0 (Z.land v (Z.lnot POS_LAST)).
Proof.
  unfold cell_inv. destruct (decide _); [by intros ->|].
  intros [->|[->| ->]]; auto.
Qed.

Lemma apply_jump_tri_inv s j t :
  tri_inv s -> finds s j -> apply_jump s j = Ok t -> tri_inv t.
Proof.
  intros Hs Hf Ht. pose proof Hf as Hcells.
  apply finds_cells in Hcells as (v & adj & Hv & Hvf & Hadj & Haf & Hland & _).
  apply tri_inv_pointwise; [eauto using apply_jump_wf, tri_inv_wf|].
  intros r c v0 w Hv0. rewrite (apply_jump_get _ _ _ _ _ Ht). unfold dst, mid, src.
  repeat destruct (decide _); simplify_eq; intros Hw; simplify_eq.
  - apply cell_inv_playable; [|auto].
    eapply cell_inv_empty, tri_inv_get; eauto.
  - apply cell_inv_playable; [|auto].
    eapply cell_inv_full; [eapply tri_inv_get|]; eauto.
  - apply cell_inv_playable; [|auto].
    eapply cell_inv_full; [eapply tri_inv_get|]; eauto.
  - rewrite sq_get_clear_last in Hw.
    destruct (sq_get s r c) as [w0|] eqn:Hw0; simplify_eq.
    apply cell_inv_clear_last. eapply tri_inv_get; eauto.
Qed.

Lemma child_of_finds s t :
  child_of s t <-> exists j, (exists js, legal_jumps s = Ok js) /\ finds s j /\ apply_jump s j = Ok t.
Proof.
  unfold child_of. split.
  - intros (js & j & Hjs & Hj & Ht). exists j. eauto using legal_jumps_finds.
  - intros (j & [js Hjs] & Hf & Ht). exists js, j. eauto using finds_legal_jumps.
Qed.

Lemma child_of_tri_inv s t : tri_inv s -> child_of s t -> tri_inv t.
Proof.
  intros Hs (j & _ & Hf & Ht)%child_of_finds. eauto using apply_jump_tri_inv.
Qed.
End Shape.

(** All [2^15] fillings of the layout are scanned by evaluation. *)
Lemma scan_all_fillings :
  forallb (scan_within 12) (fill_grid initial_squares_1) = true.
Proof. vm_cast_no_check (eq_refl true). Qed.

Section Enumeration.
Implicit Types (s t : grid) (v : Z).

Lemma canon_full v : has_flag (canon v) POS_FULL = has_flag v POS_FULL.
Proof.
  unfold canon. destruct (has_flag v POS_FULL) eqn:Hf; [done|].
  by destruct (v =? POS_EMPTY).
Qed.

Lemma canon_empty v : (canon v =? POS_EMPTY) = (v =? POS_EMPTY).
Proof.
  unfold canon. destruct (has_flag v POS_FULL) eqn:Hf.
  - destruct (Z.eqb_spec v POS_EMPTY) as [->|]; done.
  - by destruct (v =? POS_EMPTY) eqn:He.
Qed.

Lemma sq_get_canon s r c :
  sq_get (canon_grid s) r c =
  match sq_get s r c with Ok v => Ok (canon v) | Err e => Err e end.
Proof.
  unfold sq_get, canon_grid. destruct (in_grid r c); [|done].
  rewrite list_lookup_fmap. destruct (s !! Z.to_nat r) as [line|]; [|done].
  simpl. rewrite list_lookup_fmap. by destruct (line !! Z.to_nat c).
Qed.

Lemma jump_ok_canon s row col roff coff :
  jump_ok (canon_grid s) row col roff coff = jump_ok s row col roff coff.
Proof.
  unfold jump_ok. rewrite !sq_get_canon.
  destruct (sq_get s (row + roff) (col + coff)) as [adj|]; [|done]. cbn [rbind].
  rewrite canon_full. destruct (has_flag adj POS_FULL); [|done].
  destruct (sq_get s (row + 2 * roff) (col + 2 * coff)) as [land|]; [|done].
  cbn [rbind]. by rewrite canon_empty.
Qed.

Lemma cell_jumps_canon s row col :
  cell_jumps (canon_grid s) row col = cell_jumps s row col.
Proof.
  unfold cell_jumps. rewrite sq_get_canon.
  destruct (sq_get s row col) as [v|]; [|done]. cbn [rbind]. rewrite canon_full.
  destruct (has_flag v POS_FULL); [|done]. cbn [negb].
  apply collect_ext. intros offnum _. unfold offset_jumps.
  destruct (table_at rowoffsets offnum); [|done].
  destruct (table_at coloffsets offnum); [|done]. cbn [rbind].
  by rewrite jump_ok_canon.
Qed.

Lemma legal_jumps_canon s : legal_jumps (canon_grid s) = legal_jumps s.
Proof.
  unfold legal_jumps. apply collect_ext. intros row _.
  apply collect_ext. intros col _. apply cell_jumps_canon.
Qed.

Lemma fill_row_canon tmpl line :
  Forall2 cell_inv tmpl line -> In (map canon line) (fill_row tmpl).
Proof.
  induction 1 as [|v0 v tmpl line Hv _ IH]; [by left|]. simpl.
  unfold cell_inv in Hv. destruct (Z.eqb_spec v0 POS_INVALID) as [->|Hne].
  - rewrite decide_True in Hv by done. subst v. by apply in_map.
  - rewrite decide_False in Hv by done. apply in_or_app.
    destruct Hv as [->|[->| ->]]; [left|right..]; by apply in_map.
Qed.

Lemma fill_grid_canon tmpl s :
  Forall2 (Forall2 cell_inv) tmpl s -> In (canon_grid s) (fill_grid tmpl).
Proof.
  induction 1 as [|l0 line tmpl s Hl _ IH]; [by left|]. simpl.
  apply in_flat_map. exists (map canon line). split; [by apply fill_row_canon|].
  by apply in_map.
Qed.

(** Every board of the triangle is scanned without leaving the arrays,
    and has at most 12 jumps. *)
Lemma tri_inv_scan s :
  tri_inv s -> exists js, legal_jumps s = Ok js /\ (length js <= 12)%nat.
Proof.
  intros Hs. pose proof scan_all_fillings as Hall.
  rewrite forallb_forall in Hall. specialize (Hall _ (fill_grid_canon _ _ Hs)).
  unfold scan_within in Hall. rewrite legal_jumps_canon in Hall.
  destruct (legal_jumps s) as [js|]; [|done].
  exists js. split; [done|]. by apply Nat.leb_le.
Qed.
End Enumeration.

(** ** Boards reachable from an initial layout *)

Section Reachable.
Implicit Types (s t root : grid).

Lemma initial_squares_tri_inv root :
  In root [initial_squares_1; initial_squares_2; initial_squares_3; initial_squares_4] ->
  tri_inv root.
Proof.
  intros [<-|[<-|[<-|[<-|[]]]]];
    repeat (apply Forall2_cons; [repeat (apply Forall2_cons; [vm_compute; auto|]);
                                 apply Forall2_nil|]);
    apply Forall2_nil.
Qed.

Lemma reachable_tri_inv root s : tri_inv root -> reachable root s -> tri_inv s.
Proof. induction 2; eauto using child_of_tri_inv. Qed.
End Reachable.

(** ** The monad's primitives *)

Section Primitives.
Implicit Types (st : state) (a b : addr) (bd : board) (H : list board).

Lemma bind_Ok {A B} (m : M A) (k : A -> M B) st x st' :
  m st = Ok (x, st') -> bind m k st = k x st'.
Proof. unfold bind. by intros ->. Qed.

Lemma bind_inv {A B} (m : M A) (k : A -> M B) st y st2 :
  bind m k st = Ok (y, st2) ->
  exists x st1, m st = Ok (x, st1) /\ k x st1 = Ok (y, st2).
Proof. unfold bind. destruct (m st) as [[x st1]|]; [eauto|done]. Qed.

Lemma load_Ok a st bd : heap st !! a = Some bd -> load a st = Ok (bd, st).
Proof. unfold load. by intros ->. Qed.

Lemma store_Ok a bd st :
  (a < length (heap st))%nat ->
  store a bd st = Ok (tt, set_heap (<[a := bd]> (heap st)) st).
Proof. unfold store. intros Ha. by rewrite decide_True. Qed.

(** Read-modify-write of one record. *)
Lemma update_Ok (f : board -> board) a st bd :
  heap st !! a = Some bd ->
  (bd0 <- load a ;; store a (f bd0)) st
  = Ok (tt, set_heap (<[a := f bd]> (heap st)) st).
Proof.
  intros Ha. rewrite (bind_Ok _ _ _ _ _ (load_Ok _ _ _ Ha)).
  apply store_Ok. by eapply lookup_lt_Some.
Qed.

Lemma insert_last H (x y : board) : <[length H := y]> (H ++ [x]) = H ++ [y].
Proof. by rewrite insert_app_r_alt, Nat.sub_diag by done. Qed.

Lemma lookup_last H (x : board) : (H ++ [x]) !! length H = Some x.
Proof. by rewrite lookup_app_r, Nat.sub_diag by done. Qed.
End Primitives.

Section Spawn.
Implicit Types (st : state) (a b : addr) (bd : board) (H : list board) (t : grid).

Lemma load_square_Ok a r c st bd v :
  heap st !! a = Some bd -> sq_get (squares bd) r c = Ok v ->
  load_square a r c st = Ok (v, st).
Proof.
  intros Ha Hv. unfold load_square.
  rewrite (bind_Ok _ _ _ _ _ (load_Ok _ _ _ Ha)). unfold lift. by rewrite Hv.
Qed.

Lemma store_square_last H x r c v t tb tw d w :
  sq_set (squares x) r c v = Ok t ->
  store_square (length H) r c v (mkState (H ++ [x]) tb tw d w)
  = Ok (tt, mkState (H ++ [with_squares t x]) tb tw d w).
Proof.
  intros Ht. unfold store_square.
  rewrite (bind_Ok _ _ _ _ _ (load_Ok _ (mkState _ _ _ _ _) _ (lookup_last H x))).
  unfold lift at 1. rewrite Ht. unfold bind at 1.
  rewrite store_Ok by (simpl; rewrite length_app; simpl; lia).
  unfold set_heap. simpl. by rewrite insert_last.
Qed.

Lemma update_last (f : board -> board) H x a tb tw d w :
  a = length H ->
  (bd0 <- load a ;; store a (f bd0)) (mkState (H ++ [x]) tb tw d w)
  = Ok (tt, mkState (H ++ [f x]) tb tw d w).
Proof.
  intros ->. rewrite (update_Ok f _ (mkState _ _ _ _ _) _ (lookup_last H x)).
  unfold set_heap. simpl. by rewrite insert_last.
Qed.

Lemma spawn_child_Ok b row col roff coff n st bd t :
  heap st !! b = Some bd ->
  apply_jump (squares bd) (mkJump row col roff coff) = Ok t ->
  0 <= n < MAX_BOARDS -> (Z.to_nat n < length (next bd))%nat ->
  spawn_child b row col roff coff n st = Ok (length (heap st), spawned b n bd t st).
Proof.
  intros Hb (s1 & s2 & H1 & H2 & H3)%apply_jump_inv Hn Hlen. simpl in H1, H2, H3.
  destruct st as [H tb tw d w]. simpl in Hb. unfold spawn_child, spawned. simpl.
  pose proof (lookup_lt_Some _ _ _ Hb) as HbH.
  assert (Hb' : forall x, (H ++ [x]) !! b = Some bd) by (intros; by apply lookup_app_l_Some).
  unfold bind at 1. unfold calloc_board at 1. cbn [heap set_heap total_boards
    total_winning_boards depth winning_board].
  unfold bind at 1. unfold incr_total_boards at 1. cbn [heap set_heap total_boards
    total_winning_boards depth winning_board].
  (* memcpy *)
  unfold bind at 1. unfold memcpy_squares.
  rewrite (bind_Ok _ _ _ _ _ (load_Ok _ (mkState _ _ _ _ _) _ (Hb' _))).
  rewrite (bind_Ok _ _ _ _ _ (load_Ok _ (mkState _ _ _ _ _) _ (lookup_last H _))).
  rewrite store_Ok by (simpl; rewrite length_app; simpl; lia).
  unfold set_heap. cbn [heap total_boards total_winning_boards depth winning_board].
  rewrite insert_last.
  (* clear_last *)
  unfold bind at 1. unfold clear_last_at.
  rewrite (update_Ok (fun bd0 => with_squares (clear_last (squares bd0)) bd0) _
             (mkState _ _ _ _ _) _ (lookup_last H _)).
  unfold set_heap. cbn [heap total_boards total_winning_boards depth winning_board].
  rewrite insert_last. unfold with_squares at 1 2. cbn [squares next prev nextwin boardnum].
  (* the three writes *)
  unfold bind at 1. erewrite store_square_last by (cbn [squares]; exact H1).
  unfold bind at 1. erewrite store_square_last by (cbn [squares]; exact H2).
  unfold bind at 1. erewrite store_square_last by (cbn [squares]; exact H3).
  unfold with_squares. cbn [squares next prev nextwin boardnum].
  (* the two links *)
  unfold bind at 1. unfold store_next.
  rewrite (bind_Ok _ _ _ _ _ (load_Ok _ (mkState _ _ _ _ _) _ (Hb' _))).
  assert (Hchk : (0 <=? n) && (n <? MAX_BOARDS)
                 && bool_decide (Z.to_nat n < length (next bd))%nat = true).
  { rewrite bool_decide_eq_true_2 by done.
    rewrite !andb_true_iff, Z.leb_le, Z.ltb_lt. lia. }
  rewrite Hchk. rewrite store_Ok by (simpl; rewrite length_app; simpl; lia).
  unfold set_heap. cbn [heap total_boards total_winning_boards depth winning_board].
  rewrite insert_app_l by done.
  unfold bind at 1. unfold store_prev.
  erewrite update_last by (by rewrite length_insert).
  unfold ret. reflexivity.
Qed.
End Spawn.

(** ** Loops against their pure counterparts *)

Section LoopSim.
Context {J : Type}.
Variable R : list J -> Z -> state -> Prop.
Variable B : nat.

Lemma for_loop_collect n lo (body : Z -> Z -> M Z) (f : Z -> result (list J)) :
  (forall i js0 li acc st,
      lo <= i < lo + Z.of_nat n -> R js0 acc st -> f i = Ok li ->
      (length (js0 ++ li) <= B)%nat ->
      exists acc' st', body i acc st = Ok (acc', st') /\ R (js0 ++ li) acc' st') ->
  forall js0 l acc st,
    R js0 acc st -> collect n lo f = Ok l -> (length (js0 ++ l) <= B)%nat ->
    exists acc' st', for_loop n lo body acc st = Ok (acc', st') /\ R (js0 ++ l) acc' st'.
Proof.
  revert lo. induction n as [|n IH]; intros lo Hbody js0 l acc st HR Hc Hlen.
  - rewrite collect_O in Hc. simplify_eq. rewrite app_nil_r. by exists acc, st.
  - rewrite collect_S in Hc. destruct (f lo) as [l0|] eqn:Hf; [|done]. cbn [rbind] in Hc.
    destruct (collect n (lo + 1) f) as [l1|] eqn:Hr; [|done]. cbn [rbind] in Hc.
    simplify_eq. rewrite app_assoc in Hlen |- *.
    destruct (Hbody lo js0 l0 acc st) as (acc1 & st1 & Hb1 & HR1); [lia|done..| |].
    { rewrite length_app in Hlen. lia. }
    destruct (IH (lo + 1)) with (js0 := js0 ++ l0) (l := l1) (acc := acc1) (st := st1)
      as (acc2 & st2 & Hb2 & HR2); [|done..|].
    { intros i ?????. apply Hbody. lia. }
    exists acc2, st2. split; [|done]. rewrite for_loop_S. by rewrite (bind_Ok _ _ _ _ _ Hb1).
Qed.
End LoopSim.

(** ** Entering a board: lines 188-210 *)

Section Visit.
Implicit Types (st : state) (a b : addr) (bd : board) (H : list board).

Lemma visit_board_Ok b bd st :
  heap st !! b = Some bd ->
  match prev bd with Some p => (p < length (heap st))%nat | None => True end ->
  visit_board b st = Ok (tt, visited b bd st).
Proof.
  intros Hb Hprev. destruct st as [h tb tw d w]. simpl in Hb, Hprev.
  unfold visit_board, visited. cbn [heap total_boards total_winning_boards depth winning_board].
  rewrite (bind_Ok _ _ _ _ _ (load_Ok _ (mkState _ _ _ _ _) _ Hb)).
  unfold bind at 1. unfold get_total_boards at 1. cbn [total_boards].
  unfold bind at 1. unfold store_boardnum.
  rewrite (update_Ok (with_boardnum tb) _ (mkState _ _ _ _ _) _ Hb).
  unfold set_heap. cbn [heap total_boards total_winning_boards depth winning_board].
  unfold bind at 1.
  assert (Hread : exists x,
             match prev bd with
             | Some p => pb <- load p ;; ret (boardnum pb)
             | None => ret 0
             end (mkState (<[b := with_boardnum tb bd]> h) tb tw d w)
             = Ok (x, mkState (<[b := with_boardnum tb bd]> h) tb tw d w)).
  { destruct (prev bd) as [p|]; [|by eexists].
    destruct (lookup_lt_is_Some_2 (<[b := with_boardnum tb bd]> h) p) as [pb Hpb];
      [by rewrite length_insert|].
    exists (boardnum pb).
    by rewrite (bind_Ok _ _ _ _ _ (load_Ok _ (mkState _ _ _ _ _) _ Hpb)). }
  destruct Hread as [x ->].
  unfold bind at 1. unfold add_depth at 1.
  cbn [heap total_boards total_winning_boards depth winning_board].
  unfold record_win, one_peg. destruct (count_pegs (squares bd) =? 1); [|done].
  unfold bind at 1. unfold bind at 1. unfold get_winning_board at 1.
  cbn [heap total_boards total_winning_boards depth winning_board].
  by destruct w.
Qed.

Lemma record_wins_app w a gs1 gs2 :
  record_wins w a (gs1 ++ gs2)
  = record_wins (record_wins w a gs1) (a + length gs1)%nat gs2.
Proof.
  revert w a. induction gs1 as [|g gs1 IH]; intros w a; simpl.
  - by rewrite Nat.add_0_r.
  - rewrite IH. f_equal. lia.
Qed.

Lemma count_wins_app gs1 gs2 :
  count_wins (gs1 ++ gs2) = count_wins gs1 + count_wins gs2.
Proof. induction gs1 as [|g gs1 IH]; simpl; lia. Qed.

Lemma record_wins_Some w a gs : record_wins (Some w) a gs = Some w.
Proof.
  revert a. induction gs as [|g gs IH]; intros a; [done|]. simpl.
  unfold record_win. destruct (one_peg g); apply IH.
Qed.
End Visit.

Lemma count_pegs_pos (s : grid) r c v :
  sq_get s r c = Ok v -> has_flag v POS_FULL = true -> 1 <= count_pegs s.
Proof.
  intros Hv Hf. destruct (sq_set_total s r c POS_EMPTY v Hv) as [s' Hs'].
  pose proof (count_pegs_set _ _ _ _ _ _ Hv Hs') as Hc. rewrite Hf in Hc.
  pose proof (count_pegs_nonneg s'). simpl in Hc. lia.
Qed.

Lemma apply_jump_count_pos (s t : grid) j : apply_jump s j = Ok t -> 1 <= count_pegs t.
Proof.
  intros Ht. apply (count_pegs_pos t (j_row j + 2 * j_roff j) (j_col j + 2 * j_coff j)
                      (Z.lor POS_FULL POS_LAST)); [|done].
  rewrite (apply_jump_get _ _ _ _ _ Ht). by rewrite decide_True.
Qed.

(** ** The scan of one board: lines 212-238 *)

Section ScanLoop.
Variable rec : addr -> M bool.
Variable bound : Z.
Hypothesis rec_spec : forall H bd st,
  heap st = H ++ [bd] -> callable H bd -> 1 <= count_pegs (squares bd) <= bound ->
  exists r st', rec (length H) st = Ok (r, st') /\ explored H bd st r st'.

Variable H : list board.
Variable bd1 : board.
Variable st1 : state.
Hypothesis bd1_tri : tri_inv (squares bd1).
Hypothesis bd1_next : length (next bd1) = Z.to_nat MAX_BOARDS.
Hypothesis bd1_count : count_pegs (squares bd1) <= bound + 1.
Hypothesis bd1_num : total_boards st1 = boardnum bd1.

Let b := length H.
Let s := squares bd1.

Lemma scanned_lookup js n st :
  scanned H bd1 st1 js n st -> exists bdc, heap st !! b = Some bdc /\ squares bdc = s.
Proof.
  intros (bdc & N & Hheap & _ & Hsq & _). exists bdc. split; [|done].
  rewrite Hheap. by rewrite list_lookup_middle.
Qed.

Lemma scanned_spawn js n st j t :
  scanned H bd1 st1 js n st -> finds s j -> apply_jump s j = Ok t ->
  (length (js ++ [j]) <= 12)%nat ->
  exists newb st2 r st3,
    spawn_child b (j_row j) (j_col j) (j_roff j) (j_coff j) n st = Ok (newb, st2) /\
    rec newb st2 = Ok (r, st3) /\
    scanned H bd1 st1 (js ++ [j]) (n + 1) st3.
Proof.
  intros (bdc & N & Hheap & Hn & Hsq & Hprev & Hnw & Hnum & Hnext & Hd & Htb & Hw & Htw
          & Hnew & Hch & Hcomp) Hfinds Ht Hlen.
  rewrite length_app in Hlen. simpl in Hlen.
  assert (Hb : heap st !! b = Some bdc) by (rewrite Hheap; by rewrite list_lookup_middle).
  assert (Hsp : spawn_child b (j_row j) (j_col j) (j_roff j) (j_coff j) n st
                = Ok (length (heap st), spawned b n bdc t st)).
  { apply spawn_child_Ok; [done| |unfold MAX_BOARDS; lia|].
    - rewrite Hsq. by destruct j.
    - rewrite Hnext, bd1_next. unfold MAX_BOARDS. lia. }
  set (newb := length (heap st)) in *.
  set (bdl := link_child n newb bdc).
  assert (Hheap2 : heap (spawned b n bdc t st) = (H ++ bdl :: N) ++ [child_board b t]).
  { unfold spawned. cbn [heap]. fold newb. fold bdl. rewrite Hheap. f_equal.
    replace b with (length H + 0)%nat by (unfold b; lia).
    by rewrite insert_app_r. }
  assert (Hnewb : newb = length (H ++ bdl :: N)).
  { unfold newb. rewrite Hheap, !length_app. done. }
  assert (HnewbN : newb = (S b + length N)%nat).
  { unfold newb, b. rewrite Hheap, length_app. simpl. lia. }
  destruct (tri_inv_scan _ bd1_tri) as (all & Hall & _).
  assert (Hchild : child_of s t).
  { apply child_of_finds. exists j. eauto. }
  destruct (rec_spec (H ++ bdl :: N) (child_board b t) (spawned b n bdc t st))
    as (r & st3 & Hrec & bd' & Nc & jc & Hheap3 & Hjc & _ & Hsq' & Hprev' & Hnw' & Hnum'
        & Hnext' & Hd' & Htb' & Hw' & Htw' & Hnew' & Hch' & Hcomp'); [done| |..].
  { split; [|split]; cbn [child_board squares next prev].
    - eauto using apply_jump_tri_inv.
    - by rewrite length_replicate.
    - rewrite <- Hnewb, HnewbN. lia. }
  { cbn [child_board squares]. split; [by eapply apply_jump_count_pos|].
    rewrite (apply_jump_count _ _ _ Hfinds Ht). fold s in bd1_count. lia. }
  rewrite <- Hnewb in Hrec, Hw', Hnew', Hch', Hcomp'.
  cbn [child_board squares prev nextwin next spawned total_boards total_winning_boards
       depth winning_board] in *.
  exists newb, (spawned b n bdc t st), r, st3. split; [done|]. split; [done|].
  exists bdl, (N ++ bd' :: Nc).
  assert (HsqN : squares <$> (N ++ bd' :: Nc) = (squares <$> N) ++ t :: (squares <$> Nc)).
  { by rewrite fmap_app, fmap_cons, Hsq'. }
  split; [by rewrite Hheap3, <- app_assoc|].
  split; [rewrite length_app; simpl; lia|].
  split; [done|]. split; [done|]. split; [done|]. split; [done|].
  split; [unfold bdl, link_child; simpl; by rewrite length_insert|].
  split; [congruence|].
  split; [rewrite Htb', Htb, length_app; simpl; lia|].
  split.
  { rewrite Hw', Hw, HsqN, record_wins_app, length_fmap. by rewrite HnewbN. }
  split.
  { rewrite Htw', Htw, HsqN, count_wins_app. simpl. lia. }
  split; [|split].
  - (* the new records *)
    intros i bda Hi. rewrite HsqN.
    apply lookup_app_Some in Hi as [Hi|[Hge Hi]].
    + destruct (Hnew _ _ Hi) as (? & ? & ? & p & sp & ? & ? & Hsp' & ?).
      repeat (split; [done|]). exists p, sp. repeat (split; [done|]).
      split; [|done]. rewrite app_comm_cons. by apply lookup_app_l_Some.
    + destruct (i - length N)%nat as [|k] eqn:Hk; simpl in Hi.
      * injection Hi as <-. assert (i = length N) as -> by lia.
        split; [done|]. split; [by rewrite Hnext', length_replicate|].
        split; [rewrite Hnum', Htb, bd1_num; lia|].
        exists b, s. split; [done|]. split; [unfold b; lia|].
        split; [by rewrite Nat.sub_diag|]. by rewrite Hsq'.
      * destruct (Hnew' _ _ Hi) as (? & ? & Hbn & p & sp & ? & ? & Hsp' & ?).
        repeat (split; [done|]). split; [rewrite Hbn, Htb, bd1_num; lia|].
        exists p, sp. split; [done|]. split; [lia|]. split; [|done].
        rewrite app_comm_cons.
        replace (p - length H)%nat
          with (length (squares bd1 :: (squares <$> N)) + (p - newb))%nat
          by (simpl; rewrite length_fmap; unfold b in *; lia).
        by rewrite lookup_app_r, Nat.add_comm, Nat.add_sub by lia.
  - (* the child array *)
    intros i j' Hi. apply lookup_app_Some in Hi as [Hi|[Hge Hi]].
    + destruct (Hch _ _ Hi) as (a & bda & Ha & ? & HaN & ? & ?).
      exists a, bda. split.
      { unfold bdl, link_child. simpl. rewrite list_lookup_insert_ne; [done|].
        apply lookup_lt_Some in Hi. lia. }
      repeat (split; [done|]). split; [|done]. by apply lookup_app_l_Some.
    + destruct (i - length js)%nat as [|k] eqn:Hk; simpl in Hi; [|done].
      injection Hi as <-. assert (i = length js) as -> by lia.
      exists newb, bd'. split.
      { unfold bdl, link_child. simpl. replace (Z.to_nat n) with (length js) by lia.
        apply list_lookup_insert_eq. rewrite Hnext, bd1_next. unfold MAX_BOARDS. lia. }
      split; [lia|]. split.
      { rewrite lookup_app_r by lia.
        match goal with |- _ !! ?k = _ => by replace k with 0%nat by (unfold b in *; lia) end. }
      split; [done|]. by rewrite Hsq'.
  - (* nothing left out below *)
    intros i bda j' Hi Hfj. apply lookup_app_Some in Hi as [Hi|[Hge Hi]].
    + destruct (Hcomp _ _ _ Hi Hfj) as (k & bdk & Hk & ? & ?).
      exists k, bdk. split; [by apply lookup_app_l_Some|done].
    + destruct (i - length N)%nat as [|i'] eqn:Hi'; simpl in Hi.
      * injection Hi as <-. rewrite Hsq' in Hfj |- *.
        pose proof (finds_legal_jumps _ _ _ Hjc Hfj) as Hin.
        apply list_elem_of_In, list_elem_of_lookup in Hin as [m Hm].
        destruct (Hch' _ _ Hm) as (a & bda & _ & Hlt & HaNc & Hpa & Hja).
        exists (length N + S (a - S newb))%nat, bda. split.
        { rewrite lookup_app_r by lia.
          by replace (length N + S (a - S newb) - length N)%nat with (S (a - S newb)) by lia. }
        split; [|done]. rewrite Hpa. f_equal. unfold b in *. lia.
      * destruct (Hcomp' _ _ _ Hi Hfj) as (k & bdk & Hk & Hpk & Hjk).
        exists (length N + S k)%nat, bdk. split.
        { rewrite lookup_app_r by lia.
          by replace (length N + S k - length N)%nat with (S k) by lia. }
        split; [|done]. rewrite Hpk. f_equal. unfold b in *. lia.
Qed.

Lemma scanned_nil js n st : scanned H bd1 st1 js n st -> scanned H bd1 st1 (js ++ []) n st.
Proof. by rewrite app_nil_r. Qed.

Lemma try_offset_sim row col v :
  sq_get s row col = Ok v -> has_flag v POS_FULL = true ->
  forall offnum js li n st,
    0 <= offnum < 0 + Z.of_nat (Z.to_nat NUM_OFFSETS) ->
    scanned H bd1 st1 js n st ->
    offset_jumps s row col offnum = Ok li ->
    (length (js ++ li) <= 12)%nat ->
    exists n' st', try_offset rec b row col offnum n st = Ok (n', st')
                   /\ scanned H bd1 st1 (js ++ li) n' st'.
Proof.
  intros Hv Hfull offnum js li n st Hoff Hsc Hli Hlen.
  destruct (scanned_lookup _ _ _ Hsc) as (bdc & Hb & Hsq).
  unfold offset_jumps in Hli. unfold try_offset, table_get.
  destruct (table_at rowoffsets offnum) as [roff|] eqn:Hr; [|done].
  destruct (table_at coloffsets offnum) as [coff|] eqn:Hc; [|done].
  cbn [rbind] in Hli. unfold lift at 1 2. unfold bind at 1. unfold bind at 1.
  destruct (jump_ok s row col roff coff) as [ok|] eqn:Hok; [|done].
  cbn [rbind] in Hli. injection Hli as <-.
  unfold jump_ok in Hok.
  destruct (sq_get s (row + roff) (col + coff)) as [adj|] eqn:Hadj; [|done].
  cbn [rbind] in Hok. rewrite <- Hsq in Hadj.
  rewrite (bind_Ok _ _ _ _ _ (load_square_Ok _ _ _ _ _ _ Hb Hadj)).
  destruct (has_flag adj POS_FULL) eqn:Hafull.
  2:{ injection Hok as <-. exists n, st. split; [done|]. by apply scanned_nil. }
  destruct (sq_get s (row + 2 * roff) (col + 2 * coff)) as [land|] eqn:Hland; [|done].
  cbn [rbind] in Hok. injection Hok as <-. rewrite <- Hsq in Hland.
  rewrite (bind_Ok _ _ _ _ _ (load_square_Ok _ _ _ _ _ _ Hb Hland)).
  rewrite Hsq in Hadj, Hland.
  destruct (Z.eqb_spec land POS_EMPTY) as [->|Hne].
  2:{ exists n, st. split; [done|]. by apply scanned_nil. }
  set (j := mkJump row col roff coff).
  assert (Hfinds : finds s j).
  { exists offnum, v. cbn [j j_row j_col j_roff j_coff].
    split; [by eapply sq_get_in_grid|]. split; [unfold NUM_OFFSETS in *; lia|].
    repeat (split; [done|]). apply jump_ok_true. by exists adj. }
  destruct (apply_jump_total _ _ Hfinds) as [t Ht].
  destruct (scanned_spawn _ _ _ _ _ Hsc Hfinds Ht Hlen)
    as (newb & st2 & r & st3 & Hsp & Hrec & Hsc3).
  exists (n + 1), st3. split; [|done].
  cbn [j j_row j_col j_roff j_coff] in Hsp.
  rewrite (bind_Ok _ _ _ _ _ Hsp). by rewrite (bind_Ok _ _ _ _ _ Hrec).
Qed.

Lemma try_cell_sim row col js li n st :
  scanned H bd1 st1 js n st ->
  cell_jumps s row col = Ok li ->
  (length (js ++ li) <= 12)%nat ->
  exists n' st', try_cell rec b row col n st = Ok (n', st')
                 /\ scanned H bd1 st1 (js ++ li) n' st'.
Proof.
  intros Hsc Hli Hlen.
  destruct (scanned_lookup _ _ _ Hsc) as (bdc & Hb & Hsq).
  unfold cell_jumps in Hli. unfold try_cell.
  destruct (sq_get s row col) as [v|] eqn:Hv; [|done]. cbn [rbind] in Hli.
  pose proof Hv as Hv'. rewrite <- Hsq in Hv'.
  rewrite (bind_Ok _ _ _ _ _ (load_square_Ok _ _ _ _ _ _ Hb Hv')).
  destruct (has_flag v POS_FULL) eqn:Hfull; cbn [negb] in *.
  2:{ injection Hli as <-. exists n, st. split; [done|]. by apply scanned_nil. }
  eapply (for_loop_collect (scanned H bd1 st1) 12)
    with (js0 := js) (f := offset_jumps s row col); [|done..].
  intros i js0 l0 acc st0 Hi Hsc0 Hl0 Hlen0.
  by eapply try_offset_sim.
Qed.

Lemma scan_board_sim js st :
  scanned H bd1 st1 [] 0 st ->
  legal_jumps s = Ok js -> (length js <= 12)%nat ->
  exists n' st', scan_board rec b st = Ok (n', st') /\ scanned H bd1 st1 js n' st'.
Proof.
  intros Hsc Hjs Hlen. unfold scan_board, legal_jumps in *.
  eapply (for_loop_collect (scanned H bd1 st1) 12) with (js0 := [])
    (f := fun row => collect (Z.to_nat NUM_COLS) 0 (fun col => cell_jumps s row col));
    [|done..].
  intros row js0 lr acc st0 _ Hsc0 Hlr Hlen0.
  eapply (for_loop_collect (scanned H bd1 st1) 12)
    with (js0 := js0) (f := fun col => cell_jumps s row col); [|done..].
  intros col js1 lc acc1 st1' _ Hsc1 Hlc Hlen1.
  by eapply try_cell_sim.
Qed.
End ScanLoop.

(** ** The whole call *)

Lemma generate_boards_S fuel b :
  generate_boards (S fuel) b
  = (visit_board b ;;
     new_board_num <- scan_board (generate_boards fuel) b ;;
     add_depth (-1) ;;
     ret (negb (new_board_num =? 0)))%prog.
Proof. done. Qed.

Theorem generate_boards_explores fuel :
  forall H bd st,
    heap st = H ++ [bd] -> callable H bd ->
    (1 <= fuel)%nat -> count_pegs (squares bd) <= Z.of_nat fuel ->
    exists r st', generate_boards fuel (length H) st = Ok (r, st')
                  /\ explored H bd st r st'.
Proof.
  induction fuel as [|fuel IH]; intros H bd st Hheap (Htri & Hnext & Hprev) Hfuel Hcount; [lia|].
  set (b := length H).
  assert (Hb : heap st !! b = Some bd) by (rewrite Hheap; unfold b; apply lookup_last).
  assert (Hvisit : visit_board b st = Ok (tt, visited b bd st)).
  { apply visit_board_Ok; [done|]. destruct (prev bd); [|done].
    rewrite Hheap, length_app. simpl. lia. }
  set (bd1 := with_boardnum (total_boards st) bd).
  set (st1 := visited b bd st) in *.
  assert (Hheap1 : heap st1 = H ++ [bd1]).
  { unfold st1, visited. cbn [heap]. rewrite Hheap. apply insert_last. }
  assert (Hsc : scanned H bd1 st1 [] 0 st1).
  { exists bd1, []. rewrite Hheap1.
    do 8 (split; [done|]). split; [simpl; lia|]. split; [done|]. split; [simpl; lia|].
    split; [intros i ? Hi; done|]. split; [intros i ? Hi; done|intros i ? ? Hi ?; done]. }
  destruct (tri_inv_scan _ Htri) as (js & Hjs & Hlen).
  destruct (scan_board_sim (generate_boards fuel) (Z.of_nat fuel)) with
    (H := H) (bd1 := bd1) (st1 := st1) (js := js) (st := st1)
    as (n & st2 & Hscan & Hsc2); try done.
  { intros H' bd' st' ? ? ?. apply IH; [done..|lia|lia]. }
  { unfold bd1. simpl. lia. }
  destruct Hsc2 as (bdc & N & Hheap2 & Hn & Hsq & Hprev2 & Hnw & Hnum & Hnext2 & Hd & Htb & Hw
                    & Htw & Hnew & Hch & Hcomp).
  exists (negb (n =? 0)), (mkState (heap st2) (total_boards st2) (total_winning_boards st2)
                             (depth st2 + -1) (winning_board st2)).
  split.
  { rewrite generate_boards_S. rewrite (bind_Ok _ _ _ _ _ Hvisit).
    fold b. by rewrite (bind_Ok _ _ _ _ _ Hscan). }
  exists bdc, N, js. cbn [heap total_boards total_winning_boards depth winning_board].
  unfold st1, visited, bd1 in *.
  cbn [heap total_boards total_winning_boards depth winning_board with_boardnum
       squares next prev nextwin boardnum] in *.
  split; [done|]. split; [done|]. split; [by rewrite Hn|].
  repeat (split; [done|]). split; [lia|]. split; [done|]. split; [done|].
  split; [|done]. rewrite Htw. unfold one_peg. simpl. unfold one_peg.
  destruct (count_pegs (squares bd) =? 1); lia.
Qed.

(** ** Properties of the boards reachable from a layout *)

Section Boards.
Implicit Types (s t root : grid) (j : jump_id).

Lemma layouts_tri_inv root : In root initial_layouts -> tri_inv root.
Proof. apply initial_squares_tri_inv. Qed.

Lemma layouts_reachable_tri_inv root s :
  In root initial_layouts -> reachable root s -> tri_inv s.
Proof. eauto using reachable_tri_inv, layouts_tri_inv. Qed.

Lemma tri_inv_cell s r c v :
  tri_inv s -> sq_get s r c = Ok v ->
  exists v0, sq_get initial_squares_1 r c = Ok v0 /\ cell_inv v0 v.
Proof.
  intros Hs Hv.
  destruct (grid_wf_get _ r c initial_squares_1_wf (sq_get_in_grid _ _ _ _ Hv)) as [v0 Hv0].
  exists v0. split; [done|]. by eapply tri_inv_get.
Qed.

Lemma cell_inv_invalid v0 v : cell_inv v0 v -> Invalid v -> v = POS_INVALID.
Proof.
  unfold cell_inv, Invalid. destruct (decide _); [done|].
  by intros [->|[->| ->]].
Qed.

Lemma cell_inv_occupied_valid v0 v : cell_inv v0 v -> Occupied v -> ~ Invalid v.
Proof.
  unfold cell_inv, Occupied, Invalid. destruct (decide _); [by intros ->|].
  by intros [->|[->| ->]].
Qed.

Lemma jump_ok_inv s row col roff coff ok :
  jump_ok s row col roff coff = Ok ok ->
  exists adj, sq_get s (row + roff) (col + coff) = Ok adj /\
    (has_flag adj POS_FULL = true ->
     exists land, sq_get s (row + 2 * roff) (col + 2 * coff) = Ok land).
Proof.
  unfold jump_ok. destruct (sq_get s (row + roff) (col + coff)) as [adj|]; [|done].
  cbn [rbind]. intros Hok. exists adj. split; [done|]. intros Hadj. rewrite Hadj in Hok.
  destruct (sq_get s (row + 2 * roff) (col + 2 * coff)) as [land|]; [|done]. by exists land.
Qed.

(** What a successful scan says about one occupied cell and one table
    entry: the test of line 221 was evaluated. *)
Lemma legal_jumps_tested s js row col offnum roff coff v :
  legal_jumps s = Ok js -> sq_get s row col = Ok v -> has_flag v POS_FULL = true ->
  table_at rowoffsets offnum = Ok roff -> table_at coloffsets offnum = Ok coff ->
  exists ok, jump_ok s row col roff coff = Ok ok.
Proof.
  unfold legal_jumps. intros Hs Hv Hfull Hr Hc.
  pose proof (sq_get_in_grid _ _ _ _ Hv) as Hin. apply in_grid_spec in Hin.
  destruct (collect_Ok_inv _ _ _ _ row Hs) as (lr & Hlr & _); [unfold NUM_ROWS in *; lia|].
  destruct (collect_Ok_inv _ _ _ _ col Hlr) as (lc & Hlc & _); [unfold NUM_COLS in *; lia|].
  unfold cell_jumps in Hlc. rewrite Hv in Hlc. cbn [rbind] in Hlc.
  rewrite Hfull in Hlc. cbn [negb] in Hlc.
  assert (Hoff : 0 <= offnum < NUM_OFFSETS).
  { unfold table_at in Hr. destruct ((0 <=? offnum) && (offnum <? NUM_OFFSETS)) eqn:E; [|done].
    apply andb_true_iff in E as [?%Z.leb_le ?%Z.ltb_lt]. lia. }
  destruct (collect_Ok_inv _ _ _ _ offnum Hlc) as (lo & Hlo & _);
    [unfold NUM_OFFSETS in *; lia|].
  unfold offset_jumps in Hlo. rewrite Hr, Hc in Hlo. cbn [rbind] in Hlo.
  destruct (jump_ok s row col roff coff) as [ok|]; [by exists ok|done].
Qed.
End Boards.

(** ** Properties of single boards *)

(** On a board of the triangle the test of line 221 succeeds for a full
    source cell and an entry of the offset tables exactly when the adjacent
    cell is occupied and the landing cell is empty, both of them being
    non-invalid cells of the grid. *)
Lemma finds_iff_legal s row col offnum roff coff v :
  tri_inv s ->
  sq_get s row col = Ok v -> Occupied v ->
  table_at rowoffsets offnum = Ok roff -> table_at coloffsets offnum = Ok coff ->
  (finds s (mkJump row col roff coff) <->
   exists adj land,
     sq_get s (row + roff) (col + coff) = Ok adj /\
     sq_get s (row + 2 * roff) (col + 2 * coff) = Ok land /\
     Occupied adj /\ Empty land /\ ~ Invalid adj /\ ~ Invalid land).
Proof.
  intros Htri Hv Hocc Hr Hc. split.
  - intros (w0 & w & _ & _ & Hmid & Hw & Hdst & _)%finds_cells. simpl in *.
    exists w, POS_EMPTY. repeat (split; [done|]). split; [|done].
    destruct (tri_inv_cell _ _ _ _ Htri Hmid) as (v0 & _ & Hinv).
    by eapply cell_inv_occupied_valid.
  - intros (adj & land & Hadj & Hland & Haocc & -> & _).
    exists offnum, v. simpl.
    split; [by eapply sq_get_in_grid|]. split.
    { unfold table_at in Hr. destruct ((0 <=? offnum) && (offnum <? NUM_OFFSETS)) eqn:E; [|done].
      apply andb_true_iff in E as [?%Z.leb_le ?%Z.ltb_lt]. lia. }
    repeat (split; [done|]). apply jump_ok_true. by exists adj.
Qed.

(** C3.  A cell that is invalid in the root layout holds the same invalid
    value in every board reachable from it: no jump writes to it. *)
Theorem invalid_cells_kept root s r c v0 :
  In root initial_layouts -> reachable root s ->
  sq_get root r c = Ok v0 -> Invalid v0 ->
  sq_get s r c = Ok v0.
Proof.
  intros Hroot Hreach Hv0 Hinv.
  pose proof (layouts_tri_inv _ Hroot) as Hr.
  pose proof (layouts_reachable_tri_inv _ _ Hroot Hreach) as Hs.
  destruct (tri_inv_cell _ _ _ _ Hr Hv0) as (u & Hu & Hcell).
  pose proof (cell_inv_invalid _ _ Hcell Hinv) as ->.
  destruct (grid_wf_get s r c (tri_inv_wf _ Hs) (sq_get_in_grid _ _ _ _ Hv0)) as [v Hv].
  rewrite Hv. f_equal.
  pose proof (tri_inv_get _ _ _ _ _ Hs Hu Hv) as Hcell'.
  unfold cell_inv in Hcell, Hcell'. destruct (decide (u = POS_INVALID)); [done|].
  by destruct Hcell as [?|[?|?]].
Qed.

Lemma first_child_1_reachable :
  reachable initial_squares_1
    (<[4%nat := [2; 2; 2; 2; 1; 2; 17; 2; 1; 2; 2; 2; 2]]>
       (<[5%nat := [2; 2; 2; 1; 2; 0; 2; 1; 2; 1; 2; 2; 2]]>
          (<[6%nat := [2; 2; 1; 2; 0; 2; 1; 2; 1; 2; 1; 2; 2]]> initial_squares_1))).
Proof.
  eapply reach_step; [apply reach_root|].
  exists [mkJump 6 4 (-1) 1; mkJump 6 8 (-1) (-1)], (mkJump 6 4 (-1) 1).
  split; [vm_compute; reflexivity|]. split; [simpl; auto|]. vm_compute. reflexivity.
Defined.

Lemma invalid_cells_kept_witness :
  sq_get (<[4%nat := [2; 2; 2; 2; 1; 2; 17; 2; 1; 2; 2; 2; 2]]>
            (<[5%nat := [2; 2; 2; 1; 2; 0; 2; 1; 2; 1; 2; 2; 2]]>
               (<[6%nat := [2; 2; 1; 2; 0; 2; 1; 2; 1; 2; 1; 2; 2]]> initial_squares_1)))
         6 3 = Ok POS_INVALID.
Proof.
  apply (invalid_cells_kept initial_squares_1 _ 6 3 POS_INVALID).
  - simpl. auto.
  - exact first_child_1_reachable.
  - reflexivity.
  - reflexivity.
Defined.

(** C7.  On every board reachable from an initial layout the scan never
    leaves the 9 by 13 array: it runs to its end, for every full cell and
    table entry the adjacent cell read is inside the grid, the landing cell
    is read only when the adjacent cell is occupied and is then inside the
    grid too (four columns away for the horizontal entries), and the three
    writes of every generated jump are inside the grid. *)
Theorem scan_stays_in_grid root s :
  In root initial_layouts -> reachable root s ->
  exists js,
    legal_jumps s = Ok js /\
    (forall row col offnum roff coff v,
        sq_get s row col = Ok v -> Occupied v ->
        table_at rowoffsets offnum = Ok roff -> table_at coloffsets offnum = Ok coff ->
        exists adj,
          sq_get s (row + roff) (col + coff) = Ok adj /\
          in_grid (row + roff) (col + coff) = true /\
          (Occupied adj -> in_grid (row + 2 * roff) (col + 2 * coff) = true) /\
          (~ Occupied adj -> jump_ok s row col roff coff = Ok false)) /\
    (forall j, In j js -> exists t, apply_jump s j = Ok t).
Proof.
  intros Hroot Hreach.
  pose proof (layouts_reachable_tri_inv _ _ Hroot Hreach) as Htri.
  destruct (tri_inv_scan _ Htri) as (js & Hjs & _). exists js. split; [done|]. split.
  - intros row col offnum roff coff v Hv Hocc Hr Hc.
    destruct (legal_jumps_tested _ _ _ _ _ _ _ _ Hjs Hv Hocc Hr Hc) as (ok & Hok).
    destruct (jump_ok_inv _ _ _ _ _ _ Hok) as (adj & Hadj & Hland).
    exists adj. split; [done|]. split; [by eapply sq_get_in_grid|]. split.
    + intros Ha. destruct (Hland Ha) as [land Hl]. by eapply sq_get_in_grid.
    + intros Ha. unfold jump_ok. rewrite Hadj. cbn [rbind].
      unfold Occupied in Ha. by destruct (has_flag adj POS_FULL).
  - intros j Hj. apply apply_jump_total. by eapply legal_jumps_finds.
Qed.

Lemma scan_stays_in_grid_witness :
  exists js,
    legal_jumps initial_squares_1 = Ok js /\
    (forall row col offnum roff coff v,
        sq_get initial_squares_1 row col = Ok v -> Occupied v ->
        table_at rowoffsets offnum = Ok roff -> table_at coloffsets offnum = Ok coff ->
        exists adj,
          sq_get initial_squares_1 (row + roff) (col + coff) = Ok adj /\
          in_grid (row + roff) (col + coff) = true /\
          (Occupied adj -> in_grid (row + 2 * roff) (col + 2 * coff) = true) /\
          (~ Occupied adj -> jump_ok initial_squares_1 row col roff coff = Ok false)) /\
    (forall j, In j js -> exists t, apply_jump initial_squares_1 j = Ok t).
Proof.
  apply (scan_stays_in_grid initial_squares_1 initial_squares_1).
  - simpl. auto.
  - apply reach_root.
Defined.

(** The guard matters: from the bottom-left peg the landing cell of the
    left-by-two entry would be column -2, and it is not read. *)
Example landing_guarded :
  sq_get initial_squares_1 6 (2 + 2 * -2) = Err OutOfBounds /\
  jump_ok initial_squares_1 6 2 0 (-2) = Ok false.
Proof. split; reflexivity. Qed.

(** C10.  After a legal jump, the jump back from the landing cell over the
    jumped cell is not legal in the resulting board: the jumped cell is
    empty there, so the test of line 221 fails and no scan generates it. *)
Theorem reverse_jump_not_legal s j t :
  finds s j -> apply_jump s j = Ok t ->
  sq_get t (j_row j + j_roff j) (j_col j + j_coff j) = Ok POS_EMPTY /\
  jump_ok t (j_row (reverse_jump j)) (j_col (reverse_jump j))
            (j_roff (reverse_jump j)) (j_coff (reverse_jump j)) = Ok false /\
  ~ finds t (reverse_jump j) /\
  forall js, legal_jumps t = Ok js -> ~ In (reverse_jump j) js.
Proof.
  intros Hf Ht. pose proof Hf as Hcells.
  apply finds_cells in Hcells as (_ & _ & _ & _ & _ & _ & _ & Hoff).
  destruct (offsets_distinct j Hoff) as (Hms & Hds & Hdm).
  assert (Hmid : sq_get t (j_row j + j_roff j) (j_col j + j_coff j) = Ok POS_EMPTY).
  { rewrite (apply_jump_get _ _ _ _ _ Ht).
    rewrite decide_False by (intros E; by apply Hdm).
    by rewrite decide_True. }
  assert (Hno : jump_ok t (j_row (reverse_jump j)) (j_col (reverse_jump j))
                  (j_roff (reverse_jump j)) (j_coff (reverse_jump j)) = Ok false).
  { unfold jump_ok, reverse_jump. cbn [j_row j_col j_roff j_coff].
    replace (j_row j + 2 * j_roff j + - j_roff j) with (j_row j + j_roff j) by lia.
    replace (j_col j + 2 * j_coff j + - j_coff j) with (j_col j + j_coff j) by lia.
    by rewrite Hmid. }
  assert (Hnf : ~ finds t (reverse_jump j)).
  { intros (? & ? & _ & _ & _ & _ & _ & _ & Hok). congruence. }
  repeat (split; [done|]). intros js Hjs Hin. apply Hnf. by eapply legal_jumps_finds.
Qed.

Lemma reverse_jump_not_legal_witness :
  ~ finds (<[4%nat := [2; 2; 2; 2; 1; 2; 17; 2; 1; 2; 2; 2; 2]]>
             (<[5%nat := [2; 2; 2; 1; 2; 0; 2; 1; 2; 1; 2; 2; 2]]>
                (<[6%nat := [2; 2; 1; 2; 0; 2; 1; 2; 1; 2; 1; 2; 2]]> initial_squares_1)))
          (reverse_jump (mkJump 6 4 (-1) 1)).
Proof.
  apply (reverse_jump_not_legal initial_squares_1 (mkJump 6 4 (-1) 1)).
  - exists 1, 1. vm_compute. repeat split; congruence.
  - vm_compute. reflexivity.
Defined.

(** ** Fuel only bounds the nesting *)

Section FuelMono.
Variables rec1 rec2 : addr -> M bool.
Hypothesis rec_mono : forall a st x, rec1 a st = Ok x -> rec2 a st = Ok x.

Lemma for_loop_mono {A} n lo (body1 body2 : Z -> A -> M A) :
  (forall i acc st x, body1 i acc st = Ok x -> body2 i acc st = Ok x) ->
  forall acc st x, for_loop n lo body1 acc st = Ok x -> for_loop n lo body2 acc st = Ok x.
Proof.
  intros Hbody. revert lo. induction n as [|n IH]; intros lo acc st x; [done|].
  rewrite !for_loop_S. destruct x as [y st2].
  intros (acc1 & st1 & H1 & H2)%bind_inv.
  rewrite (bind_Ok _ _ _ _ _ (Hbody _ _ _ _ H1)). by apply IH.
Qed.

Lemma try_offset_mono b row col offnum n st x :
  try_offset rec1 b row col offnum n st = Ok x ->
  try_offset rec2 b row col offnum n st = Ok x.
Proof.
  unfold try_offset. destruct x as [y st2].
  intros (roff & st1 & H1 & H2)%bind_inv. rewrite (bind_Ok _ _ _ _ _ H1).
  apply bind_inv in H2 as (coff & st3 & H3 & H4). rewrite (bind_Ok _ _ _ _ _ H3).
  apply bind_inv in H4 as (adj & st4 & H5 & H6). rewrite (bind_Ok _ _ _ _ _ H5).
  destruct (has_flag adj POS_FULL); [|done].
  apply bind_inv in H6 as (land & st5 & H7 & H8). rewrite (bind_Ok _ _ _ _ _ H7).
  destruct (land =? POS_EMPTY); [|done].
  apply bind_inv in H8 as (newb & st6 & H9 & H10). rewrite (bind_Ok _ _ _ _ _ H9).
  apply bind_inv in H10 as (r & st7 & H11 & H12).
  by rewrite (bind_Ok _ _ _ _ _ (rec_mono _ _ _ H11)).
Qed.

Lemma scan_board_mono b st x :
  scan_board rec1 b st = Ok x -> scan_board rec2 b st = Ok x.
Proof.
  unfold scan_board. apply for_loop_mono. intros row acc st0 y.
  apply for_loop_mono. intros col acc1 st1 z. unfold try_cell. destruct z as [z st2].
  intros (v & st3 & H1 & H2)%bind_inv. rewrite (bind_Ok _ _ _ _ _ H1).
  destruct (negb (has_flag v POS_FULL)); [done|].
  revert H2. apply for_loop_mono. intros. by apply try_offset_mono.
Qed.
End FuelMono.

Lemma generate_boards_fuel_mono fuel k b st x :
  generate_boards fuel b st = Ok x -> generate_boards (fuel + k) b st = Ok x.
Proof.
  revert b st x. induction fuel as [|fuel IH]; intros b st [r st']; [done|].
  change (S fuel + k)%nat with (S (fuel + k)). rewrite !generate_boards_S.
  intros (u & st1 & H1 & H2)%bind_inv. rewrite (bind_Ok _ _ _ _ _ H1).
  apply bind_inv in H2 as (n & st2 & H3 & H4).
  by rewrite (bind_Ok _ _ _ _ _ (scan_board_mono _ _ IH _ _ _ H3)).
Qed.

(** ** Reading the result of a call *)

Section AfterCall.
Variables (fuel : nat) (H : list board) (bd : board) (st : state) (r : bool) (st' : state).
Hypothesis Hheap : heap st = H ++ [bd].
Hypothesis Hcall : callable H bd.
Hypothesis Hfuel : (1 <= fuel)%nat.
Hypothesis Hcount : count_pegs (squares bd) <= Z.of_nat fuel.
Hypothesis Hrun : generate_boards fuel (length H) st = Ok (r, st').

Lemma run_explored : explored H bd st r st'.
Proof.
  destruct (generate_boards_explores fuel H bd st Hheap Hcall Hfuel Hcount)
    as (r0 & st0 & Hrun0 & Hex).
  rewrite Hrun in Hrun0. by injection Hrun0 as <- <-.
Qed.

(** Every record allocated by the call has a parent allocated before it,
    at the board of the call or later, and is a child of it. *)
Lemma run_new_board a bda :
  heap st' !! a = Some bda -> (length H < a)%nat ->
  exists p bdp,
    prev bda = Some p /\ (length H <= p < a)%nat /\ heap st' !! p = Some bdp /\
    child_of (squares bdp) (squares bda) /\
    nextwin bda = None /\
    boardnum bda = total_boards st + Z.of_nat (a - length H).
Proof.
  intros Ha Hlt.
  destruct run_explored as (bd' & N & js & Hheap' & _ & _ & Hsq & _ & _ & _ & _ & _ & _ & _
                            & _ & Hnew & _).
  rewrite Hheap' in Ha. rewrite lookup_app_r in Ha by lia.
  destruct (a - length H)%nat as [|i] eqn:Hi; [lia|]. simpl in Ha.
  destruct (Hnew _ _ Ha) as (Hnw & _ & Hnum & p & sp & Hp & Hrange & Hsp & Hchild).
  assert (exists bdp, heap st' !! p = Some bdp /\ squares bdp = sp) as (bdp & Hbdp & <-).
  { rewrite Hheap', lookup_app_r by lia.
    destruct (p - length H)%nat as [|k] eqn:Hk; simpl in *.
    - exists bd'. split; [done|]. congruence.
    - rewrite list_lookup_fmap in Hsp. destruct (N !! k) as [bdk|]; [|done].
      exists bdk. split; [done|]. simpl in Hsp. congruence. }
  exists p, bdp. split; [done|]. split; [lia|]. do 3 (split; [done|]). rewrite Hnum. lia.
Qed.

Lemma run_root_board :
  exists bd', heap st' !! length H = Some bd' /\ squares bd' = squares bd /\
              prev bd' = prev bd /\ nextwin bd' = nextwin bd.
Proof.
  destruct run_explored as (bd' & N & js & Hheap' & _ & _ & Hsq & Hp & Hn & _).
  exists bd'. rewrite Hheap'. by rewrite list_lookup_middle.
Qed.

Lemma run_old_board a : (a < length H)%nat -> heap st' !! a = heap st !! a.
Proof.
  intros Ha. destruct run_explored as (bd' & N & js & Hheap' & _).
  by rewrite Hheap', Hheap, !lookup_app_l.
Qed.

(** Every record of the call's subtree holds a board reachable from the
    board of the call. *)
Lemma run_reachable a bda :
  heap st' !! a = Some bda -> (length H <= a)%nat -> reachable (squares bd) (squares bda).
Proof.
  revert bda. induction (lt_wf a) as [a _ IH]. intros bda Ha Hle.
  destruct (decide (a = length H)) as [->|Hne].
  - destruct run_root_board as (bd' & Hbd' & Hsq & _). simplify_eq.
    rewrite Hsq. apply reach_root.
  - destruct (run_new_board a bda Ha) as (p & bdp & _ & Hrange & Hp & Hchild & _); [lia|].
    eapply reach_step; [|done]. apply (IH p); [lia|done|lia].
Qed.
(** Every jump that the scan of a record of the subtree finds has produced
    a child record. *)
Lemma run_children a bda j :
  heap st' !! a = Some bda -> (length H <= a)%nat -> finds (squares bda) j ->
  exists c bdc, heap st' !! c = Some bdc /\ (a < c)%nat /\ prev bdc = Some a /\
                apply_jump (squares bda) j = Ok (squares bdc).
Proof.
  intros Ha Hle Hf.
  destruct run_explored as (bd' & N & js & Hheap' & Hjs & _ & Hsq & _ & _ & _ & _ & _ & _ & _
                            & _ & Hnew & Hch & Hcomp).
  rewrite Hheap' in Ha. rewrite lookup_app_r in Ha by lia.
  destruct (a - length H)%nat as [|i] eqn:Hi; simpl in Ha.
  - injection Ha as <-. assert (a = length H) as -> by lia. rewrite Hsq in Hf |- *.
    pose proof (finds_legal_jumps _ _ _ Hjs Hf) as Hin.
    apply list_elem_of_In, list_elem_of_lookup in Hin as [m Hm].
    destruct (Hch _ _ Hm) as (c & bdc & _ & Hlt & HcN & Hp & Hj).
    exists c, bdc. split; [|done]. rewrite Hheap', lookup_app_r by lia.
    by replace (c - length H)%nat with (S (c - S (length H))) by lia.
  - destruct (Hcomp _ _ _ Ha Hf) as (k & bdk & Hk & Hp & Hj).
    exists (S (length H) + k)%nat, bdk. split.
    { rewrite Hheap', lookup_app_r by lia.
      by replace (S (length H) + k - length H)%nat with (S k) by lia. }
    destruct (Hnew _ _ Hk) as (_ & _ & _ & p & _ & Hp' & Hrange & _).
    split; [simplify_eq; lia|]. split; [|done].
    rewrite Hp. f_equal. lia.
Qed.

(** The search is exhaustive: every board reachable from the board of the
    call is held by a record of the subtree. *)
Lemma run_complete s :
  reachable (squares bd) s ->
  exists a bda, heap st' !! a = Some bda /\ (length H <= a)%nat /\ squares bda = s.
Proof.
  induction 1 as [|s t _ (a & bda & Ha & Hle & <-) (j & _ & Hf & Ht)%child_of_finds].
  - destruct run_root_board as (bd' & Hbd' & Hsq & _). exists (length H), bd'. by split.
  - destruct (run_children a bda j Ha Hle Hf) as (c & bdc & Hc & Hlt & _ & Hj).
    exists c, bdc. split; [done|]. split; [lia|]. congruence.
Qed.
End AfterCall.

Lemma child_of_count (s t : grid) : child_of s t -> count_pegs t = count_pegs s - 1.
Proof. intros (j & _ & Hf & Ht)%child_of_finds. by eapply apply_jump_count. Qed.

(** ** The call made by [main] *)

Lemma initial_state_callable root :
  In root initial_layouts -> callable [] (initial_board root).
Proof.
  intros Hroot. split; [by apply layouts_tri_inv|]. split; [reflexivity|exact I].
Qed.

Lemma layouts_count root : In root initial_layouts -> count_pegs root = 14.
Proof. intros [<-|[<-|[<-|[<-|[]]]]]; reflexivity. Qed.

(** The search of [main] runs to its end within 14 nested activations. *)
Theorem search_runs root :
  In root initial_layouts ->
  exists r st', generate_boards 14 0 (initial_state (initial_board root)) = Ok (r, st')
                /\ explored [] (initial_board root) (initial_state (initial_board root)) r st'.
Proof.
  intros Hroot.
  apply (generate_boards_explores 14 [] (initial_board root)); [done| |lia|].
  - by apply initial_state_callable.
  - simpl. rewrite (layouts_count _ Hroot). lia.
Qed.

Lemma two_peg_callable : callable [] (initial_board two_peg_squares).
Proof.
  split; [|split; [reflexivity|exact I]].
  repeat (apply Forall2_cons; [repeat (apply Forall2_cons; [vm_compute; auto|]);
                               apply Forall2_nil|]);
    apply Forall2_nil.
Defined.

Lemma fork_callable : callable [] (initial_board fork_squares).
Proof.
  split; [|split; [reflexivity|exact I]].
  repeat (apply Forall2_cons; [repeat (apply Forall2_cons; [vm_compute; auto|]);
                               apply Forall2_nil|]);
    apply Forall2_nil.
Defined.

(** ** Properties of the search tree *)

(** C2.  Every record that a call of [generate_boards] allocates holds
    exactly one peg fewer than the record its [prev] points to. *)
Theorem child_has_one_peg_fewer fuel H bd st r st' a bda p bdp :
  heap st = H ++ [bd] -> callable H bd ->
  (1 <= fuel)%nat -> count_pegs (squares bd) <= Z.of_nat fuel ->
  generate_boards fuel (length H) st = Ok (r, st') ->
  heap st' !! a = Some bda -> (length H < a)%nat ->
  prev bda = Some p -> heap st' !! p = Some bdp ->
  count_pegs (squares bda) = count_pegs (squares bdp) - 1.
Proof.
  intros Hheap Hcall Hfuel Hcount Hrun Ha Hlt Hp Hbdp.
  destruct (run_new_board fuel H bd st r st' Hheap Hcall Hfuel Hcount Hrun a bda Ha Hlt)
    as (p' & bdp' & Hp' & _ & Hbdp' & Hchild & _).
  simplify_eq. by apply child_of_count.
Qed.

Lemma child_has_one_peg_fewer_witness :
  count_pegs (squares (board_at two_peg_final 1))
  = count_pegs (squares (board_at two_peg_final 0)) - 1.
Proof.
  apply (child_has_one_peg_fewer 2 [] (initial_board two_peg_squares) two_peg_state
           true two_peg_final 1 _ 0 _).
  - reflexivity.
  - exact two_peg_callable.
  - lia.
  - vm_compute. congruence.
  - vm_compute. reflexivity.
  - vm_compute. reflexivity.
  - simpl. lia.
  - vm_compute. reflexivity.
  - vm_compute. reflexivity.
Defined.

(** C8.  Every board reachable from an initial layout has at most
    [MAX_BOARDS] legal jumps (in fact at most 12), so every index at which
    the scan writes the child array is inside the array: a call on a record
    holding the board returns, and has stored the child of the [i]-th legal
    jump at index [i] of the 14 entries of [next]. *)
Theorem legal_jumps_fit_child_array root s :
  In root initial_layouts -> reachable root s ->
  exists js,
    legal_jumps s = Ok js /\
    Z.of_nat (length js) <= MAX_BOARDS /\
    (forall i j, js !! i = Some j -> 0 <= Z.of_nat i < MAX_BOARDS) /\
    forall fuel H bd st,
      heap st = H ++ [bd] -> squares bd = s ->
      length (next bd) = Z.to_nat MAX_BOARDS ->
      match prev bd with Some p => (p < length H)%nat | None => True end ->
      (1 <= fuel)%nat -> count_pegs s <= Z.of_nat fuel ->
      exists r st' bd',
        generate_boards fuel (length H) st = Ok (r, st') /\
        heap st' !! length H = Some bd' /\
        length (next bd') = Z.to_nat MAX_BOARDS /\
        forall i j, js !! i = Some j ->
          exists a bda, next bd' !! i = Some (Some a) /\ heap st' !! a = Some bda /\
                        prev bda = Some (length H) /\ apply_jump s j = Ok (squares bda).
Proof.
  intros Hroot Hreach.
  pose proof (layouts_reachable_tri_inv _ _ Hroot Hreach) as Htri.
  destruct (tri_inv_scan _ Htri) as (js & Hjs & Hlen). exists js. split; [done|].
  unfold MAX_BOARDS at 1 2. split; [lia|]. split; [intros i j Hi%lookup_lt_Some; lia|].
  intros fuel H bd st Hheap <- Hnext Hprev Hfuel Hcount.
  assert (Hcall : callable H bd) by done.
  destruct (generate_boards_explores fuel H bd st Hheap Hcall Hfuel Hcount)
    as (r & st' & Hrun & bd' & N & js' & Hheap' & Hjs' & _ & _ & _ & _ & _ & Hnext' & _ & _
        & _ & _ & _ & Hch & _).
  assert (js' = js) as -> by congruence.
  exists r, st', bd'. split; [done|]. split; [by rewrite Hheap', list_lookup_middle|].
  split; [congruence|]. intros i j Hi.
  destruct (Hch _ _ Hi) as (a & bda & Ha & Hlt & HaN & Hp & Hj).
  exists a, bda. split; [done|]. split; [|done].
  rewrite Hheap', lookup_app_r by lia.
  replace (a - length H)%nat with (S (a - S (length H))) by lia. done.
Qed.

Lemma legal_jumps_fit_child_array_witness :
  exists js, legal_jumps initial_squares_1 = Ok js /\ Z.of_nat (length js) <= MAX_BOARDS.
Proof.
  destruct (legal_jumps_fit_child_array initial_squares_1 initial_squares_1)
    as (js & Hjs & Hlen & _).
  - simpl. auto.
  - apply reach_root.
  - exists js. split; [exact Hjs|exact Hlen].
Defined.

Lemma clear_last_unmarked v : has_flag (Z.land v (Z.lnot POS_LAST)) POS_LAST = false.
Proof.
  unfold has_flag. rewrite <- Z.land_assoc.
  replace (Z.land (Z.lnot POS_LAST) POS_LAST) with 0 by reflexivity.
  by rewrite Z.land_0_r.
Qed.

Lemma layouts_unmarked root r c v :
  In root initial_layouts -> sq_get root r c = Ok v -> ~ Marked v.
Proof.
  intros Hroot (_ & line & Hl & Hc)%sq_get_Ok.
  assert (Hall : forallb (forallb (fun x => negb (has_flag x POS_LAST))) root = true)
    by (destruct Hroot as [<-|[<-|[<-|[<-|[]]]]]; reflexivity).
  rewrite forallb_forall in Hall.
  apply list_elem_of_lookup_2, list_elem_of_In in Hl, Hc.
  specialize (Hall _ Hl). rewrite forallb_forall in Hall. specialize (Hall _ Hc).
  unfold Marked. by destruct (has_flag v POS_LAST).
Qed.

(** ** Which jumps the search generates *)

Lemma table_pair_cases roff coff :
  In (roff, coff) [(-1, -1); (-1, 1); (1, -1); (1, 1); (0, -2); (0, 2)] ->
  (roff = 0 /\ (coff = 2 \/ coff = -2)) \/
  ((roff = 1 \/ roff = -1) /\ (coff = 1 \/ coff = -1)).
Proof. simpl. intros [E|[E|[E|[E|[E|[E|[]]]]]]]; injection E as <- <-; lia. Qed.

(** A child grid tells the jump that made it: two jumps from full cells along
    entries of the offset tables that give the same grid are the same jump. *)
Lemma apply_jump_same_child s j j' t v :
  sq_get s (j_row j) (j_col j) = Ok v -> has_flag v POS_FULL = true ->
  In (j_roff j, j_coff j) [(-1, -1); (-1, 1); (1, -1); (1, 1); (0, -2); (0, 2)] ->
  finds s j' -> apply_jump s j = Ok t -> apply_jump s j' = Ok t -> j = j'.
Proof.
  intros Hv Hfull Hoff Hf' Ht Ht'.
  destruct (finds_cells _ _ Hf') as (v' & adj' & _ & _ & _ & _ & _ & Hoff').
  destruct (offsets_distinct _ Hoff) as (Hms & Hds & Hdm).
  assert (Hdst : dst j = dst j').
  { pose proof (apply_jump_get _ _ _ (j_row j + 2 * j_roff j) (j_col j + 2 * j_coff j) Ht) as E.
    pose proof (apply_jump_get _ _ _ (j_row j + 2 * j_roff j) (j_col j + 2 * j_coff j) Ht') as E'.
    rewrite decide_True in E by done. rewrite E in E'.
    destruct (decide (_ = dst j')) as [Heq|_]; [exact Heq|].
    destruct (decide (_ = mid j')); [discriminate|].
    destruct (decide (_ = src j')); [discriminate|].
    rewrite sq_get_clear_last in E'.
    destruct (sq_get s (j_row j + 2 * j_roff j) (j_col j + 2 * j_coff j)) as [w|];
      [|discriminate].
    injection E' as E'. pose proof (clear_last_unmarked w) as Hu. rewrite <- E' in Hu.
    discriminate. }
  assert (Hsrc : src j = src j' \/ src j = mid j').
  { pose proof (apply_jump_get _ _ _ (j_row j) (j_col j) Ht) as E.
    pose proof (apply_jump_get _ _ _ (j_row j) (j_col j) Ht') as E'.
    rewrite decide_False in E by (intros Heq; apply Hds; by symmetry).
    rewrite decide_False in E by (intros Heq; apply Hms; by symmetry).
    rewrite decide_True in E by done. rewrite E in E'.
    destruct (decide (_ = dst j')) as [Heq|_]; [destruct Hds; by rewrite Hdst|].
    destruct (decide (_ = mid j')) as [Heq|_]; [by right|].
    destruct (decide (_ = src j')) as [Heq|_]; [by left|].
    rewrite sq_get_clear_last, Hv in E'. injection E' as E'.
    rewrite <- (has_flag_clear_last v POS_FULL), <- E' in Hfull by done. discriminate. }
  apply table_pair_cases in Hoff, Hoff'.
  destruct j as [r c ro co], j' as [r' c' ro' co']. unfold src, mid, dst in *. simpl in *.
  injection Hdst as Hd1 Hd2.
  destruct Hsrc as [Hs|Hs]; injection Hs as Hs1 Hs2.
  - f_equal; lia.
  - exfalso. lia.
Qed.

(** C1.  In the search from a board of the triangle, take any board [s]
    reachable from it, a full source cell [(row, col)] of [s] and an entry
    [(roff, coff)] of the offset tables.  The search holds [s] in a record;
    and for every record that holds [s], the search has generated the jump,
    that is, allocated a child record whose [prev] is that record and whose
    grid is the result of the jump, if and only if the adjacent cell is
    occupied and the landing cell is empty, both of them being non-invalid
    cells of the grid.  The scan of [s] lists the jump under the same
    condition.  The call of [main] on each of its layouts is such a search,
    by [initial_state_callable] and [layouts_count]. *)
Theorem jump_generated_iff_legal fuel H bd st r st' s row col offnum roff coff v :
  heap st = H ++ [bd] -> callable H bd ->
  (1 <= fuel)%nat -> count_pegs (squares bd) <= Z.of_nat fuel ->
  generate_boards fuel (length H) st = Ok (r, st') ->
  reachable (squares bd) s ->
  sq_get s row col = Ok v -> Occupied v ->
  table_at rowoffsets offnum = Ok roff -> table_at coloffsets offnum = Ok coff ->
  (exists a bda, heap st' !! a = Some bda /\ (length H <= a)%nat /\ squares bda = s) /\
  (forall a bda,
     heap st' !! a = Some bda -> (length H <= a)%nat -> squares bda = s ->
     ((exists c bdc, heap st' !! c = Some bdc /\ (a < c)%nat /\ prev bdc = Some a /\
                     apply_jump s (mkJump row col roff coff) = Ok (squares bdc))
      <-> exists adj land,
            sq_get s (row + roff) (col + coff) = Ok adj /\
            sq_get s (row + 2 * roff) (col + 2 * coff) = Ok land /\
            Occupied adj /\ Empty land /\ ~ Invalid adj /\ ~ Invalid land)) /\
  (exists js, legal_jumps s = Ok js /\
     (In (mkJump row col roff coff) js
      <-> exists adj land,
            sq_get s (row + roff) (col + coff) = Ok adj /\
            sq_get s (row + 2 * roff) (col + 2 * coff) = Ok land /\
            Occupied adj /\ Empty land /\ ~ Invalid adj /\ ~ Invalid land)).
Proof.
  intros Hheap Hcall Hfuel Hcount Hrun Hreach Hv Hocc Hro Hco.
  assert (Htri : tri_inv s) by (eapply reachable_tri_inv; [apply Hcall|done]).
  pose proof (finds_iff_legal s row col offnum roff coff v Htri Hv Hocc Hro Hco) as Hlegal.
  split; [by apply (run_complete fuel H bd st r st')|]. split.
  - intros a bda Ha Hle Hs. rewrite <- Hlegal. subst s. split.
    + intros (c & bdc & Hc & Hlt & Hp & Hj).
      destruct (run_new_board _ _ _ _ _ _ Hheap Hcall Hfuel Hcount Hrun c bdc Hc)
        as (p & bdp & Hp' & _ & Hbdp & (j' & _ & Hf' & Hj')%child_of_finds & _); [lia|].
      assert (p = a) as -> by congruence. assert (bdp = bda) as -> by congruence.
      by rewrite (apply_jump_same_child _ (mkJump row col roff coff) j' _ v Hv Hocc
                    (table_offsets _ _ _ Hro Hco) Hf' Hj Hj').
    + intros Hf.
      destruct (run_children _ _ _ _ _ _ Hheap Hcall Hfuel Hcount Hrun a bda _ Ha Hle Hf)
        as (c & bdc & Hc & Hlt & Hp & Hj).
      by exists c, bdc.
  - destruct (tri_inv_scan _ Htri) as (js & Hjs & _). exists js. split; [done|].
    by rewrite (legal_jumps_In _ _ _ Hjs).
Qed.

Lemma jump_generated_iff_legal_witness :
  exists c bdc, heap fork_final !! c = Some bdc /\ (0 < c)%nat /\ prev bdc = Some 0%nat /\
                apply_jump fork_squares (mkJump 6 6 0 (-2)) = Ok (squares bdc).
Proof.
  destruct (jump_generated_iff_legal 2 [] (initial_board fork_squares) fork_state
              true fork_final fork_squares 6 6 4 0 (-2) 1) as (_ & Hgen & _).
  - reflexivity.
  - exact fork_callable.
  - lia.
  - vm_compute. congruence.
  - vm_compute. reflexivity.
  - apply reach_root.
  - reflexivity.
  - reflexivity.
  - reflexivity.
  - reflexivity.
  - apply (Hgen 0%nat (board_at fork_final 0)).
    + vm_compute. reflexivity.
    + simpl. lia.
    + vm_compute. reflexivity.
    + exists 1, 0. repeat split; try reflexivity; intros Hx; vm_compute in Hx; discriminate.
Defined.

(** C4.  Lines 223-233 for a jump [j] that the scan has validated: the call
    allocates a fresh record whose grid is the grid of [b] with the marker
    cleared everywhere, the source and the jumped cell empty and the landing
    cell full and marked, so that the landing cell is the only marked cell of
    the new board; the grid of [b] and of every other record is left as it
    was.  The initial layouts carry no marker. *)
Theorem spawn_child_effect b bd st j n :
  heap st !! b = Some bd -> finds (squares bd) j ->
  0 <= n < MAX_BOARDS -> length (next bd) = Z.to_nat MAX_BOARDS ->
  exists st' bdn,
    spawn_child b (j_row j) (j_col j) (j_roff j) (j_coff j) n st
      = Ok (length (heap st), st') /\
    (forall a bda, heap st !! a = Some bda ->
                   exists bda', heap st' !! a = Some bda' /\ squares bda' = squares bda) /\
    heap st' !! length (heap st) = Some bdn /\
    sq_get (squares bdn) (j_row j) (j_col j) = Ok POS_EMPTY /\
    sq_get (squares bdn) (j_row j + j_roff j) (j_col j + j_coff j) = Ok POS_EMPTY /\
    sq_get (squares bdn) (j_row j + 2 * j_roff j) (j_col j + 2 * j_coff j)
      = Ok (Z.lor POS_FULL POS_LAST) /\
    (forall r c v, sq_get (squares bd) r c = Ok v ->
                   (r, c) <> src j -> (r, c) <> mid j -> (r, c) <> dst j ->
                   sq_get (squares bdn) r c = Ok (Z.land v (Z.lnot POS_LAST))) /\
    (forall r c v, sq_get (squares bdn) r c = Ok v -> Marked v <-> (r, c) = dst j) /\
    (forall root r c v, In root initial_layouts -> sq_get root r c = Ok v -> ~ Marked v).
Proof.
  intros Hb Hfinds Hn Hlen.
  destruct (apply_jump_total _ _ Hfinds) as [t Ht].
  pose proof Hfinds as Hcells.
  apply finds_cells in Hcells as (_ & _ & _ & _ & _ & _ & _ & Hoff).
  destruct (offsets_distinct j Hoff) as (Hms & Hds & Hdm).
  exists (spawned b n bd t st), (child_board b t).
  split.
  { apply spawn_child_Ok; [done|by destruct j|done|]. rewrite Hlen. unfold MAX_BOARDS in *. lia. }
  pose proof (lookup_lt_Some _ _ _ Hb) as Hblt.
  split.
  { intros a bda Ha. unfold spawned. cbn [heap].
    destruct (decide (a = b)) as [->|Hne].
    - exists (link_child n (length (heap st)) bd). simplify_eq. split; [|done].
      apply lookup_app_l_Some. by apply list_lookup_insert_eq.
    - exists bda. split; [|done]. apply lookup_app_l_Some.
      by rewrite list_lookup_insert_ne. }
  split.
  { unfold spawned. cbn [heap].
    rewrite lookup_app_r by (rewrite length_insert; lia).
    by rewrite length_insert, Nat.sub_diag. }
  cbn [child_board squares].
  split.
  { rewrite (apply_jump_get _ _ _ _ _ Ht).
    rewrite decide_False by (intros E; by apply Hds).
    rewrite decide_False by (intros E; by apply Hms).
    by rewrite decide_True. }
  split.
  { rewrite (apply_jump_get _ _ _ _ _ Ht).
    rewrite decide_False by (intros E; by apply Hdm).
    by rewrite decide_True. }
  split.
  { rewrite (apply_jump_get _ _ _ _ _ Ht). by rewrite decide_True. }
  split.
  { intros r c v Hv Hs Hm Hd. rewrite (apply_jump_get _ _ _ _ _ Ht).
    rewrite !decide_False by done. by rewrite sq_get_clear_last, Hv. }
  split; [|intros root r c v; apply layouts_unmarked].
  intros r c v. rewrite (apply_jump_get _ _ _ _ _ Ht).
  destruct (decide ((r, c) = dst j)) as [Hd|Hd].
  { intros [= <-]. by split. }
  assert (Hunmarked : v = POS_EMPTY \/ (exists w, v = Z.land w (Z.lnot POS_LAST)) ->
                      Marked v <-> (r, c) = dst j).
  { intros [->|[w ->]]; unfold Marked; [by split|].
    rewrite clear_last_unmarked. by split. }
  destruct (decide _); [intros [= <-]; apply Hunmarked; by left|].
  destruct (decide _); [intros [= <-]; apply Hunmarked; by left|].
  rewrite sq_get_clear_last. destruct (sq_get (squares bd) r c) as [w|]; [|done].
  intros [= <-]. apply Hunmarked. right. by exists w.
Qed.

Lemma spawn_child_effect_witness :
  exists st', spawn_child 0 6 2 0 2 0 two_peg_state = Ok (1%nat, st').
Proof.
  destruct (spawn_child_effect 0 (initial_board two_peg_squares) two_peg_state
              (mkJump 6 2 0 2) 0) as (st' & bdn & Hrun & _).
  - reflexivity.
  - exists 5, 1. vm_compute. repeat split; congruence.
  - unfold MAX_BOARDS. lia.
  - reflexivity.
  - exists st'. exact Hrun.
Defined.

(** The first one-peg grid of [gs], if any, is what [record_wins] adds to an
    empty record. *)
Lemma record_wins_first a gs :
  match record_wins None a gs with
  | Some w => exists i g, w = (a + i)%nat /\ gs !! i = Some g /\ count_pegs g = 1 /\
                          forall k g', (k < i)%nat -> gs !! k = Some g' -> count_pegs g' <> 1
  | None => forall g, In g gs -> count_pegs g <> 1
  end.
Proof.
  revert a. induction gs as [|g gs IH]; intros a; simpl; [by intros ? []|].
  unfold record_win, one_peg. destruct (Z.eqb_spec (count_pegs g) 1) as [Hg|Hg].
  - rewrite record_wins_Some. exists 0%nat, g.
    split; [lia|]. split; [done|]. split; [done|]. intros k g' Hk. lia.
  - specialize (IH (S a)). destruct (record_wins None (S a) gs) as [w|].
    + destruct IH as (i & g0 & -> & Hi & Hg0 & Hbefore). exists (S i), g0.
      split; [lia|]. split; [done|]. split; [done|].
      intros [|k] g' Hk Hg'; simpl in Hg'; [congruence|]. apply (Hbefore k); [lia|done].
    + intros g' [<-|Hin]; [done|]. by apply IH.
Qed.

(** C5.  A call of [generate_boards] on the last record [bd] of the heap,
    with the records [N] it allocates in the order of their numbers: a
    winning board recorded before the call is kept; otherwise the recorded
    board is the first one-peg board among [bd] and [N]; the counter of wins
    grows by the number of one-peg boards among them; on a one-peg board
    the call records the win and goes on to scan the board, there is no
    early return; and when the call is over every board reachable from
    [bd] by legal jumps is held by a record. *)
Theorem first_win_recorded fuel H bd st r st' :
  heap st = H ++ [bd] -> callable H bd ->
  count_pegs (squares bd) <= Z.of_nat (S fuel) ->
  generate_boards (S fuel) (length H) st = Ok (r, st') ->
  exists bd' N,
    heap st' = H ++ bd' :: N /\
    boardnum bd' = total_boards st /\
    (forall i bda, N !! i = Some bda -> boardnum bda = total_boards st + 1 + Z.of_nat i) /\
    (forall w, winning_board st = Some w -> winning_board st' = Some w) /\
    (winning_board st = None ->
     match winning_board st' with
     | Some w =>
         exists i g, w = (length H + i)%nat /\
                     (squares bd :: (squares <$> N)) !! i = Some g /\ count_pegs g = 1 /\
                     forall k g', (k < i)%nat ->
                                  (squares bd :: (squares <$> N)) !! k = Some g' ->
                                  count_pegs g' <> 1
     | None => forall g, In g (squares bd :: (squares <$> N)) -> count_pegs g <> 1
     end) /\
    total_winning_boards st'
      = total_winning_boards st + count_wins (squares bd :: (squares <$> N)) /\
    (count_pegs (squares bd) = 1 ->
     winning_board (visited (length H) bd st)
       = match winning_board st with None => Some (length H) | Some w => Some w end /\
     total_winning_boards (visited (length H) bd st) = total_winning_boards st + 1) /\
    generate_boards (S fuel) (length H) st
      = (new_board_num <- scan_board (generate_boards fuel) (length H) ;;
         add_depth (-1) ;;
         ret (negb (new_board_num =? 0)))%prog (visited (length H) bd st) /\
    (forall s, reachable (squares bd) s ->
               exists a bda, heap st' !! a = Some bda /\ (length H <= a)%nat /\
                             squares bda = s).
Proof.
  intros Hheap Hcall Hcount Hrun.
  assert (Hfuel : (1 <= S fuel)%nat) by lia.
  destruct (run_explored _ _ _ _ _ _ Hheap Hcall Hfuel Hcount Hrun)
    as (bd' & N & js & Hheap' & _ & _ & _ & _ & _ & Hnum & _ & _ & _ & Hw & Htw & Hnew & _).
  exists bd', N. split; [done|]. split; [done|]. split.
  { intros i bda Hi. by destruct (Hnew _ _ Hi) as (_ & _ & ? & _). }
  split.
  { intros w Hsome. rewrite Hw, Hsome. apply record_wins_Some. }
  split.
  { intros Hnone. rewrite Hw, Hnone. apply record_wins_first. }
  split; [done|]. split.
  { intros Hone. unfold visited, record_win, one_peg.
    cbn [winning_board total_winning_boards]. rewrite Hone. simpl.
    by destruct (winning_board st). }
  assert (Hvisit : visit_board (length H) st = Ok (tt, visited (length H) bd st)).
  { apply visit_board_Ok.
    - rewrite Hheap. apply lookup_last.
    - destruct Hcall as (_ & _ & Hprev). destruct (prev bd); [|done].
      rewrite Hheap, length_app. simpl. lia. }
  split; [rewrite generate_boards_S; by rewrite (bind_Ok _ _ _ _ _ Hvisit)|].
  intros s. by apply (run_complete (S fuel) H bd st r st').
Qed.

Lemma first_win_recorded_witness :
  winning_board two_peg_final = Some 1%nat /\ total_winning_boards two_peg_final = 1.
Proof.
  destruct (first_win_recorded 1 [] (initial_board two_peg_squares) two_peg_state
              true two_peg_final) as (bd' & N & Hheap & _ & _ & _ & _ & _).
  - reflexivity.
  - exact two_peg_callable.
  - vm_compute. congruence.
  - vm_compute. reflexivity.
  - vm_compute. split; reflexivity.
Defined.

(** C9.  On every board of the triangle the search returns: with [p] pegs
    on the board of the call, [1 + (p - 1)] nested activations are enough
    (the subtraction is that of natural numbers), so the recursion goes at
    most [p - 1] levels below the board, and allowing more changes nothing;
    the global [depth] is back at its value; and every recursive call was made on a board with strictly fewer
    pegs than the board of its caller. *)
Theorem search_terminates H bd st :
  heap st = H ++ [bd] -> callable H bd ->
  exists r st',
    generate_boards (S (Z.to_nat (count_pegs (squares bd)) - 1)) (length H) st = Ok (r, st') /\
    (forall k, generate_boards (S (Z.to_nat (count_pegs (squares bd)) - 1) + k) (length H) st
               = Ok (r, st')) /\
    depth st' = depth st /\
    forall a bda, heap st' !! a = Some bda -> (length H < a)%nat ->
      exists p bdp, prev bda = Some p /\ (length H <= p < a)%nat /\
                    heap st' !! p = Some bdp /\
                    count_pegs (squares bda) < count_pegs (squares bdp).
Proof.
  intros Hheap Hcall.
  set (fuel := S (Z.to_nat (count_pegs (squares bd)) - 1)).
  assert (Hfuel : (1 <= fuel)%nat) by (unfold fuel; lia).
  assert (Hcount : count_pegs (squares bd) <= Z.of_nat fuel) by (unfold fuel; lia).
  destruct (generate_boards_explores fuel H bd st Hheap Hcall Hfuel Hcount)
    as (r & st' & Hrun & Hex).
  exists r, st'. split; [done|]. split.
  { intros k. by apply generate_boards_fuel_mono. }
  split.
  { by destruct Hex as (? & ? & ? & _ & _ & _ & _ & _ & _ & _ & _ & ? & _). }
  intros a bda Ha Hlt.
  destruct (run_new_board fuel H bd st r st' Hheap Hcall Hfuel Hcount Hrun a bda Ha Hlt)
    as (p & bdp & Hp & Hrange & Hbdp & Hchild & _).
  exists p, bdp. repeat (split; [done|]). rewrite (child_of_count _ _ Hchild). lia.
Qed.

Lemma search_terminates_witness :
  exists r st', generate_boards 2 0 two_peg_state = Ok (r, st') /\ depth st' = 0.
Proof.
  destruct (search_terminates [] (initial_board two_peg_squares) two_peg_state)
    as (r & st' & Hrun & _ & Hdepth & _).
  - reflexivity.
  - exact two_peg_callable.
  - exists r, st'. split; [exact Hrun|exact Hdepth].
Defined.

(** ** Reversing the parent chain: lines 330-340 *)

Section Replay.
Implicit Types (st : state) (a b p c w : addr) (l acc : list addr).

Lemma store_nextwin_Ok p c st bd :
  heap st !! p = Some bd -> store_nextwin p c st = Ok (tt, linked p c st).
Proof.
  intros Hp. unfold store_nextwin, linked, board_at. rewrite Hp.
  apply (update_Ok (with_nextwin (Some c))). done.
Qed.

Lemma linked_lookup p c st a :
  heap (linked p c st) !! a
  = if decide (a = p) then with_nextwin (Some c) <$> heap st !! p else heap st !! a.
Proof.
  unfold linked, board_at. cbn [heap set_heap]. destruct (decide (a = p)) as [->|Hne].
  - destruct (heap st !! p) as [bd|] eqn:Hp.
    + rewrite list_lookup_insert_eq; [done|]. by eapply lookup_lt_Some.
    + rewrite list_insert_ge; [by rewrite Hp|]. by apply lookup_ge_None.
  - by rewrite list_lookup_insert_ne.
Qed.

Lemma linked_prev p c st a :
  prev <$> heap (linked p c st) !! a = prev <$> heap st !! a.
Proof.
  rewrite linked_lookup. destruct (decide (a = p)) as [->|]; [|done].
  by destruct (heap st !! p).
Qed.

Lemma linked_squares p c st a :
  squares <$> heap (linked p c st) !! a = squares <$> heap st !! a.
Proof.
  rewrite linked_lookup. destruct (decide (a = p)) as [->|]; [|done].
  by destruct (heap st !! p).
Qed.

(** A chain only depends on the [prev] fields. *)
Lemma parent_chain_prev h h' a l :
  (forall x, prev <$> h' !! x = prev <$> h !! x) ->
  parent_chain h a l -> parent_chain h' a l.
Proof.
  intros Hsame. induction 1 as [a bd Ha Hp|a bd p l Ha Hp _ IH].
  - pose proof (Hsame a) as E. rewrite Ha in E.
    destruct (h' !! a) as [bd'|] eqn:Ha'; [|done]. simpl in E.
    apply (chain_root _ _ bd'); [done|congruence].
  - pose proof (Hsame a) as E. rewrite Ha in E.
    destruct (h' !! a) as [bd'|] eqn:Ha'; [|done]. simpl in E.
    apply (chain_step _ _ bd' p); [done|congruence|done].
Qed.

Lemma parent_chain_head h a l : parent_chain h a l -> exists l', l = a :: l'.
Proof. destruct 1; eauto. Qed.

(** Consecutive records of a chain are child and parent. *)
Lemma parent_chain_pairs h a l k1 c p k2 :
  parent_chain h a l -> l = k1 ++ c :: p :: k2 ->
  exists bdc, h !! c = Some bdc /\ prev bdc = Some p.
Proof.
  intros Hch. revert k1. induction Hch as [a bd Ha Hp|a bd q l Ha Hp Hq IH]; intros k1 E.
  - destruct k1 as [|? [|]]; done.
  - destruct k1 as [|x k1]; simpl in E.
    + injection E as -> E. destruct (parent_chain_head _ _ _ Hq) as [l' ->].
      injection E as -> _. by exists bd.
    + injection E as _ E. by apply (IH k1).
Qed.

(** Walking forward does not read the [nextwin] of records off the path. *)
Lemma walk_path_frame fuel (o : option addr) st path p c :
  walk_path fuel o st = Ok (path, st) -> ~ In p path ->
  walk_path fuel o (linked p c st) = Ok (path, linked p c st).
Proof.
  revert o path. induction fuel as [|fuel IH]; intros [a|] path Hwalk Hnot;
    simpl in *; try done.
  - unfold ret in *. by simplify_eq.
  - apply bind_inv in Hwalk as (bd & st1 & Hload & Hwalk).
    unfold load in Hload. destruct (heap st !! a) as [bd'|] eqn:Ha; [|done].
    injection Hload as -> <-.
    apply bind_inv in Hwalk as (rest & st2 & Hrest & Hret).
    unfold ret in Hret. injection Hret as <- ->.
    assert (Hne : a <> p) by (intros ->; apply Hnot; by left).
    assert (Hla : heap (linked p c st) !! a = Some bd)
      by (rewrite linked_lookup; by rewrite decide_False).
    rewrite (bind_Ok _ _ _ _ _ (load_Ok _ _ _ Hla)).
    rewrite (bind_Ok _ _ _ _ _ (IH _ _ Hrest ltac:(intros ?; apply Hnot; by right))).
    done.
  - unfold ret in *. by simplify_eq.
Qed.

(** The two loops, started in the middle of the chain: [acc] is what the
    forward walk from [a] already yields. *)
Lemma link_walk l : forall a st acc fuel,
  parent_chain (heap st) a l ->
  walk_path fuel (Some a) st = Ok (a :: acc, st) ->
  NoDup (rev l ++ acc) ->
  exists root st2,
    link_path (length l) a st = Ok (root, st2) /\
    list.last l = Some root /\
    walk_path (fuel + length l - 1) (Some root) st2 = Ok (rev l ++ acc, st2) /\
    (forall x, prev <$> heap st2 !! x = prev <$> heap st !! x) /\
    (forall x, squares <$> heap st2 !! x = squares <$> heap st !! x).
Proof.
  induction l as [|a0 l IH]; intros a st acc fuel Hch Hwalk Hnd; [inversion Hch|].
  destruct (parent_chain_head _ _ _ Hch) as [l0 E]. injection E as -> <-.
  inversion Hch as [? bd Ha Hp|? bd p ? Ha Hp Hch']; subst.
  - exists a, st. simpl. rewrite (bind_Ok _ _ _ _ _ (load_Ok _ _ _ Ha)), Hp.
    split; [done|]. split; [done|].
    replace (fuel + 1 - 1)%nat with fuel by lia. done.
  - destruct (parent_chain_head _ _ _ Hch') as [l' ->].
    assert (exists bdp, heap st !! p = Some bdp) as [bdp Hpb]
      by (inversion Hch'; eauto).
    set (st1 := linked p a st).
    assert (Hnotin : ~ In p (a :: acc)).
    { simpl in Hnd. rewrite <- !app_assoc in Hnd. simpl in Hnd.
      apply list.NoDup_app in Hnd as (_ & _ & Hnd).
      apply list.NoDup_cons in Hnd as [Hp' _]. by rewrite list_elem_of_In in Hp'. }
    assert (Hwalk1 : walk_path (S fuel) (Some p) st1 = Ok (p :: a :: acc, st1)).
    { simpl. assert (Hlp : heap st1 !! p = Some (with_nextwin (Some a) bdp)).
      { unfold st1. rewrite linked_lookup, decide_True by done. by rewrite Hpb. }
      rewrite (bind_Ok _ _ _ _ _ (load_Ok _ _ _ Hlp)). cbn [nextwin with_nextwin].
      by rewrite (bind_Ok _ _ _ _ _ (walk_path_frame _ _ _ _ p a Hwalk Hnotin)). }
    destruct (IH p st1 (a :: acc) (S fuel)) as (root & st2 & Hlink & Hlast & Hwalk2 & Hprev & Hsq).
    { eapply parent_chain_prev; [|done]. intros x. apply linked_prev. }
    { done. }
    { simpl in Hnd |- *. rewrite <- !app_assoc in Hnd. rewrite <- app_assoc. exact Hnd. }
    exists root, st2. split.
    { change (length (a :: p :: l')) with (S (length (p :: l'))). cbn [link_path].
      rewrite (bind_Ok _ _ _ _ _ (load_Ok _ _ _ Ha)), Hp.
      by rewrite (bind_Ok _ _ _ _ _ (store_nextwin_Ok _ _ _ _ Hpb)). }
    split; [done|]. split.
    { replace (fuel + length (a :: p :: l') - 1)%nat
        with (S fuel + length (p :: l') - 1)%nat by (simpl; lia).
      rewrite Hwalk2. simpl. by rewrite <- !app_assoc. }
    split; intros x; [rewrite Hprev; apply linked_prev|rewrite Hsq; apply linked_squares].
Qed.
End Replay.

Lemma count_wins_none gs : (forall g, In g gs -> count_pegs g <> 1) -> count_wins gs = 0.
Proof.
  induction gs as [|g gs IH]; intros Hall; [done|]. simpl.
  rewrite IH by (intros g' ?; apply Hall; by right).
  unfold one_peg. destruct (Z.eqb_spec (count_pegs g) 1) as [Hg|]; [|done].
  exfalso. by apply (Hall g); [left|].
Qed.

Lemma rev_last_head (l : list addr) x : list.last l = Some x -> exists k, rev l = x :: k.
Proof.
  intros (k & ->)%last_Some. exists (rev k). by rewrite rev_unit.
Qed.

Section Chains.
Variables (fuel : nat) (H : list board) (bd : board) (st : state) (r : bool) (st' : state).
Hypothesis Hheap : heap st = H ++ [bd].
Hypothesis Hcall : callable H bd.
Hypothesis Hfuel : (1 <= fuel)%nat.
Hypothesis Hcount : count_pegs (squares bd) <= Z.of_nat fuel.
Hypothesis Hrun : generate_boards fuel (length H) st = Ok (r, st').
Hypothesis Hroot : prev bd = None.

(** Every record of the subtree has a chain of parents up to the board of
    the call, through ever smaller addresses. *)
Lemma run_chain a bda :
  heap st' !! a = Some bda -> (length H <= a)%nat ->
  exists l, parent_chain (heap st') a l /\ list.last l = Some (length H) /\
            (forall x, In x l -> (length H <= x <= a)%nat) /\ NoDup (rev l).
Proof.
  revert bda. induction (lt_wf a) as [a _ IH]. intros bda Ha Hle.
  destruct (decide (a = length H)) as [->|Hne].
  - destruct (run_root_board fuel H bd st r st' Hheap Hcall Hfuel Hcount Hrun)
      as (bd' & Hbd' & _ & Hp & _).
    exists [length H]. split; [apply (chain_root _ _ bd'); congruence|].
    split; [done|]. split; [intros x [<-|[]]; lia|].
    simpl. apply NoDup_singleton.
  - destruct (run_new_board fuel H bd st r st' Hheap Hcall Hfuel Hcount Hrun a bda Ha)
      as (p & bdp & Hp & Hrange & Hbdp & _); [lia|].
    destruct (IH p) with (bda := bdp) as (l & Hch & Hlast & Hin & Hnd); [lia|done|lia|].
    exists (a :: l). split; [by apply (chain_step _ _ bda p)|].
    destruct (parent_chain_head _ _ _ Hch) as [l' ->].
    split; [done|]. split.
    + intros x [<-|Hx]; [lia|]. specialize (Hin x Hx). lia.
    + change (rev (a :: p :: l')) with (rev (p :: l') ++ [a]).
      apply list.NoDup_app. split; [done|]. split; [|apply NoDup_singleton].
      intros x Hx%list_elem_of_In%in_rev Hxa%list_elem_of_In.
      destruct Hxa as [<-|[]]. specialize (Hin _ Hx). lia.
Qed.
End Chains.

(** What [main] does after a search that found a win. *)
Lemma replay_after_search fuel H bd st r st' :
  heap st = H ++ [bd] -> callable H bd ->
  (1 <= fuel)%nat -> count_pegs (squares bd) <= Z.of_nat fuel ->
  prev bd = None -> nextwin bd = None ->
  winning_board st = None -> total_winning_boards st = 0 ->
  generate_boards fuel (length H) st = Ok (r, st') ->
  0 < total_winning_boards st' ->
  exists w l st2,
    winning_board st' = Some w /\
    count_pegs (squares (board_at st' w)) = 1 /\
    parent_chain (heap st') w l /\
    replay_win (length l) st' = Ok (rev l, st2) /\
    list.head (rev l) = Some (length H) /\ list.last (rev l) = Some w /\
    (forall k1 p c k2, rev l = k1 ++ p :: c :: k2 ->
       exists bdp bdc, heap st' !! p = Some bdp /\ heap st' !! c = Some bdc /\
                       prev bdc = Some p /\ child_of (squares bdp) (squares bdc)) /\
    (forall x, squares <$> heap st2 !! x = squares <$> heap st' !! x) /\
    (forall x, prev <$> heap st2 !! x = prev <$> heap st' !! x).
Proof.
  intros Hheap Hcall Hfuel Hcount Hroot Hnw Hwb Htw0 Hrun Hwins.
  destruct (run_explored _ _ _ _ _ _ Hheap Hcall Hfuel Hcount Hrun)
    as (bd' & N & js & Hheap' & _ & _ & Hsq & Hpr & Hnw' & _ & _ & _ & _ & Hw & Htw & Hnew & _).
  rewrite Hwb in Hw. rewrite Htw0 in Htw.
  pose proof (record_wins_first (length H) (squares bd :: (squares <$> N))) as Hfirst.
  rewrite <- Hw in Hfirst. destruct (winning_board st') as [w|] eqn:Hw'.
  2:{ rewrite (count_wins_none _ Hfirst) in Htw. lia. }
  destruct Hfirst as (i & g & -> & Hg & Hone & _).
  assert (exists bdw, heap st' !! (length H + i)%nat = Some bdw /\ squares bdw = g
                      /\ nextwin bdw = None) as (bdw & Hbdw & Hsqw & Hnww).
  { rewrite Hheap', lookup_app_r by lia.
    replace (length H + i - length H)%nat with i by lia.
    destruct i as [|i]; simpl in *.
    - exists bd'. split; [done|]. split; congruence.
    - rewrite list_lookup_fmap in Hg. destruct (N !! i) as [bdi|] eqn:Hi; [|done].
      exists bdi. split; [done|]. split; [simpl in Hg; congruence|].
      by destruct (Hnew _ _ Hi) as (? & _). }
  set (w := (length H + i)%nat) in *.
  destruct (run_chain fuel H bd st r st' Hheap Hcall Hfuel Hcount Hrun Hroot w bdw Hbdw)
    as (l & Hch & Hlast & Hin & Hnd); [unfold w; lia|].
  assert (Hwalk0 : walk_path 1 (Some w) st' = Ok ([w], st')).
  { simpl. rewrite (bind_Ok _ _ _ _ _ (load_Ok _ _ _ Hbdw)). by rewrite Hnww. }
  destruct (link_walk l w st' [] 1 Hch Hwalk0) as (root & st2 & Hlink & Hlast' & Hwalk & Hprev & Hsqs).
  { by rewrite app_nil_r. }
  rewrite app_nil_r in Hwalk.
  replace (1 + length l - 1)%nat with (length l) in Hwalk by lia.
  assert (root = length H) as -> by congruence.
  exists w, l, st2. split; [done|]. split.
  { unfold board_at. rewrite Hbdw. congruence. }
  split; [done|]. split.
  { unfold replay_win. rewrite Hw'.
    destruct (Z.ltb_spec 0 (total_winning_boards st')); [|lia].
    by rewrite (bind_Ok _ _ _ _ _ Hlink). }
  split.
  { destruct (rev_last_head _ _ Hlast) as [k ->]. done. }
  split.
  { destruct (parent_chain_head _ _ _ Hch) as [l' ->]. simpl. apply last_snoc. }
  split; [|done].
  intros k1 p c k2 E.
  assert (El : l = rev k2 ++ c :: p :: rev k1).
  { rewrite <- (rev_involutive l), E, rev_app_distr. simpl. by rewrite <- !app_assoc. }
  destruct (parent_chain_pairs _ _ _ _ _ _ _ Hch El) as (bdc & Hc & Hpc).
  assert (Hcin : In c l) by (rewrite El; apply in_or_app; right; by left).
  pose proof (Hin _ Hcin) as Hcrange.
  assert (Hcne : c <> length H).
  { intros ->. rewrite Hheap', list_lookup_middle in Hc by done.
    injection Hc as <-. congruence. }
  destruct (run_new_board fuel H bd st r st' Hheap Hcall Hfuel Hcount Hrun c bdc Hc)
    as (p' & bdp & Hp' & _ & Hbdp & Hchild & _); [lia|].
  assert (p' = p) as -> by congruence.
  by exists bdp, bdc.
Qed.

(** C6.  After a search started on a root record (no parent, no forward
    link, no win recorded yet) that found a win: the recorded winning board
    [w] holds one peg and has a parent chain [l] up to the root; the two
    loops of [main] return exactly the reverse of that chain, which starts
    at the root and ends at [w]; every two consecutive boards of it are a
    parent and the child a legal jump makes of it; the grids and [prev]
    links are left as the search made them. *)
Theorem replay_reverses_parent_chain fuel H bd st r st' :
  heap st = H ++ [bd] -> callable H bd ->
  (1 <= fuel)%nat -> count_pegs (squares bd) <= Z.of_nat fuel ->
  prev bd = None -> nextwin bd = None ->
  winning_board st = None -> total_winning_boards st = 0 ->
  generate_boards fuel (length H) st = Ok (r, st') ->
  0 < total_winning_boards st' ->
  exists w l st2,
    winning_board st' = Some w /\
    count_pegs (squares (board_at st' w)) = 1 /\
    parent_chain (heap st') w l /\
    replay_win (length l) st' = Ok (rev l, st2) /\
    list.head (rev l) = Some (length H) /\ list.last (rev l) = Some w /\
    (forall k1 p c k2, rev l = k1 ++ p :: c :: k2 ->
       exists bdp bdc, heap st' !! p = Some bdp /\ heap st' !! c = Some bdc /\
                       prev bdc = Some p /\ child_of (squares bdp) (squares bdc)) /\
    (forall x, squares <$> heap st2 !! x = squares <$> heap st' !! x) /\
    (forall x, prev <$> heap st2 !! x = prev <$> heap st' !! x).
Proof. apply replay_after_search. Qed.

Lemma replay_reverses_parent_chain_witness :
  exists st2, replay_win 2 two_peg_final = Ok ([0%nat; 1%nat], st2).
Proof.
  destruct (replay_reverses_parent_chain 2 [] (initial_board two_peg_squares) two_peg_state
              true two_peg_final) as (w & l & st2 & Hw & _ & _ & Hreplay & _).
  - reflexivity.
  - exact two_peg_callable.
  - lia.
  - vm_compute. congruence.
  - reflexivity.
  - reflexivity.
  - reflexivity.
  - reflexivity.
  - vm_compute. reflexivity.
  - vm_compute. reflexivity.
  - exists (match replay_win 2 two_peg_final with Ok (_, s) => s | Err _ => two_peg_final end).
    vm_compute. reflexivity.
Defined.

(** ** The run of [main] *)

Lemma play_reachable root s js t :
  reachable root s -> play s js = Some t -> reachable root t.
Proof.
  revert s. induction js as [|j js IH]; intros s Hs Hplay; simpl in Hplay.
  - by injection Hplay as <-.
  - destruct (legal_jumps s) as [all|] eqn:Hall; [|done].
    destruct (apply_jump s j) as [u|] eqn:Hu; [|done].
    destruct (bool_decide (j ∈ all)) eqn:Hj; [|done].
    apply bool_decide_eq_true_1, list_elem_of_In in Hj.
    apply (IH u); [|done]. eapply reach_step; [done|]. by exists all, j.
Qed.

Lemma count_wins_pos gs g : In g gs -> count_pegs g = 1 -> 0 < count_wins gs.
Proof.
  induction gs as [|g0 gs IH]; intros Hin Hg; [destruct Hin|].
  destruct Hin as [<-|Hin]; simpl.
  - unfold one_peg. rewrite Hg. simpl.
    assert (0 <= count_wins gs) by (clear; induction gs as [|? ? IH']; simpl;
                                    [lia|destruct (one_peg _); lia]).
    lia.
  - specialize (IH Hin Hg). destruct (one_peg g0); lia.
Qed.

(** The boards held by the records of the search of [main] are exactly the
    boards reachable from the layout it starts from. *)
Theorem main_boards_reachable root r st' s :
  In root initial_layouts ->
  generate_boards 14 0 (initial_state (initial_board root)) = Ok (r, st') ->
  (exists a bda, heap st' !! a = Some bda /\ squares bda = s) <-> reachable root s.
Proof.
  intros Hroot Hrun.
  pose proof (initial_state_callable _ Hroot) as Hcall.
  assert (Hheap : heap (initial_state (initial_board root)) = [] ++ [initial_board root])
    by reflexivity.
  assert (Hcount : count_pegs (squares (initial_board root)) <= Z.of_nat 14)
    by (cbn [squares initial_board]; rewrite (layouts_count _ Hroot); lia).
  assert (Hfuel : (1 <= 14)%nat) by lia.
  split.
  - intros (a & bda & Ha & <-).
    apply (run_reachable 14 [] (initial_board root) _ r st' Hheap Hcall Hfuel Hcount Hrun a);
      [done|simpl; lia].
  - intros Hreach.
    destruct (run_complete 14 [] (initial_board root) _ r st' Hheap Hcall Hfuel Hcount Hrun
                s Hreach) as (a & bda & Ha & _ & Hs).
    by exists a, bda.
Qed.

(** The program on its first layout: the search returns, it has counted at
    least one win, and the replay yields the boards of a line of play from
    the root to the recorded one-peg board. *)
Theorem main_finds_win :
  exists r st' w l st2,
    generate_boards 14 0 (initial_state initial_board_1) = Ok (r, st') /\
    0 < total_winning_boards st' /\
    winning_board st' = Some w /\
    count_pegs (squares (board_at st' w)) = 1 /\
    parent_chain (heap st') w l /\
    replay_win (length l) st' = Ok (rev l, st2) /\
    list.head (rev l) = Some 0%nat /\ list.last (rev l) = Some w.
Proof.
  assert (Hroot : In initial_squares_1 initial_layouts) by (by left).
  destruct (search_runs _ Hroot) as (r & st' & Hrun & Hex).
  pose proof (initial_state_callable _ Hroot) as Hcall.
  assert (Hcount : count_pegs (squares (initial_board initial_squares_1)) <= Z.of_nat 14)
    by (vm_compute; congruence).
  assert (Hfuel : (1 <= 14)%nat) by lia.
  assert (Hwin : exists t, play initial_squares_1 winning_line_1 = Some t /\ count_pegs t = 1).
  { eexists. split; vm_compute; reflexivity. }
  destruct Hwin as (t & Hplay & Hone).
  pose proof (play_reachable _ _ _ _ (reach_root _) Hplay) as Hreach.
  assert (E1 : heap (initial_state (initial_board initial_squares_1))
               = [] ++ [initial_board initial_squares_1]) by reflexivity.
  destruct (run_complete 14 [] (initial_board initial_squares_1)
              (initial_state (initial_board initial_squares_1)) r st'
              E1 Hcall Hfuel Hcount Hrun t Hreach)
    as (a & bda & Ha & _ & Hsq).
  assert (Hwins : 0 < total_winning_boards st').
  { destruct Hex as (bd' & N & js & Hheap' & _ & _ & Hsq' & _ & _ & _ & _ & _ & _ & _ & Htw & _).
    rewrite Htw. simpl total_winning_boards.
    apply (count_wins_pos _ t); [|done]. simpl in Hheap'. rewrite Hheap' in Ha.
    destruct a as [|k]; simpl in Ha.
    - left. injection Ha as <-. congruence.
    - right. apply list_elem_of_In, list_elem_of_fmap. exists bda.
      split; [done|]. by eapply list_elem_of_lookup_2. }
  assert (E2 : prev (initial_board initial_squares_1) = None) by reflexivity.
  assert (E3 : nextwin (initial_board initial_squares_1) = None) by reflexivity.
  assert (E4 : winning_board (initial_state (initial_board initial_squares_1)) = None)
    by reflexivity.
  assert (E5 : total_winning_boards (initial_state (initial_board initial_squares_1)) = 0)
    by reflexivity.
  destruct (replay_after_search 14 [] (initial_board initial_squares_1)
              (initial_state (initial_board initial_squares_1)) r st'
              E1 Hcall Hfuel Hcount E2 E3 E4 E5 Hrun Hwins)
    as (w & l & st2 & Hw & Hw1 & Hch & Hreplay & Hhd & Hlast & _).
  exists r, st', w, l, st2. unfold initial_board_1.
  split; [exact Hrun|]. split; [exact Hwins|]. split; [exact Hw|]. split; [exact Hw1|].
  split; [exact Hch|]. split; [exact Hreplay|]. split; [exact Hhd|exact Hlast].
Qed.

(** * Further properties of the functions *)

(** ** [clear_last] and [count_pegs] on their own *)

Lemma land_clear_last_unmarked v :
  has_flag v POS_LAST = false -> Z.land v (Z.lnot POS_LAST) = v.
Proof.
  unfold has_flag. intros Hv. apply negb_false_iff, Z.eqb_eq in Hv.
  apply Z.bits_inj'. intros n Hn. rewrite Z.land_spec, Z.lnot_spec by done.
  assert (Hbit : Z.testbit (Z.land v POS_LAST) n = false) by (rewrite Hv; apply Z.bits_0).
  rewrite Z.land_spec in Hbit.
  destruct (Z.testbit v n), (Z.testbit POS_LAST n); simpl in *; congruence.
Qed.

Lemma clear_last_twice s : clear_last (clear_last s) = clear_last s.
Proof.
  unfold clear_last. rewrite map_map. apply map_ext. intros line.
  rewrite map_map. apply map_ext. intros v.
  apply land_clear_last_unmarked, clear_last_unmarked.
Qed.

(** X1.  [clear_last] removes the marker and nothing else: applied twice it
    does what it does once, it leaves the peg count alone, and cell by cell
    the result is unmarked, full, invalid or empty exactly when the cell
    was, and equal to the cell when the cell carried no marker. *)
Theorem clear_last_clears_only_marker s :
  clear_last (clear_last s) = clear_last s /\
  count_pegs (clear_last s) = count_pegs s /\
  (grid_wf s -> grid_wf (clear_last s)) /\
  forall r c v, sq_get s r c = Ok v ->
    exists w, sq_get (clear_last s) r c = Ok w /\
              ~ Marked w /\
              (Occupied w <-> Occupied v) /\
              (Invalid w <-> Invalid v) /\
              (Empty v -> Empty w) /\
              (~ Marked v -> w = v).
Proof.
  split; [apply clear_last_twice|]. split; [apply count_pegs_clear_last|].
  split; [apply grid_wf_clear_last|].
  intros r c v Hv. exists (Z.land v (Z.lnot POS_LAST)).
  split; [by rewrite sq_get_clear_last, Hv|].
  unfold Marked, Occupied, Invalid, Empty.
  split; [by rewrite clear_last_unmarked|].
  split; [by rewrite has_flag_clear_last|].
  split; [by rewrite has_flag_clear_last|].
  split; [by intros ->|].
  intros Hm. apply land_clear_last_unmarked. by destruct (has_flag v POS_LAST).
Qed.

Lemma count_row_le line : count_row line <= Z.of_nat (length line).
Proof.
  induction line as [|v line IH]; [done|]. rewrite count_row_cons. simpl length.
  destruct (has_flag v POS_FULL); simpl; lia.
Qed.

Lemma count_row_zero line :
  count_row line = 0 -> forall v, In v line -> has_flag v POS_FULL = false.
Proof.
  induction line as [|w line IH]; intros Hz v Hin; [destruct Hin|].
  rewrite count_row_cons in Hz. pose proof (count_row_nonneg line).
  destruct (has_flag w POS_FULL) eqn:Hw; simpl in Hz; [lia|].
  destruct Hin as [<-|Hin]; [done|]. apply IH; [lia|done].
Qed.

Lemma count_pegs_zero s :
  count_pegs s = 0 -> forall line v, In line s -> In v line -> has_flag v POS_FULL = false.
Proof.
  induction s as [|l0 s IH]; intros Hz line v Hl Hv; [destruct Hl|].
  rewrite count_pegs_cons in Hz.
  pose proof (count_row_nonneg l0). pose proof (count_pegs_nonneg s).
  destruct Hl as [<-|Hl].
  - apply (count_row_zero l0); [lia|done].
  - apply (IH ltac:(lia) line); done.
Qed.

(** Pegs of a grid laid over a template: no more than the template has
    cells that are not invalid. *)
Lemma count_row_template tmpl line :
  Forall2 cell_inv tmpl line ->
  count_row line <= Z.of_nat (length (List.filter (fun v0 => negb (v0 =? POS_INVALID)) tmpl)).
Proof.
  induction 1 as [|v0 v tmpl line Hv _ IH]; [done|].
  rewrite count_row_cons. simpl. unfold cell_inv in Hv.
  destruct (Z.eqb_spec v0 POS_INVALID) as [->|Hne]; simpl.
  - rewrite decide_True in Hv by done. subst v. simpl. lia.
  - destruct (has_flag v POS_FULL); simpl; lia.
Qed.

Lemma count_pegs_template tmpl s :
  Forall2 (Forall2 cell_inv) tmpl s ->
  count_pegs s
  <= Z.of_nat (length (List.filter (fun v0 => negb (v0 =? POS_INVALID)) (concat tmpl))).
Proof.
  induction 1 as [|l0 line tmpl s Hl _ IH]; [done|].
  rewrite count_pegs_cons. simpl. rewrite List.filter_app, length_app.
  pose proof (count_row_template _ _ Hl). lia.
Qed.

(** X2.  [count_pegs] counts the full cells of the array: on a 9 by 13
    grid it lies between 0 and 117, it is 0 exactly when no cell is full,
    and on a board of the triangle it is at most 15. *)
Theorem count_pegs_range s :
  grid_wf s ->
  0 <= count_pegs s <= NUM_ROWS * NUM_COLS /\
  (count_pegs s = 0 <-> forall r c v, sq_get s r c = Ok v -> ~ Occupied v) /\
  (tri_inv s -> count_pegs s <= 15).
Proof.
  intros [Hlen Hrows]. split; [split; [apply count_pegs_nonneg|]|split].
  - assert (Hgen : forall t, Forall (fun line => length line = Z.to_nat NUM_COLS) t ->
                             count_pegs t <= Z.of_nat (length t) * NUM_COLS).
    { induction 1 as [|line t Hline _ IH]; [done|].
      rewrite count_pegs_cons. pose proof (count_row_le line).
      rewrite Hline in *. simpl length. unfold NUM_COLS in *. lia. }
    specialize (Hgen s Hrows). rewrite Hlen in Hgen. unfold NUM_ROWS, NUM_COLS in *. lia.
  - split.
    + intros Hz r c v (_ & line & Hl & Hv)%sq_get_Ok Hocc.
      apply list_elem_of_lookup_2, list_elem_of_In in Hl, Hv.
      unfold Occupied in Hocc. by rewrite (count_pegs_zero s Hz line v Hl Hv) in Hocc.
    + intros Hno. destruct (Z.eq_dec (count_pegs s) 0) as [|Hne]; [done|]. exfalso.
      assert (Hex : forall t, count_pegs t <> 0 ->
                exists i line k v, t !! i = Some line /\ line !! k = Some v
                                   /\ has_flag v POS_FULL = true).
      { clear. induction t as [|line t IH]; intros Hne; [done|].
        rewrite count_pegs_cons in Hne.
        destruct (Z.eq_dec (count_row line) 0) as [Hz|Hnz].
        - destruct IH as (i & l & k & v & ? & ? & ?); [lia|]. by exists (S i), l, k, v.
        - assert (Hrow : exists k v, line !! k = Some v /\ has_flag v POS_FULL = true).
          { clear -Hnz. induction line as [|w line IH]; [done|].
            rewrite count_row_cons in Hnz. destruct (has_flag w POS_FULL) eqn:Hw.
            - by exists 0%nat, w.
            - destruct IH as (k & v & ? & ?); [simpl in Hnz; lia|]. by exists (S k), v. }
          destruct Hrow as (k & v & ? & ?). by exists 0%nat, line, k, v. }
      destruct (Hex s Hne) as (i & line & k & v & Hi & Hk & Hv).
      pose proof (lookup_lt_Some _ _ _ Hi) as Hilt.
      pose proof (lookup_lt_Some _ _ _ Hk) as Hklt.
      rewrite Forall_lookup in Hrows. rewrite (Hrows _ _ Hi) in Hklt. rewrite Hlen in Hilt.
      apply (Hno (Z.of_nat i) (Z.of_nat k) v); [|done].
      apply sq_get_Ok. split.
      * apply in_grid_spec. lia.
      * exists line. by rewrite !Nat2Z.id.
  - intros Htri. by apply (count_pegs_template initial_squares_1).
Qed.

Lemma count_pegs_range_witness :
  0 <= count_pegs initial_squares_1 <= NUM_ROWS * NUM_COLS.
Proof.
  destruct (count_pegs_range initial_squares_1) as (Hrange & _).
  - split; [reflexivity|]. repeat constructor.
  - exact Hrange.
Defined.

(** ** More about the records a call leaves *)

Lemma finds_two_pegs (s : grid) j : finds s j -> 2 <= count_pegs s.
Proof.
  intros Hf. destruct (apply_jump_total _ _ Hf) as [t Ht].
  pose proof (apply_jump_count _ _ _ Hf Ht). pose proof (apply_jump_count_pos _ _ _ Ht). lia.
Qed.

Lemma parent_chain_suffix h a k x m :
  parent_chain h a (k ++ x :: m) -> parent_chain h x (x :: m).
Proof.
  revert a. induction k as [|y k IH]; intros a Hch; simpl in Hch.
  - by destruct (parent_chain_head _ _ _ Hch) as [l' [= -> ->]].
  - inversion Hch as [|? ? p ? ? ? Hp]; subst; [by destruct k|]. by apply (IH p).
Qed.

Section SearchTree.
Variables (fuel : nat) (H : list board) (bd : board) (st : state) (r : bool) (st' : state).
Hypothesis Hheap : heap st = H ++ [bd].
Hypothesis Hcall : callable H bd.
Hypothesis Hfuel : (1 <= fuel)%nat.
Hypothesis Hcount : count_pegs (squares bd) <= Z.of_nat fuel.
Hypothesis Hrun : generate_boards fuel (length H) st = Ok (r, st').

Lemma run_no_jump_no_record :
  (forall j, ~ finds (squares bd) j) <-> length (heap st') = length (heap st).
Proof.
  destruct (run_explored _ _ _ _ _ _ Hheap Hcall Hfuel Hcount Hrun)
    as (bd' & N & js & Hheap' & Hjs & _ & _ & _ & _ & _ & _ & _ & _ & _ & _ & Hnew & Hch & _).
  rewrite Hheap', Hheap, !length_app. simpl. split.
  - intros Hno. destruct N as [|n0 N]; [done|]. exfalso.
    destruct (Hnew 0%nat n0 eq_refl) as (_ & _ & _ & p & sp & _ & Hrange & Hsp & Hchild).
    replace (p - length H)%nat with 0%nat in Hsp by lia. injection Hsp as <-.
    apply child_of_finds in Hchild as (j & _ & Hf & _). by apply (Hno j).
  - intros Hlen j Hf. assert (N = []) as -> by (destruct N; [done|simpl in Hlen; lia]).
    pose proof (finds_legal_jumps _ _ _ Hjs Hf) as Hin.
    apply list_elem_of_In, list_elem_of_lookup in Hin as [i Hi].
    by destruct (Hch _ _ Hi) as (? & ? & _ & _ & ? & _).
Qed.

Lemma run_result : r = true <-> exists j, finds (squares bd) j.
Proof.
  destruct (run_explored _ _ _ _ _ _ Hheap Hcall Hfuel Hcount Hrun)
    as (bd' & N & js & _ & Hjs & -> & _).
  destruct js as [|j js]; simpl.
  - split; [done|]. intros [j Hf]. by destruct (finds_legal_jumps _ _ _ Hjs Hf).
  - split; [|done]. intros _. exists j. apply (legal_jumps_finds _ _ _ Hjs). by left.
Qed.

Lemma run_numbers a bda :
  heap st' !! a = Some bda -> (length H <= a)%nat ->
  boardnum bda = total_boards st + Z.of_nat (a - length H).
Proof.
  intros Ha Hle. destruct (decide (a = length H)) as [->|Hne].
  - destruct (run_explored _ _ _ _ _ _ Hheap Hcall Hfuel Hcount Hrun)
      as (bd' & N & js & Hheap' & _ & _ & _ & _ & _ & Hnum & _).
    rewrite Hheap', list_lookup_middle in Ha by done. injection Ha as <-.
    rewrite Hnum, Nat.sub_diag. simpl. lia.
  - by destruct (run_new_board _ _ _ _ _ _ Hheap Hcall Hfuel Hcount Hrun a bda Ha)
      as (_ & _ & _ & _ & _ & _ & _ & ?); [lia|].
Qed.

Lemma run_total_boards :
  total_boards st' = total_boards st + Z.of_nat (length (heap st') - length (heap st)).
Proof.
  destruct (run_explored _ _ _ _ _ _ Hheap Hcall Hfuel Hcount Hrun)
    as (bd' & N & js & Hheap' & _ & _ & _ & _ & _ & _ & _ & _ & Htb & _).
  rewrite Htb, Hheap', Hheap, !length_app. simpl. f_equal. lia.
Qed.

Hypothesis Hroot : prev bd = None.

(** The chain of parents of a record of the subtree ends at the board of
    the call, and loses one peg per link. *)
Lemma run_chain_pegs a l :
  parent_chain (heap st') a l -> (length H <= a)%nat ->
  list.last l = Some (length H) /\
  count_pegs (squares (board_at st' a))
  = count_pegs (squares bd) - (Z.of_nat (length l) - 1) /\
  (forall x, In x l -> (length H <= x)%nat).
Proof.
  destruct (run_root_board _ _ _ _ _ _ Hheap Hcall Hfuel Hcount Hrun)
    as (bd' & Hbd' & Hsq' & Hprev' & _).
  induction 1 as [a bda Ha Hp|a bda p l Ha Hp Hch IH]; intros Hle.
  - destruct (decide (a = length H)) as [->|Hne].
    + split; [done|]. split; [|by intros x [<-|[]]].
      unfold board_at. rewrite Hbd', Hsq'. simpl. lia.
    + destruct (run_new_board _ _ _ _ _ _ Hheap Hcall Hfuel Hcount Hrun a bda Ha)
        as (p & _ & Hp' & _); [lia|congruence].
  - assert (a <> length H) by (intros ->; simplify_eq; congruence).
    destruct (run_new_board _ _ _ _ _ _ Hheap Hcall Hfuel Hcount Hrun a bda Ha)
      as (p' & bdp & Hp' & Hrange & Hbdp & Hchild & _); [lia|].
    assert (p' = p) as -> by congruence.
    destruct IH as (Hlast & Hcnt & Hall); [lia|].
    destruct (parent_chain_head _ _ _ Hch) as [l' ->].
    split; [done|]. split; [|intros x [<-|Hx]; [lia|by apply Hall]].
    unfold board_at in *. rewrite Ha. rewrite Hbdp in Hcnt.
    rewrite (child_of_count _ _ Hchild), Hcnt. simpl length. lia.
Qed.
End SearchTree.

(** X3.  The value returned by [generate_boards] tells whether the board has
    a legal jump: it is [TRUE] exactly when the scan finds one, [FALSE]
    exactly when the call has allocated no record, and always [FALSE] on a
    board with at most one peg. *)
Theorem generate_boards_result fuel H bd st r st' :
  heap st = H ++ [bd] -> callable H bd ->
  (1 <= fuel)%nat -> count_pegs (squares bd) <= Z.of_nat fuel ->
  generate_boards fuel (length H) st = Ok (r, st') ->
  (r = true <-> exists j, finds (squares bd) j) /\
  (r = false <-> length (heap st') = length (heap st)) /\
  (count_pegs (squares bd) <= 1 -> r = false).
Proof.
  intros Hheap Hcall Hfuel Hcount Hrun.
  pose proof (run_result _ _ _ _ _ _ Hheap Hcall Hfuel Hcount Hrun) as Hres.
  pose proof (run_no_jump_no_record _ _ _ _ _ _ Hheap Hcall Hfuel Hcount Hrun) as Hnone.
  split; [done|]. split.
  - rewrite <- Hnone. split.
    + intros -> j Hf. assert (false = true) by (apply Hres; by exists j). done.
    + intros Hno. destruct r; [|done]. destruct (proj1 Hres eq_refl) as [j Hf].
      by destruct (Hno j).
  - intros Hle. destruct r; [|done]. destruct (proj1 Hres eq_refl) as [j Hf].
    pose proof (finds_two_pegs _ _ Hf). lia.
Qed.

Lemma generate_boards_result_witness :
  exists j, finds two_peg_squares j.
Proof.
  destruct (generate_boards_result 2 [] (initial_board two_peg_squares) two_peg_state
              true two_peg_final) as (Hres & _).
  - reflexivity.
  - exact two_peg_callable.
  - lia.
  - vm_compute. congruence.
  - vm_compute. reflexivity.
  - apply Hres. reflexivity.
Defined.

(** X4.  [boardnum] is the order of discovery: the record at address [a] of
    the subtree carries the counter value of the call plus its distance from
    the board of the call, and [total_boards] has grown by the number of
    records allocated.  When the counter started as the number of records,
    as in [main], it ends as the number of records and the record at
    address [a] is number [a + 1]. *)
Theorem boards_numbered_in_order fuel H bd st r st' :
  heap st = H ++ [bd] -> callable H bd ->
  (1 <= fuel)%nat -> count_pegs (squares bd) <= Z.of_nat fuel ->
  generate_boards fuel (length H) st = Ok (r, st') ->
  total_boards st' = total_boards st + Z.of_nat (length (heap st') - length (heap st)) /\
  (forall a bda, heap st' !! a = Some bda -> (length H <= a)%nat ->
                 boardnum bda = total_boards st + Z.of_nat (a - length H)) /\
  (total_boards st = Z.of_nat (length (heap st)) ->
   total_boards st' = Z.of_nat (length (heap st')) /\
   forall a bda, heap st' !! a = Some bda -> (length H <= a)%nat ->
                 boardnum bda = Z.of_nat a + 1).
Proof.
  intros Hheap Hcall Hfuel Hcount Hrun.
  pose proof (run_total_boards _ _ _ _ _ _ Hheap Hcall Hfuel Hcount Hrun) as Htb.
  pose proof (run_numbers _ _ _ _ _ _ Hheap Hcall Hfuel Hcount Hrun) as Hnum.
  split; [done|]. split; [done|]. intros Hstart.
  assert (Hgrow : (length (heap st) <= length (heap st'))%nat).
  { destruct (run_explored _ _ _ _ _ _ Hheap Hcall Hfuel Hcount Hrun)
      as (bd' & N & js & Hheap' & _).
    rewrite Hheap', Hheap, !length_app. simpl. lia. }
  split; [lia|]. intros a bda Ha Hle. rewrite (Hnum a bda Ha Hle), Hstart, Hheap, length_app.
  simpl. lia.
Qed.

Lemma boards_numbered_in_order_witness :
  total_boards two_peg_final = 2 /\ boardnum (board_at two_peg_final 1) = 2.
Proof.
  destruct (boards_numbered_in_order 2 [] (initial_board two_peg_squares) two_peg_state
              true two_peg_final) as (_ & _ & Hmain).
  - reflexivity.
  - exact two_peg_callable.
  - lia.
  - vm_compute. congruence.
  - vm_compute. reflexivity.
  - destruct (Hmain eq_refl) as [Htb Hnum]. split; [exact Htb|].
    apply (Hnum 1%nat (board_at two_peg_final 1)); [reflexivity|simpl; lia].
Defined.

(** X5.  A call of [generate_boards] only appends records and links: the
    records allocated before its board are left as they were, its own board
    keeps its grid, [prev] and [nextwin], and every record it allocates has
    a parent at its board or later, before itself, and no forward link. *)
Theorem search_touches_only_its_subtree fuel H bd st r st' :
  heap st = H ++ [bd] -> callable H bd ->
  (1 <= fuel)%nat -> count_pegs (squares bd) <= Z.of_nat fuel ->
  generate_boards fuel (length H) st = Ok (r, st') ->
  (length (heap st) <= length (heap st'))%nat /\
  (forall a, (a < length H)%nat -> heap st' !! a = heap st !! a) /\
  (exists bd', heap st' !! length H = Some bd' /\ squares bd' = squares bd /\
               prev bd' = prev bd /\ nextwin bd' = nextwin bd) /\
  (forall a bda, heap st' !! a = Some bda -> (length H < a)%nat ->
                 nextwin bda = None /\
                 exists p, prev bda = Some p /\ (length H <= p < a)%nat).
Proof.
  intros Hheap Hcall Hfuel Hcount Hrun. split.
  { destruct (run_explored _ _ _ _ _ _ Hheap Hcall Hfuel Hcount Hrun)
      as (bd' & N & js & Hheap' & _).
    rewrite Hheap', Hheap, !length_app. simpl. lia. }
  split; [intros a; by apply (run_old_board fuel H bd st r st')|].
  split; [by apply (run_root_board fuel H bd st r st')|].
  intros a bda Ha Hlt.
  destruct (run_new_board _ _ _ _ _ _ Hheap Hcall Hfuel Hcount Hrun a bda Ha Hlt)
    as (p & bdp & Hp & Hrange & _ & _ & Hnw & _).
  split; [done|]. by exists p.
Qed.

Lemma search_touches_only_its_subtree_witness :
  squares (board_at two_peg_final 0) = two_peg_squares.
Proof.
  destruct (search_touches_only_its_subtree 2 [] (initial_board two_peg_squares)
              two_peg_state true two_peg_final) as (_ & _ & (bd' & Hbd' & Hsq & _) & _).
  - reflexivity.
  - exact two_peg_callable.
  - lia.
  - vm_compute. congruence.
  - vm_compute. reflexivity.
  - change (heap two_peg_final !! 0%nat = Some bd') in Hbd'.
    unfold board_at. rewrite Hbd'. exact Hsq.
Defined.

(** X6.  In the tree below a root record every record is a board of the
    triangle, sits at the end of a chain of [prev] links from the root, and
    holds as many pegs fewer than the root as the chain has links; every
    record but the root holds at least one peg. *)
Theorem record_pegs_by_depth fuel H bd st r st' a bda :
  heap st = H ++ [bd] -> callable H bd ->
  (1 <= fuel)%nat -> count_pegs (squares bd) <= Z.of_nat fuel ->
  generate_boards fuel (length H) st = Ok (r, st') ->
  prev bd = None ->
  heap st' !! a = Some bda -> (length H <= a)%nat ->
  tri_inv (squares bda) /\
  ((length H < a)%nat -> 1 <= count_pegs (squares bda)) /\
  exists l, parent_chain (heap st') a l /\ list.last l = Some (length H) /\
            count_pegs (squares bda) = count_pegs (squares bd) - (Z.of_nat (length l) - 1).
Proof.
  intros Hheap Hcall Hfuel Hcount Hrun Hroot Ha Hle. split.
  { eapply reachable_tri_inv; [apply Hcall|].
    by apply (run_reachable fuel H bd st r st' Hheap Hcall Hfuel Hcount Hrun a). }
  split.
  { intros Hlt.
    destruct (run_new_board _ _ _ _ _ _ Hheap Hcall Hfuel Hcount Hrun a bda Ha Hlt)
      as (p & bdp & _ & _ & _ & (j & _ & _ & Ht)%child_of_finds & _).
    by eapply apply_jump_count_pos. }
  destruct (run_chain _ _ _ _ _ _ Hheap Hcall Hfuel Hcount Hrun Hroot a bda Ha Hle)
    as (l & Hch & Hlast & _).
  exists l. split; [done|]. split; [done|].
  destruct (run_chain_pegs _ _ _ _ _ _ Hheap Hcall Hfuel Hcount Hrun Hroot a l Hch Hle)
    as (_ & Hcnt & _).
  unfold board_at in Hcnt. by rewrite Ha in Hcnt.
Qed.

Lemma record_pegs_by_depth_witness :
  count_pegs (squares (board_at two_peg_final 1)) = 1.
Proof.
  destruct (record_pegs_by_depth 2 [] (initial_board two_peg_squares) two_peg_state
              true two_peg_final 1 (board_at two_peg_final 1)) as (_ & _ & l & _ & _ & _).
  - reflexivity.
  - exact two_peg_callable.
  - lia.
  - vm_compute. congruence.
  - vm_compute. reflexivity.
  - reflexivity.
  - vm_compute. reflexivity.
  - simpl. lia.
  - vm_compute. reflexivity.
Defined.

(** X7.  The boards of a call's subtree are exactly the boards that legal
    jumps reach from the board of the call: the search leaves none out and
    makes none up. *)
Theorem search_boards_exactly_reachable fuel H bd st r st' s :
  heap st = H ++ [bd] -> callable H bd ->
  (1 <= fuel)%nat -> count_pegs (squares bd) <= Z.of_nat fuel ->
  generate_boards fuel (length H) st = Ok (r, st') ->
  (exists a bda, heap st' !! a = Some bda /\ (length H <= a)%nat /\ squares bda = s)
  <-> reachable (squares bd) s.
Proof.
  intros Hheap Hcall Hfuel Hcount Hrun. split.
  - intros (a & bda & Ha & Hle & <-).
    by apply (run_reachable fuel H bd st r st' Hheap Hcall Hfuel Hcount Hrun a).
  - by apply (run_complete fuel H bd st r st').
Qed.

Lemma search_boards_exactly_reachable_witness :
  reachable two_peg_squares (squares (board_at two_peg_final 1)).
Proof.
  apply (search_boards_exactly_reachable 2 [] (initial_board two_peg_squares) two_peg_state
           true two_peg_final).
  - reflexivity.
  - exact two_peg_callable.
  - lia.
  - vm_compute. congruence.
  - vm_compute. reflexivity.
  - exists 1%nat, (board_at two_peg_final 1).
    split; [vm_compute; reflexivity|]. split; [simpl; lia|reflexivity].
Defined.

Lemma count_wins_nonneg gs : 0 <= count_wins gs.
Proof. induction gs as [|g gs IH]; simpl; [lia|destruct (one_peg g); lia]. Qed.

Lemma count_wins_pos_inv gs :
  0 < count_wins gs -> exists g, In g gs /\ count_pegs g = 1.
Proof.
  induction gs as [|g gs IH]; simpl; [lia|]. intros Hpos.
  destruct (one_peg g) eqn:Hg.
  - exists g. split; [by left|]. by apply Z.eqb_eq.
  - destruct IH as (g' & Hin & Hone); [lia|]. exists g'. split; [by right|done].
Qed.

(** X8.  After a call [depth] is back at its value on entry, and
    [total_winning_boards] has grown by the number of records of the subtree
    that hold exactly one peg.  So the counter grows exactly when legal
    jumps lead from the board of the call to a board with one peg. *)
Theorem win_counted_iff_solvable fuel H bd st r st' :
  heap st = H ++ [bd] -> callable H bd ->
  (1 <= fuel)%nat -> count_pegs (squares bd) <= Z.of_nat fuel ->
  generate_boards fuel (length H) st = Ok (r, st') ->
  depth st' = depth st /\
  total_winning_boards st'
  = total_winning_boards st + count_wins (squares <$> drop (length H) (heap st')) /\
  (total_winning_boards st < total_winning_boards st'
   <-> exists s, reachable (squares bd) s /\ count_pegs s = 1).
Proof.
  intros Hheap Hcall Hfuel Hcount Hrun.
  destruct (run_explored _ _ _ _ _ _ Hheap Hcall Hfuel Hcount Hrun)
    as (bd' & N & js & Hheap' & _ & _ & Hsq & _ & _ & _ & _ & Hdepth & _ & _ & Htw & _).
  assert (Hdrop : squares <$> drop (length H) (heap st') = squares bd :: (squares <$> N)).
  { rewrite Hheap', drop_app_length. simpl. by rewrite Hsq. }
  split; [done|]. split; [by rewrite Hdrop|]. rewrite Htw. split.
  - intros Hlt. destruct (count_wins_pos_inv (squares bd :: (squares <$> N))) as (g & Hin & Hone);
      [lia|].
    exists g. split; [|done]. rewrite <- Hdrop in Hin.
    apply list_elem_of_In, list_elem_of_fmap in Hin as (bda & -> & Hbda).
    apply list_elem_of_lookup in Hbda as [i Hi]. rewrite lookup_drop in Hi.
    apply (run_reachable fuel H bd st r st' Hheap Hcall Hfuel Hcount Hrun (length H + i)%nat);
      [done|lia].
  - intros (s & Hreach & Hone).
    destruct (run_complete _ _ _ _ _ _ Hheap Hcall Hfuel Hcount Hrun s Hreach)
      as (a & bda & Ha & Hle & Hs).
    assert (0 < count_wins (squares bd :: (squares <$> N))); [|lia].
    apply (count_wins_pos _ s); [|done]. rewrite <- Hdrop.
    apply list_elem_of_In, list_elem_of_fmap. exists bda. split; [done|].
    apply list_elem_of_lookup. exists (a - length H)%nat. rewrite lookup_drop.
    by replace (length H + (a - length H))%nat with a by lia.
Qed.

Lemma win_counted_iff_solvable_witness :
  total_winning_boards two_peg_final = 1 /\
  exists s, reachable two_peg_squares s /\ count_pegs s = 1.
Proof.
  destruct (win_counted_iff_solvable 2 [] (initial_board two_peg_squares) two_peg_state
              true two_peg_final) as (_ & Htw & Hiff).
  - reflexivity.
  - exact two_peg_callable.
  - lia.
  - vm_compute. congruence.
  - vm_compute. reflexivity.
  - split; [vm_compute; reflexivity|]. apply Hiff. vm_compute. reflexivity.
Defined.

(** X9.  In the subtree of a call a record has a child record, one whose
    [prev] is its address, exactly when the scan of its board finds a jump.
    A record with at most one peg is therefore a leaf. *)
Theorem record_has_child_iff_jump fuel H bd st r st' a bda :
  heap st = H ++ [bd] -> callable H bd ->
  (1 <= fuel)%nat -> count_pegs (squares bd) <= Z.of_nat fuel ->
  generate_boards fuel (length H) st = Ok (r, st') ->
  heap st' !! a = Some bda -> (length H <= a)%nat ->
  ((exists c bdc, heap st' !! c = Some bdc /\ (length H <= c)%nat /\ prev bdc = Some a)
   <-> exists j, finds (squares bda) j) /\
  (count_pegs (squares bda) <= 1 ->
   forall c bdc, heap st' !! c = Some bdc -> (length H <= c)%nat -> prev bdc <> Some a).
Proof.
  intros Hheap Hcall Hfuel Hcount Hrun Ha Hle.
  assert (Hup : forall c bdc, heap st' !! c = Some bdc -> (length H <= c)%nat ->
                              prev bdc = Some a -> exists j, finds (squares bda) j).
  { intros c bdc Hc Hlc Hp. destruct (decide (c = length H)) as [->|Hne].
    - destruct (run_root_board _ _ _ _ _ _ Hheap Hcall Hfuel Hcount Hrun)
        as (bd' & Hbd' & _ & Hp' & _).
      assert (bdc = bd') as -> by congruence. rewrite Hp' in Hp.
      destruct Hcall as (_ & _ & Hprev). rewrite Hp in Hprev. lia.
    - destruct (run_new_board _ _ _ _ _ _ Hheap Hcall Hfuel Hcount Hrun c bdc Hc)
        as (p & bdp & Hp' & _ & Hbdp & (j & _ & Hf & _)%child_of_finds & _); [lia|].
      assert (p = a) as -> by congruence. assert (bdp = bda) as -> by congruence.
      by exists j. }
  split; [split|].
  - intros (c & bdc & Hc & Hlc & Hp). by eapply Hup.
  - intros [j Hf].
    destruct (run_children _ _ _ _ _ _ Hheap Hcall Hfuel Hcount Hrun a bda j Ha Hle Hf)
      as (c & bdc & Hc & Hlt & Hp & _).
    exists c, bdc. split; [done|]. split; [lia|done].
  - intros Hone c bdc Hc Hlc Hp. destruct (Hup c bdc Hc Hlc Hp) as [j Hf].
    pose proof (finds_two_pegs _ _ Hf). lia.
Qed.

Lemma record_has_child_iff_jump_witness :
  exists j, finds two_peg_squares j.
Proof.
  destruct (record_has_child_iff_jump 2 [] (initial_board two_peg_squares) two_peg_state
              true two_peg_final 0 (board_at two_peg_final 0)) as (Hiff & _).
  - reflexivity.
  - exact two_peg_callable.
  - lia.
  - vm_compute. congruence.
  - vm_compute. reflexivity.
  - vm_compute. reflexivity.
  - simpl. lia.
  - apply Hiff. exists 1%nat, (board_at two_peg_final 1).
    split; [vm_compute; reflexivity|]. split; [simpl; lia|vm_compute; reflexivity].
Defined.

(** The boards walked by the replay, counted: helper shared by the results
    on the replay below. *)
Lemma replay_path_pegs fuel H bd st r st' :
  heap st = H ++ [bd] -> callable H bd ->
  (1 <= fuel)%nat -> count_pegs (squares bd) <= Z.of_nat fuel ->
  prev bd = None -> nextwin bd = None ->
  winning_board st = None -> total_winning_boards st = 0 ->
  generate_boards fuel (length H) st = Ok (r, st') ->
  0 < total_winning_boards st' ->
  exists path st2,
    replay_win (length path) st' = Ok (path, st2) /\
    Z.of_nat (length path) = count_pegs (squares bd) /\
    forall k x, path !! k = Some x ->
      count_pegs (squares (board_at st2 x)) = count_pegs (squares bd) - Z.of_nat k.
Proof.
  intros Hheap Hcall Hfuel Hcount Hroot Hnw Hwb Htw0 Hrun Hwins.
  destruct (replay_after_search _ _ _ _ _ _ Hheap Hcall Hfuel Hcount Hroot Hnw Hwb Htw0
              Hrun Hwins)
    as (w & l & st2 & Hw & Hw1 & Hch & Hreplay & Hhd & Hlast & _ & Hsq2 & _).
  assert (Hlw : (length H <= w)%nat).
  { destruct (run_explored _ _ _ _ _ _ Hheap Hcall Hfuel Hcount Hrun)
      as (bd' & N & js & Hheap' & _ & _ & _ & _ & _ & _ & _ & _ & _ & Hrec & _).
    rewrite Hwb, Hw in Hrec.
    pose proof (record_wins_first (length H) (squares bd :: (squares <$> N))) as Hfirst.
    rewrite <- Hrec in Hfirst. destruct Hfirst as (i & g & Hi & _). simplify_eq. lia. }
  destruct (run_chain_pegs _ _ _ _ _ _ Hheap Hcall Hfuel Hcount Hrun Hroot w l Hch Hlw)
    as (_ & Hcntw & Hall).
  exists (rev l), st2. rewrite length_rev. split; [done|]. split; [lia|].
  intros k x Hk.
  assert (Hsplit : rev l = take k (rev l) ++ x :: drop (S k) (rev l))
    by (by rewrite <- (take_drop_middle _ _ _ Hk) at 1).
  assert (Hl : l = rev (drop (S k) (rev l)) ++ x :: rev (take k (rev l))).
  { rewrite <- (rev_involutive l) at 1. rewrite Hsplit at 1.
    rewrite rev_app_distr. simpl. by rewrite <- app_assoc. }
  assert (Hx : In x l) by (rewrite Hl; apply in_or_app; right; by left).
  rewrite Hl in Hch. apply parent_chain_suffix in Hch.
  destruct (run_chain_pegs _ _ _ _ _ _ Hheap Hcall Hfuel Hcount Hrun Hroot x _ Hch
              (Hall x Hx)) as (_ & Hcnt & _).
  assert (Hlen : length (take k (rev l)) = k).
  { rewrite length_take. apply lookup_lt_Some in Hk. lia. }
  simpl length in Hcnt. rewrite length_rev, Hlen in Hcnt.
  assert (exists b1, heap st' !! x = Some b1) as [b1 Hb1] by (inversion Hch; eauto).
  unfold board_at in *. specialize (Hsq2 x). rewrite Hb1 in Hsq2, Hcnt.
  destruct (heap st2 !! x) as [b2|]; simpl in Hsq2; [|done].
  injection Hsq2 as ->. lia.
Qed.

(** X10.  When the search from a root record has recorded a win, the replay
    of [main] walks as many boards as the root holds pegs, and the board
    after [k] steps holds [k] pegs fewer than the root: each board of the
    replay differs from the one before it by one jump, down to the single
    peg of the recorded win. *)
Theorem replay_loses_one_peg_per_board fuel H bd st r st' :
  heap st = H ++ [bd] -> callable H bd ->
  (1 <= fuel)%nat -> count_pegs (squares bd) <= Z.of_nat fuel ->
  prev bd = None -> nextwin bd = None ->
  winning_board st = None -> total_winning_boards st = 0 ->
  generate_boards fuel (length H) st = Ok (r, st') ->
  0 < total_winning_boards st' ->
  exists path st2,
    replay_win (length path) st' = Ok (path, st2) /\
    Z.of_nat (length path) = count_pegs (squares bd) /\
    forall k x, path !! k = Some x ->
      count_pegs (squares (board_at st2 x)) = count_pegs (squares bd) - Z.of_nat k.
Proof. apply replay_path_pegs. Qed.

Lemma replay_loses_one_peg_per_board_witness :
  exists path st2,
    replay_win (length path) two_peg_final = Ok (path, st2) /\
    Z.of_nat (length path) = 2.
Proof.
  destruct (replay_loses_one_peg_per_board 2 [] (initial_board two_peg_squares)
              two_peg_state true two_peg_final) as (path & st2 & Hrep & Hlen & _).
  - reflexivity.
  - exact two_peg_callable.
  - lia.
  - vm_compute. congruence.
  - reflexivity.
  - reflexivity.
  - reflexivity.
  - reflexivity.
  - vm_compute. reflexivity.
  - vm_compute. reflexivity.
  - exists path, st2. split; [exact Hrep|exact Hlen].
Defined.

(** ** The program on the layouts of [main] *)

Lemma layouts_solvable root :
  In root initial_layouts -> exists line t, play root line = Some t /\ count_pegs t = 1.
Proof.
  intros [<-|[<-|[<-|[<-|[]]]]].
  - exists winning_line_1. eexists. split; vm_compute; reflexivity.
  - exists winning_line_2. eexists. split; vm_compute; reflexivity.
  - exists winning_line_3. eexists. split; vm_compute; reflexivity.
  - exists winning_line_4. eexists. split; vm_compute; reflexivity.
Qed.

(** X11.  [main] on any of the four layouts it declares: the search returns
    with at least one win counted, [total_boards] is the number of records,
    and the replay yields a line of play of fourteen boards, from the layout
    at address 0 down to the recorded board with one peg. *)
Theorem main_solves_every_layout root :
  In root initial_layouts ->
  exists r st' w path st2,
    generate_boards 14 0 (initial_state (initial_board root)) = Ok (r, st') /\
    r = true /\
    0 < total_winning_boards st' /\
    total_boards st' = Z.of_nat (length (heap st')) /\
    winning_board st' = Some w /\
    count_pegs (squares (board_at st' w)) = 1 /\
    replay_win (length path) st' = Ok (path, st2) /\
    length path = 14%nat /\
    list.head path = Some 0%nat /\ list.last path = Some w /\
    forall k1 p c k2, path = k1 ++ p :: c :: k2 ->
      child_of (squares (board_at st' p)) (squares (board_at st' c)).
Proof.
  intros Hroot.
  destruct (search_runs _ Hroot) as (r & st' & Hrun & Hex).
  pose proof (initial_state_callable _ Hroot) as Hcall.
  assert (Hcount : count_pegs (squares (initial_board root)) <= Z.of_nat 14)
    by (cbn [squares initial_board]; rewrite (layouts_count _ Hroot); lia).
  assert (Hfuel : (1 <= 14)%nat) by lia.
  destruct (layouts_solvable _ Hroot) as (line & t & Hplay & Hone).
  pose proof (play_reachable _ _ _ _ (reach_root _) Hplay) as Hreach.
  assert (E1 : heap (initial_state (initial_board root)) = [] ++ [initial_board root])
    by reflexivity.
  destruct (run_complete 14 [] (initial_board root) (initial_state (initial_board root)) r st'
              E1 Hcall Hfuel Hcount Hrun t Hreach) as (a & bda & Ha & _ & Hsq).
  destruct Hex as (bd' & N & js & Hheap' & _ & _ & Hsq' & _ & _ & _ & _ & _ & Htb & _ & Htw & _).
  assert (Hwins : 0 < total_winning_boards st').
  { rewrite Htw. simpl total_winning_boards.
    apply (count_wins_pos _ t); [|done]. simpl in Hheap'. rewrite Hheap' in Ha.
    destruct a as [|k]; simpl in Ha.
    - left. injection Ha as <-. congruence.
    - right. apply list_elem_of_In, list_elem_of_fmap. exists bda.
      split; [done|]. by eapply list_elem_of_lookup_2. }
  assert (E2 : prev (initial_board root) = None) by reflexivity.
  assert (E3 : nextwin (initial_board root) = None) by reflexivity.
  assert (E4 : winning_board (initial_state (initial_board root)) = None) by reflexivity.
  assert (E5 : total_winning_boards (initial_state (initial_board root)) = 0) by reflexivity.
  destruct (replay_after_search 14 [] (initial_board root) (initial_state (initial_board root))
              r st' E1 Hcall Hfuel Hcount E2 E3 E4 E5 Hrun Hwins)
    as (w & l & st2 & Hw & Hw1 & Hch & Hreplay & Hhd & Hlast & Hsteps & _).
  assert (Hlw : (length (@nil board) <= w)%nat) by (simpl; lia).
  destruct (run_chain_pegs 14 [] (initial_board root) (initial_state (initial_board root)) r st'
              E1 Hcall Hfuel Hcount Hrun E2 w l Hch Hlw) as (_ & Hcnt & _).
  cbn [squares initial_board] in Hcnt. rewrite (layouts_count _ Hroot), Hw1 in Hcnt.
  exists r, st', w, (rev l), st2. rewrite length_rev.
  split; [exact Hrun|]. split.
  { destruct (run_result 14 [] (initial_board root) (initial_state (initial_board root)) r st'
                E1 Hcall Hfuel Hcount Hrun) as [_ Hres].
    apply Hres. destruct line as [|j line]; simpl in Hplay.
    - injection Hplay as <-. rewrite (layouts_count _ Hroot) in Hone. lia.
    - cbn [squares initial_board].
      destruct (legal_jumps root) as [all|] eqn:Hall; [|done].
      destruct (apply_jump root j) as [u|]; [|done].
      destruct (bool_decide (j ∈ all)) eqn:Hj; [|done].
      apply bool_decide_eq_true in Hj. exists j.
      eapply legal_jumps_finds; [exact Hall|]. by apply list_elem_of_In. }
  split; [exact Hwins|]. split.
  { rewrite Htb, Hheap'. simpl. lia. }
  split; [exact Hw|]. split; [exact Hw1|]. split; [exact Hreplay|]. split; [lia|].
  split; [exact Hhd|]. split; [exact Hlast|].
  intros k1 p c k2 Hpath. destruct (Hsteps k1 p c k2 Hpath) as (bdp & bdc & Hp & Hc & _ & Hchild).
  unfold board_at. by rewrite Hp, Hc.
Qed.

Lemma main_solves_every_layout_witness :
  exists r st',
    generate_boards 14 0 (initial_state initial_board_1) = Ok (r, st') /\
    0 < total_winning_boards st'.
Proof.
  destruct (main_solves_every_layout initial_squares_1) as (r & st' & _ & _ & _ & Hrun & _ & Hw & _).
  - left. reflexivity.
  - exists r, st'. split; [exact Hrun|exact Hw].
Defined.

(** ** The order in which the scan yields the jumps *)

Section ScanOrder.
Context {A : Type} (key : A -> Z).

Lemma sorted_app (l1 l2 : list A) :
  StronglySorted (fun a b => key a < key b) l1 ->
  StronglySorted (fun a b => key a < key b) l2 ->
  (forall x y, In x l1 -> In y l2 -> key x < key y) ->
  StronglySorted (fun a b => key a < key b) (l1 ++ l2).
Proof.
  induction 1 as [|a l1 Hs IH Ha]; intros Hl2 Hlt; [done|]. simpl. constructor.
  - apply IH; [done|]. intros x y Hx Hy. apply Hlt; [by right|done].
  - apply Forall_app. split; [done|]. apply Forall_forall. intros y Hy.
    apply Hlt; [by left|done].
Qed.

Lemma sorted_NoDup (l : list A) :
  StronglySorted (fun a b => key a < key b) l -> NoDup l.
Proof.
  induction 1 as [|a l Hs IH Ha]; constructor; [|done].
  intros Hin%list_elem_of_In. rewrite Forall_forall in Ha. specialize (Ha a Hin). lia.
Qed.

Lemma collect_sorted (base w : Z) n lo (f : Z -> result (list A)) l :
  0 <= w ->
  collect n lo f = Ok l ->
  (forall i li, lo <= i < lo + Z.of_nat n -> f i = Ok li ->
     StronglySorted (fun a b => key a < key b) li /\
     forall x, In x li -> base + i * w <= key x < base + (i + 1) * w) ->
  StronglySorted (fun a b => key a < key b) l /\
  forall x, In x l -> base + lo * w <= key x < base + (lo + Z.of_nat n) * w.
Proof.
  intros Hw. revert lo l. induction n as [|n IH]; intros lo l Hc Hf.
  - rewrite collect_O in Hc. injection Hc as <-. split; [constructor|intros x []].
  - rewrite collect_S in Hc. destruct (f lo) as [l1|] eqn:Hlo; [|done]. simpl in Hc.
    destruct (collect n (lo + 1) f) as [l2|] eqn:Hrest; [|done]. simpl in Hc.
    injection Hc as <-.
    destruct (Hf lo l1) as [Hs1 Hk1]; [lia|done|].
    destruct (IH (lo + 1) l2 Hrest) as [Hs2 Hk2].
    { intros i li Hi. apply Hf. lia. }
    split.
    + apply sorted_app; [done|done|]. intros x y Hx Hy.
      specialize (Hk1 x Hx). specialize (Hk2 y Hy). lia.
    + intros x [Hx|Hx]%in_app_or.
      * specialize (Hk1 x Hx). nia.
      * specialize (Hk2 x Hx). nia.
Qed.
End ScanOrder.

Lemma offset_jumps_key s row col offnum li :
  offset_jumps s row col offnum = Ok li ->
  StronglySorted scanned_before li /\
  forall j, In j li ->
    (row * NUM_COLS + col) * NUM_OFFSETS + offnum * 1 <= jump_key j
    < (row * NUM_COLS + col) * NUM_OFFSETS + (offnum + 1) * 1.
Proof.
  unfold offset_jumps, table_at. intros Hli.
  destruct ((0 <=? offnum) && (offnum <? NUM_OFFSETS)) eqn:Hrange; [|done].
  apply andb_true_iff in Hrange as [Hlo%Z.leb_le Hhi%Z.ltb_lt]. unfold NUM_OFFSETS in Hhi.
  assert (Hcases : offnum = 0 \/ offnum = 1 \/ offnum = 2 \/ offnum = 3 \/ offnum = 4
                   \/ offnum = 5) by lia.
  destruct Hcases as [-> | [-> | [-> | [-> | [-> | ->]]]]]; simpl in Hli;
    (destruct (jump_ok _ _ _ _ _) as [[]|]; simpl in Hli; [| |done]; injection Hli as <-;
     (split; [repeat constructor|]); intros j Hj; [|destruct Hj];
     destruct Hj as [<-|[]]; unfold jump_key; simpl j_row; simpl j_col;
     simpl j_roff; simpl j_coff;
     match goal with |- context [offnum_of ?a ?b] =>
       let v := eval vm_compute in (offnum_of a b) in
       change (offnum_of a b) with v end; lia).
Qed.

Lemma cell_jumps_key s row col li :
  cell_jumps s row col = Ok li ->
  StronglySorted scanned_before li /\
  forall j, In j li ->
    row * NUM_COLS * NUM_OFFSETS + col * NUM_OFFSETS <= jump_key j
    < row * NUM_COLS * NUM_OFFSETS + (col + 1) * NUM_OFFSETS.
Proof.
  unfold cell_jumps. intros Hli. destruct (sq_get s row col) as [v|]; [|done].
  simpl in Hli. destruct (negb (has_flag v POS_FULL)).
  { injection Hli as <-. split; [constructor|intros j []]. }
  destruct (collect_sorted jump_key ((row * NUM_COLS + col) * NUM_OFFSETS) 1 _ _ _ _
              ltac:(lia) Hli) as [Hs Hk].
  { intros i l' _. apply offset_jumps_key. }
  split; [done|]. intros j Hj. specialize (Hk j Hj). unfold NUM_OFFSETS, NUM_COLS in *. lia.
Qed.

(** The scan lists the jumps in the order of its three loops, none twice. *)
Lemma legal_jumps_sorted s js :
  legal_jumps s = Ok js ->
  StronglySorted scanned_before js /\ NoDup js /\
  forall j, In j js -> 0 <= jump_key j < NUM_ROWS * NUM_COLS * NUM_OFFSETS.
Proof.
  unfold legal_jumps. intros Hjs.
  destruct (collect_sorted jump_key 0 (NUM_COLS * NUM_OFFSETS) _ _ _ _ ltac:(done) Hjs)
    as [Hs Hk].
  { intros row lrow _ Hrow.
    destruct (collect_sorted jump_key (row * NUM_COLS * NUM_OFFSETS) NUM_OFFSETS _ _ _ _
                ltac:(done) Hrow) as [Hs Hk].
    { intros col li _. apply cell_jumps_key. }
    split; [done|]. intros j Hj. specialize (Hk j Hj).
    unfold NUM_OFFSETS, NUM_COLS in *. lia. }
  split; [done|]. split; [by eapply sorted_NoDup|].
  intros j Hj. specialize (Hk j Hj). unfold NUM_OFFSETS, NUM_COLS, NUM_ROWS in *. lia.
Qed.

(** X12.  The children of a call's board follow the scan: the scan lists
    the legal jumps in the order of its three loops, by row, then column,
    then position in the offset tables, and none twice; the search links at
    [next[i]] the record of the [i]-th jump of that list, a record allocated
    by the call whose [prev] is the board and whose grid is the result of
    the jump; and these entries of the child array point to distinct
    records. *)
Theorem children_follow_scan_order fuel H bd st r st' :
  heap st = H ++ [bd] -> callable H bd ->
  (1 <= fuel)%nat -> count_pegs (squares bd) <= Z.of_nat fuel ->
  generate_boards fuel (length H) st = Ok (r, st') ->
  exists bd' js,
    heap st' !! length H = Some bd' /\ legal_jumps (squares bd) = Ok js /\
    StronglySorted scanned_before js /\ NoDup js /\
    (forall i j, js !! i = Some j ->
       exists c bdc, next bd' !! i = Some (Some c) /\ heap st' !! c = Some bdc /\
                     (length H < c)%nat /\ prev bdc = Some (length H) /\
                     apply_jump (squares bd) j = Ok (squares bdc)) /\
    (forall i k c, (i < length js)%nat -> (k < length js)%nat ->
       next bd' !! i = Some (Some c) -> next bd' !! k = Some (Some c) -> i = k).
Proof.
  intros Hheap Hcall Hfuel Hcount Hrun.
  destruct (run_explored _ _ _ _ _ _ Hheap Hcall Hfuel Hcount Hrun)
    as (bd' & N & js & Hheap' & Hjs & _ & _ & _ & _ & _ & _ & _ & _ & _ & _ & _ & Hch & _).
  destruct (legal_jumps_sorted _ _ Hjs) as (Hsorted & Hnd & _).
  exists bd', js. split; [by rewrite Hheap', list_lookup_middle|].
  split; [done|]. split; [done|]. split; [done|]. split.
  - intros i j Hi. destruct (Hch i j Hi) as (a & bda & Hnext & Hlt & HN & Hp & Hj).
    exists a, bda. split; [done|]. split; [|done].
    rewrite Hheap', lookup_app_r by lia.
    by replace (a - length H)%nat with (S (a - S (length H))) by lia.
  - intros i k c Hi Hk Hni Hnk.
    destruct (lookup_lt_is_Some_2 js i Hi) as [ji Hji].
    destruct (lookup_lt_is_Some_2 js k Hk) as [jk Hjk].
    destruct (Hch i ji Hji) as (a1 & bd1 & Hn1 & _ & HN1 & _ & Hj1).
    destruct (Hch k jk Hjk) as (a2 & bd2 & Hn2 & _ & HN2 & _ & Hj2).
    assert (a1 = c) as -> by congruence. assert (a2 = c) as -> by congruence.
    assert (bd2 = bd1) as -> by congruence.
    assert (Hf1 : finds (squares bd) ji).
    { apply (legal_jumps_In _ _ _ Hjs), list_elem_of_In. by eapply list_elem_of_lookup_2. }
    assert (Hf2 : finds (squares bd) jk).
    { apply (legal_jumps_In _ _ _ Hjs), list_elem_of_In. by eapply list_elem_of_lookup_2. }
    destruct (finds_cells _ _ Hf1) as (v & adj & Hv & Hfull & _ & _ & _ & Hoff).
    pose proof (apply_jump_same_child _ _ _ _ _ Hv Hfull Hoff Hf2 Hj1 Hj2) as ->.
    by eapply NoDup_lookup.
Qed.

Lemma children_follow_scan_order_witness :
  StronglySorted scanned_before [mkJump 6 4 0 2; mkJump 6 6 0 (-2)] /\
  exists c bdc, next (board_at fork_final 0) !! 1%nat = Some (Some c) /\
                heap fork_final !! c = Some bdc /\
                apply_jump fork_squares (mkJump 6 6 0 (-2)) = Ok (squares bdc).
Proof.
  destruct (children_follow_scan_order 2 [] (initial_board fork_squares) fork_state
              true fork_final) as (bd' & js & Hbd' & Hjs & Hsorted & _ & Hch & _).
  - reflexivity.
  - exact fork_callable.
  - lia.
  - vm_compute. congruence.
  - vm_compute. reflexivity.
  - vm_compute in Hjs. injection Hjs as <-. split; [exact Hsorted|].
    destruct (Hch 1%nat (mkJump 6 6 0 (-2)) eq_refl) as (c & bdc & Hnext & Hc & _ & _ & Hj).
    change (heap fork_final !! 0%nat = Some bd') in Hbd'.
    exists c, bdc. unfold board_at. rewrite Hbd'.
    split; [exact Hnext|]. split; [exact Hc|exact Hj].
Defined.

(** ** What [print_board] writes *)

Section Printing.
Implicit Types (s t : grid) (line : list Z) (v : Z) (row : Z) (out : list ascii).

Lemma count_char_app a out1 out2 :
  count_char a (out1 ++ out2) = (count_char a out1 + count_char a out2)%nat.
Proof. apply count_occ_app. Qed.

Lemma row_label_cases row :
  row_label row = [] \/
  exists d, row_label row = d :: text "  " /\ In d (text "12345").
Proof.
  unfold row_label. destruct ((2 <=? row) && (row <=? 6)) eqn:Hrow; [|by left].
  right. apply andb_true_iff in Hrow as [Hlo%Z.leb_le Hhi%Z.leb_le].
  assert (Hcases : row = 2 \/ row = 3 \/ row = 4 \/ row = 5 \/ row = 6) by lia.
  destruct Hcases as [-> | [-> | [-> | [-> | ->]]]]; eexists; (split; [reflexivity|]);
    simpl; auto 10.
Qed.

Lemma row_label_count a row :
  ~ In a (text "12345 ") -> count_char a (row_label row) = 0%nat.
Proof.
  intros Ha. destruct (row_label_cases row) as [->|(d & -> & Hd)]; [done|].
  apply count_occ_not_In. intros [<-|Hin].
  - apply Ha. simpl in *. tauto.
  - apply Ha. simpl in *. tauto.
Qed.

Lemma print_cell_shown v :
  print_cell v = match shown v with
                 | Blank => text " "
                 | Peg => text "X"
                 | LastPeg => INVERSE_VIDEO ++ text "X" ++ NORMAL_VIDEO
                 end.
Proof.
  unfold print_cell, shown.
  destruct (has_flag v POS_FULL), (has_flag v POS_LAST); reflexivity.
Qed.

Lemma print_cell_X v :
  Z.of_nat (count_char "X" (print_cell v)) = Z.b2z (has_flag v POS_FULL).
Proof.
  unfold print_cell. destruct (has_flag v POS_FULL), (has_flag v POS_LAST); reflexivity.
Qed.

Lemma print_cell_NL v : count_char NL (print_cell v) = 0%nat.
Proof.
  unfold print_cell. destruct (has_flag v POS_FULL), (has_flag v POS_LAST); reflexivity.
Qed.

Lemma cells_X line :
  Z.of_nat (count_char "X" (flat_map print_cell line)) = count_row line.
Proof.
  induction line as [|v line IH]; [done|].
  simpl flat_map. rewrite count_char_app, count_row_cons, Nat2Z.inj_add, print_cell_X. lia.
Qed.

Lemma cells_NL line : count_char NL (flat_map print_cell line) = 0%nat.
Proof.
  induction line as [|v line IH]; [done|].
  simpl flat_map. by rewrite count_char_app, print_cell_NL, IH.
Qed.

Lemma print_row_X row line :
  Z.of_nat (count_char "X" (print_row row line)) = count_row line.
Proof.
  unfold print_row. rewrite !count_char_app, row_label_count, <- cells_X.
  - simpl. lia.
  - simpl. intros [?|[?|[?|[?|[?|[?|[]]]]]]]; discriminate.
Qed.

Lemma print_row_NL row line : count_char NL (print_row row line) = 1%nat.
Proof.
  unfold print_row. rewrite !count_char_app, row_label_count, cells_NL.
  - reflexivity.
  - simpl. intros [?|[?|[?|[?|[?|[?|[]]]]]]]; discriminate.
Qed.

Lemma print_rows_X row s :
  Z.of_nat (count_char "X" (print_rows row s)) = count_pegs s.
Proof.
  revert row. induction s as [|line s IH]; intros row; [done|].
  simpl print_rows. rewrite count_char_app, count_pegs_cons, Nat2Z.inj_add, print_row_X, IH.
  done.
Qed.

Lemma print_rows_NL row s : count_char NL (print_rows row s) = length s.
Proof.
  revert row. induction s as [|line s IH]; intros row; [done|].
  simpl print_rows. rewrite count_char_app, print_row_NL, IH. done.
Qed.

Lemma print_board_X visual debug s :
  Z.of_nat (count_char "X" (print_board visual debug s)) = count_pegs s.
Proof.
  unfold print_board. rewrite !count_char_app, <- (print_rows_X 0 s).
  destruct (visual && negb debug); simpl; lia.
Qed.

(** Decoding: the text of a cell tells what the cell shows, and where the
    text of the next cell begins. *)
Lemma print_cell_inj v w out1 out2 :
  print_cell v ++ out1 = print_cell w ++ out2 -> shown v = shown w /\ out1 = out2.
Proof.
  rewrite !print_cell_shown. destruct (shown v), (shown w); simpl; intros Heq;
    try discriminate; split; try reflexivity; by simplify_eq.
Qed.

Lemma print_cell_not_NL v out1 out2 : print_cell v ++ out1 <> NL :: out2.
Proof. rewrite print_cell_shown. by destruct (shown v). Qed.

Lemma cells_inj line1 line2 out1 out2 :
  flat_map print_cell line1 ++ NL :: out1 = flat_map print_cell line2 ++ NL :: out2 ->
  map shown line1 = map shown line2 /\ out1 = out2.
Proof.
  revert line2. induction line1 as [|v line1 IH]; intros [|w line2]; simpl.
  - intros Heq. split; [done|]. by simplify_eq.
  - rewrite <- app_assoc. intros Heq. symmetry in Heq. by apply print_cell_not_NL in Heq.
  - rewrite <- app_assoc. intros Heq. by apply print_cell_not_NL in Heq.
  - rewrite <- !app_assoc. intros [Hv Heq]%print_cell_inj.
    destruct (IH _ Heq) as [Hl Hout]. split; [by rewrite Hv, Hl|done].
Qed.

Lemma print_row_inj row line1 line2 out1 out2 :
  print_row row line1 ++ out1 = print_row row line2 ++ out2 ->
  map shown line1 = map shown line2 /\ out1 = out2.
Proof.
  unfold print_row. rewrite <- !app_assoc. intros Heq%app_inv_head.
  simpl in Heq. by apply cells_inj.
Qed.

Lemma print_row_nonempty row line out : print_row row line ++ out <> [].
Proof.
  unfold print_row. intros Heq. apply (f_equal length) in Heq.
  rewrite !length_app in Heq. simpl in Heq. lia.
Qed.

Lemma print_rows_inj row s t :
  print_rows row s = print_rows row t -> map (map shown) s = map (map shown) t.
Proof.
  revert row t. induction s as [|l1 s IH]; intros row [|l2 t]; simpl; [done| | |].
  - intros Heq. symmetry in Heq. by apply print_row_nonempty in Heq.
  - intros Heq. by apply print_row_nonempty in Heq.
  - intros [Hl Heq]%print_row_inj. by rewrite Hl, (IH _ _ Heq).
Qed.

Lemma cells_shown line1 line2 :
  map shown line1 = map shown line2 -> flat_map print_cell line1 = flat_map print_cell line2.
Proof.
  revert line2. induction line1 as [|v line1 IH]; intros [|w line2]; simpl; try done.
  intros Heq. injection Heq as Hv Hl. rewrite (IH _ Hl). f_equal.
  by rewrite !print_cell_shown, Hv.
Qed.

Lemma print_rows_shown row s t :
  map (map shown) s = map (map shown) t -> print_rows row s = print_rows row t.
Proof.
  revert row t. induction s as [|l1 s IH]; intros row [|l2 t]; simpl; try done.
  intros Heq. injection Heq as Hl Hs. rewrite (IH _ _ Hs). unfold print_row.
  by rewrite (cells_shown _ _ Hl).
Qed.

Lemma shown_clear_last v :
  shown (Z.land v (Z.lnot POS_LAST)) = match shown v with LastPeg => Peg | g => g end.
Proof.
  unfold shown, has_flag.
  assert (Hfull : Z.land (Z.land v (Z.lnot POS_LAST)) POS_FULL = Z.land v POS_FULL).
  { rewrite <- Z.land_assoc. f_equal. }
  assert (Hlast : Z.land (Z.land v (Z.lnot POS_LAST)) POS_LAST = 0).
  { rewrite <- Z.land_assoc. replace (Z.land (Z.lnot POS_LAST) POS_LAST) with 0 by done.
    apply Z.land_0_r. }
  rewrite Hfull, Hlast. simpl.
  by destruct (negb (Z.land v POS_FULL =? 0)), (negb (Z.land v POS_LAST =? 0)).
Qed.
End Printing.

(** X13.  The picture of a board shows its pegs: [print_board] writes as
    many [X] as [count_pegs] counts, one line per row between a line of
    [+] and a line of [-] that a blank line follows, and, when it does not
    move the cursor, an escape character only around a peg that carries the
    marker of the last jump. *)
Theorem print_board_shows_pegs visual debug s :
  Z.of_nat (count_char "X" (print_board visual debug s)) = count_pegs s /\
  count_char NL (print_board visual debug s) = (length s + 3)%nat /\
  (In ESC (print_board false debug s)
   <-> exists line v, In line s /\ In v line /\ shown v = LastPeg).
Proof.
  split; [apply print_board_X|]. split.
  { unfold print_board. rewrite !count_char_app, print_rows_NL.
    destruct (visual && negb debug); simpl; lia. }
  unfold print_board. simpl andb. cbv iota. rewrite app_nil_l.
  assert (Hrows : forall row, In ESC (print_rows row s)
                              <-> exists line v, In line s /\ In v line /\ shown v = LastPeg).
  { induction s as [|l s IH]; intros row; simpl.
    { split; [intros []|intros (line & _ & [] & _)]. }
    rewrite in_app_iff, IH.
    assert (Hrow : In ESC (print_row row l) <-> exists v, In v l /\ shown v = LastPeg).
    { unfold print_row. rewrite !in_app_iff.
      assert (Hlab : ~ In ESC (row_label row)).
      { destruct (row_label_cases row) as [->|(d & -> & Hd)]; [intros []|].
        simpl in *. intros [->|[?|[?|[]]]]; try discriminate.
        destruct Hd as [?|[?|[?|[?|[?|[]]]]]]; discriminate. }
      assert (Hcells : In ESC (flat_map print_cell l) <-> exists v, In v l /\ shown v = LastPeg).
      { rewrite in_flat_map. split; intros (v & Hv & Hs); exists v; (split; [done|]).
        - rewrite print_cell_shown in Hs. destruct (shown v); [|..|done]; simpl in Hs.
          + destruct Hs as [?|[]]; discriminate.
          + destruct Hs as [?|[]]; discriminate.
        - rewrite print_cell_shown, Hs. by left. }
      rewrite Hcells. split; [intros [?|[?|[?|[]]]]; try done; discriminate|auto]. }
    rewrite Hrow. split.
    - intros [(v & Hv & Hs)|(line & v & Hl & Hv & Hs)].
      + exists l, v. auto.
      + exists line, v. auto.
    - intros (line & v & [<-|Hl] & Hv & Hs); [left; by exists v|right; by exists line, v]. }
  rewrite !in_app_iff, Hrows. split; [|auto].
  assert (Hplain : forall out, forallb (fun a => negb (Ascii.eqb a ESC)) out = true ->
                              ~ In ESC out).
  { intros out Hall Hin. rewrite forallb_forall in Hall. specialize (Hall _ Hin).
    by rewrite Ascii.eqb_refl in Hall. }
  intros [Hin|[Hin|[Hfound|[Hin|Hin]]]]; [| |exact Hfound| |];
    by apply Hplain in Hin.
Qed.

(** X14.  Two boards give the same picture exactly when every cell shows
    the same on both: blank, a peg, or the peg of the last jump.  The
    picture does not tell an empty hole from a cell outside the triangle,
    and the picture of a board after [clear_last] is that of the board with
    every peg plain. *)
Theorem print_board_tells_glyphs visual debug s t :
  (print_board visual debug s = print_board visual debug t
   <-> map (map shown) s = map (map shown) t) /\
  shown POS_EMPTY = shown POS_INVALID /\
  map (map shown) (clear_last s)
  = map (map (fun v => match shown v with LastPeg => Peg | g => g end)) s.
Proof.
  split; [split|split].
  - unfold print_board. intros Heq%app_inv_head%app_inv_head%app_inv_head.
    apply app_inv_tail in Heq. by apply print_rows_inj in Heq.
  - intros Heq. unfold print_board. by rewrite (print_rows_shown 0 s t Heq).
  - reflexivity.
  - unfold clear_last. rewrite map_map. apply map_ext. intros line.
    rewrite map_map. apply map_ext. intros v. apply shown_clear_last.
Qed.

Lemma replay_output_X visual debug st path (n : Z) :
  (forall k x, path !! k = Some x ->
     count_pegs (squares (board_at st x)) = n - Z.of_nat k) ->
  2 * Z.of_nat (count_char "X" (replay_output visual debug st path))
  = Z.of_nat (length path) * (2 * n - Z.of_nat (length path) + 1).
Proof.
  revert n. induction path as [|x path IH]; intros n Hpath; [simpl; lia|].
  unfold replay_output in *. simpl flat_map. rewrite count_char_app, Nat2Z.inj_add.
  rewrite print_board_X, (Hpath 0%nat x eq_refl).
  assert (Hrest : forall k y, path !! k = Some y ->
                    count_pegs (squares (board_at st y)) = (n - 1) - Z.of_nat k).
  { intros k y Hk. rewrite (Hpath (S k) y Hk). lia. }
  specialize (IH (n - 1) Hrest). simpl length. nia.
Qed.

(** X15.  The text of the replay: when the search from a root record with
    [n] pegs has recorded a win, the loop of [main] prints [n] pictures, the
    first with [n] pegs and each with one peg fewer than the one before it,
    so [n (n + 1) / 2] times [X] in all. *)
Theorem replay_prints_the_line fuel H bd st r st' visual debug :
  heap st = H ++ [bd] -> callable H bd ->
  (1 <= fuel)%nat -> count_pegs (squares bd) <= Z.of_nat fuel ->
  prev bd = None -> nextwin bd = None ->
  winning_board st = None -> total_winning_boards st = 0 ->
  generate_boards fuel (length H) st = Ok (r, st') ->
  0 < total_winning_boards st' ->
  exists path st2,
    replay_win (length path) st' = Ok (path, st2) /\
    Z.of_nat (length path) = count_pegs (squares bd) /\
    (forall k x, path !! k = Some x ->
       Z.of_nat (count_char "X" (print_board visual debug (squares (board_at st2 x))))
       = count_pegs (squares bd) - Z.of_nat k) /\
    2 * Z.of_nat (count_char "X" (replay_output visual debug st2 path))
    = count_pegs (squares bd) * (count_pegs (squares bd) + 1).
Proof.
  intros Hheap Hcall Hfuel Hcount Hroot Hnw Hwb Htw0 Hrun Hwins.
  destruct (replay_path_pegs _ _ _ _ _ _ Hheap Hcall Hfuel Hcount Hroot Hnw Hwb Htw0
              Hrun Hwins) as (path & st2 & Hreplay & Hlen & Hpegs).
  exists path, st2. split; [done|]. split; [done|]. split.
  - intros k x Hk. rewrite print_board_X. by apply Hpegs.
  - rewrite (replay_output_X visual debug st2 path _ Hpegs), Hlen. lia.
Qed.

Lemma replay_prints_the_line_witness :
  exists path st2,
    replay_win (length path) two_peg_final = Ok (path, st2) /\
    2 * Z.of_nat (count_char "X" (replay_output false false st2 path)) = 2 * (2 + 1).
Proof.
  destruct (replay_prints_the_line 2 [] (initial_board two_peg_squares)
              two_peg_state true two_peg_final false false)
    as (path & st2 & Hrep & _ & _ & Hx).
  - reflexivity.
  - exact two_peg_callable.
  - lia.
  - vm_compute. congruence.
  - reflexivity.
  - reflexivity.
  - reflexivity.
  - reflexivity.
  - vm_compute. reflexivity.
  - vm_compute. reflexivity.
  - exists path, st2. split; [exact Hrep|exact Hx].
Defined.
